(** * Goldsky ingestion engine: checkpoints, queues, loaders

    A shallow embedding of
    [warehouse/oso_dagster/factories/goldsky/assets.py] and the
    properties of its specification.

    Python values are modelled as follows: [int] is [Z], [str] is
    [string] (compared byte-wise, which is Python's code-point order on
    ASCII names), a [list] used as an array is a Rocq [list] read with
    stdpp's [!!] and written with [<[i:=x]>], a [dict] is an association
    list in insertion order, and [None] is the [None] of an [option].
    A method that mutates its object or may raise is a function from the
    object's state to an [outcome]. *)

From Stdlib Require Import ZArith String Ascii Bool Lia Permutation Sorted.
From stdpp Require Import base tactics option list strings.

Local Open Scope string_scope.
Local Open Scope Z_scope.

(** * Part I: the program *)

(** ** Python exceptions

    [NotFound] is a [ClientError] in [google.api_core.exceptions];
    [InternalServerError] is not. *)

Inductive exn : Type :=
| TypeError
| AttributeError
| IndexError
| KeyError
| InternalServerError
| ClientError
| NotFound
| OtherError.

Definition is_IndexError (e : exn) : bool :=
  match e with IndexError => true | _ => false end.

Definition is_InternalServerError (e : exn) : bool :=
  match e with InternalServerError => true | _ => false end.

Definition is_ClientError (e : exn) : bool :=
  match e with ClientError | NotFound => true | _ => false end.

Definition is_NotFound (e : exn) : bool :=
  match e with NotFound => true | _ => false end.

Definition is_Exception (e : exn) : bool := true.

(** ** str *)

Module PyStr.

Definition lt (a b : string) : bool := String.ltb a b.
Definition eq (a b : string) : bool := String.eqb a b.
Definition ne (a b : string) : bool := negb (String.eqb a b).

(** [s.startswith(p)]. *)
Definition startswith (p s : string) : bool := String.prefix p s.

(** [s.endswith(p)] for a one-character [p]. *)
Fixpoint endswith_char (c : ascii) (s : string) : bool :=
  match s with
  | EmptyString => false
  | String x EmptyString => Ascii.eqb x c
  | String _ s' => endswith_char c s'
  end.

End PyStr.

(** ** GoldskyCheckpoint *)

Record GoldskyCheckpoint : Type := mkGoldskyCheckpoint {
  job_id : string;
  timestamp : Z;
  worker_checkpoint : Z
}.

Module Checkpoint.

Definition __lt__ (self other : GoldskyCheckpoint) : bool :=
  if timestamp self <? timestamp other then true
  else
    if negb (timestamp self =? timestamp other) then false
    else if PyStr.lt (job_id self) (job_id other) then true
    else
      if PyStr.ne (job_id self) (job_id other) then false
      else worker_checkpoint self <? worker_checkpoint other.

Definition __eq__ (self other : GoldskyCheckpoint) : bool :=
  (timestamp self =? timestamp other)
  && PyStr.eq (job_id self) (job_id other)
  && (worker_checkpoint self =? worker_checkpoint other).

Definition __le__ (self other : GoldskyCheckpoint) : bool :=
  if __eq__ self other then true else __lt__ self other.

Definition __gt__ (self other : GoldskyCheckpoint) : bool :=
  if __eq__ self other then false else __lt__ other self.

Definition __ge__ (self other : GoldskyCheckpoint) : bool :=
  if __eq__ self other then true else __gt__ self other.

(** The order of the specification, in its words: the order of the
    tuples [(timestamp, job_id, worker_checkpoint)]. *)
Definition key (c : GoldskyCheckpoint) : Z * string * Z :=
  (timestamp c, job_id c, worker_checkpoint c).

Definition tuple_lex_lt (x y : Z * string * Z) : Prop :=
  let '(t1, j1, w1) := x in
  let '(t2, j2, w2) := y in
  t1 < t2 ∨ (t1 = t2 ∧ (String.compare j1 j2 = Lt ∨ (j1 = j2 ∧ w1 < w2))).

End Checkpoint.

(** ** GoldskyCheckpointRange *)

Record GoldskyCheckpointRange : Type := mkGoldskyCheckpointRange {
  _start : GoldskyCheckpoint;
  _end : option GoldskyCheckpoint
}.

Module CheckpointRange.

(** [start or GoldskyCheckpoint("0", 0, 0)]: a checkpoint object is
    always truthy, so only [None] takes the default. *)
Definition __init__ (start end_ : option GoldskyCheckpoint)
  : GoldskyCheckpointRange :=
  {| _start := default (mkGoldskyCheckpoint "0" 0 0) start; _end := end_ |}.

Definition in_range (self : GoldskyCheckpointRange)
  (checkpoint : GoldskyCheckpoint) : bool :=
  if Checkpoint.__ge__ checkpoint (_start self) then
    match _end self with
    | None => true
    | Some e => Checkpoint.__lt__ checkpoint e
    end
  else false.

End CheckpointRange.

(** ** Mutable state and exceptions *)

Inductive outcome (S A : Type) : Type :=
| Ret (a : A) (s : S)
| Raise (e : exn) (s : S).
Arguments Ret {S A} a s.
Arguments Raise {S A} e s.

Definition M (S A : Type) : Type := S → outcome S A.

Definition state_of {S A} (o : outcome S A) : S :=
  match o with Ret _ s => s | Raise _ s => s end.

Definition value_of {S A} (o : outcome S A) : exn + A :=
  match o with Ret a _ => inr a | Raise e _ => inl e end.

#[export] Instance M_ret {S} : MRet (M S) := λ A a s, Ret a s.

#[export] Instance M_bind {S} : MBind (M S) := λ A B f m s,
  match m s with
  | Ret a s' => f a s'
  | Raise e s' => Raise e s'
  end.

Definition raise {S A} (e : exn) : M S A := λ s, Raise e s.
Definition get {S} : M S S := λ s, Ret s s.
Definition put {S} (s : S) : M S unit := λ _, Ret tt s.
Definition modify {S} (f : S → S) : M S unit := λ s, Ret tt (f s).

(** A computation that may fail without touching the state. *)
Definition lift {S A} (r : exn + A) : M S A :=
  match r with inl e => raise e | inr a => mret a end.

(** [try: m except E: h], where [handles] says which exceptions are
    an [E]. *)
Definition try_except {S A} (m : M S A) (handles : exn → bool) (h : M S A)
  : M S A := λ s,
  match m s with
  | Ret a s' => Ret a s'
  | Raise e s' => if handles e then h s' else Raise e s'
  end.

(** A method of a component object, run on the component in place. *)
Definition on_field {S T A} (proj : S → T) (upd : T → S → S) (m : M T A)
  : M S A := λ s,
  match m (proj s) with
  | Ret a t => Ret a (upd t s)
  | Raise e t => Raise e (upd t s)
  end.

(** [for x in l: body x]. *)
Fixpoint for_each {S A} (l : list A) (body : A → M S unit) : M S unit :=
  match l with
  | [] => mret tt
  | x :: l' => body x;; for_each l' body
  end.

(** ** Python lists used as arrays *)

Module PyList.

Definition len {A} : M (list A) nat := λ l, Ret (length l) l.

Definition append {A} (x : A) : M (list A) unit :=
  λ l, Ret tt (l ++ [x])%list.

(** [l[i]] for [i >= 0]. *)
Definition getitem {A} (i : nat) : M (list A) A := λ l,
  match l !! i with
  | Some x => Ret x l
  | None => Raise IndexError l
  end.

(** [l[i] = x] for [i >= 0]. *)
Definition setitem {A} (i : nat) (x : A) : M (list A) unit := λ l,
  if decide (i < length l)%nat then Ret tt (<[i:=x]> l)
  else Raise IndexError l.

(** [l.pop()]. *)
Definition pop {A} : M (list A) A := λ l,
  match last l with
  | Some x => Ret x (removelast l)
  | None => Raise IndexError l
  end.

End PyList.

(** ** dict with str keys, in insertion order *)

Module PyDict.

Definition t (V : Type) : Type := list (string * V).

Fixpoint get {V} (d : t V) (k : string) : option V :=
  match d with
  | [] => None
  | (k', v) :: d' => if String.eqb k' k then Some v else get d' k
  end.

(** [d[k] = v]: a present key keeps its place. *)
Fixpoint set {V} (d : t V) (k : string) (v : V) : t V :=
  match d with
  | [] => [(k, v)]
  | (k', v') :: d' =>
      if String.eqb k' k then (k, v) :: d' else (k', v') :: set d' k v
  end.

Definition keys {V} (d : t V) : list string := map fst d.
Definition items {V} (d : t V) : list (string * V) := d.

(** A dict is truthy when it is not empty. *)
Definition truthy {V} (d : t V) : bool :=
  match d with [] => false | _ => true end.

End PyDict.

(** ** The standard library's heapq

    [heappush], [heappop], [_siftdown] and [_siftup] as CPython writes
    them, over elements whose [<] may raise. The two loops run on fuel:
    [_siftdown] is given [pos] and [_siftup] the length of the heap,
    which the loops cannot exhaust ([_siftdown_loop_fuel],
    [_siftup_loop_fuel]). *)

Module heapq.
Section heapq.
Context {A : Type}.
Variable lt : A → A → exn + bool.

Fixpoint _siftdown_loop (fuel : nat) (newitem : A) (startpos pos : nat)
  : M (list A) nat :=
  match fuel with
  | O => mret pos
  | S fuel =>
      if decide (startpos < pos)%nat then
        let parentpos := Nat.shiftr (pos - 1) 1 in
        parent ← PyList.getitem parentpos;
        b ← lift (lt newitem parent);
        if b : bool then
          PyList.setitem pos parent;;
          _siftdown_loop fuel newitem startpos parentpos
        else mret pos
      else mret pos
  end.

Definition _siftdown (startpos pos : nat) : M (list A) unit :=
  newitem ← PyList.getitem pos;
  pos ← _siftdown_loop pos newitem startpos pos;
  PyList.setitem pos newitem.

Fixpoint _siftup_loop (fuel : nat) (endpos pos : nat) : M (list A) nat :=
  match fuel with
  | O => mret pos
  | S fuel =>
      let childpos := (2 * pos + 1)%nat in
      if decide (childpos < endpos)%nat then
        let rightpos := (childpos + 1)%nat in
        childpos ←
          (if decide (rightpos < endpos)%nat then
             l ← PyList.getitem childpos;
             r ← PyList.getitem rightpos;
             b ← lift (lt l r);
             mret (if b : bool then childpos else rightpos)
           else mret childpos);
        c ← PyList.getitem childpos;
        PyList.setitem pos c;;
        _siftup_loop fuel endpos childpos
      else mret pos
  end.

Definition _siftup (pos : nat) : M (list A) unit :=
  endpos ← PyList.len;
  let startpos := pos in
  newitem ← PyList.getitem pos;
  pos ← _siftup_loop endpos endpos pos;
  PyList.setitem pos newitem;;
  _siftdown startpos pos.

Definition heappush (item : A) : M (list A) unit :=
  PyList.append item;;
  n ← PyList.len;
  _siftdown 0 (n - 1).

Definition heappop : M (list A) A :=
  lastelt ← PyList.pop;
  n ← PyList.len;
  if decide (0 < n)%nat then
    returnitem ← PyList.getitem 0%nat;
    PyList.setitem 0%nat lastelt;;
    _siftup 0;;
    mret returnitem
  else mret lastelt.

End heapq.
End heapq.

(** ** Queue items *)

(** The groups of a successful match of the blob-name pattern. *)
Record re_Match : Type := mkMatch {
  group0 : string;
  group_timestamp : string;
  group_job_id : string;
  group_worker : string;
  group_checkpoint : string
}.

Record GoldskyQueueItem : Type := mkGoldskyQueueItem {
  checkpoint : GoldskyCheckpoint;
  blob_name : string;
  blob_match : re_Match
}.

(** A Python reference to an item, or [None]. *)
Definition item_ref : Type := option GoldskyQueueItem.

(** [a < b] on what a heap may hold. [GoldskyQueueItem.__lt__] reads
    [other.checkpoint], which [None] does not have; [None] is ordered
    with nothing, and the item defines no reflected [__gt__]. *)
Definition item_lt (a b : item_ref) : exn + bool :=
  match a, b with
  | Some self, Some other =>
      inr (Checkpoint.__lt__ (checkpoint self) (checkpoint other))
  | Some _, None => inl AttributeError
  | None, _ => inl TypeError
  end.

(** [item.checkpoint] and [item.blob_name] on a reference. *)
Definition attr {S A} (f : GoldskyQueueItem → A) (item : item_ref) : M S A :=
  match item with
  | Some i => mret (f i)
  | None => raise AttributeError
  end.

(** ** GoldskyQueue *)

Record GoldskyQueue : Type := mkGoldskyQueue {
  queue : list item_ref;
  _dequeues : Z;
  max_size : Z
}.

Module Queue.

Definition __init__ (max_size : Z) : GoldskyQueue :=
  {| queue := []; _dequeues := 0; max_size := max_size |}.

Definition set_queue (l : list item_ref) (q : GoldskyQueue) : GoldskyQueue :=
  {| queue := l; _dequeues := _dequeues q; max_size := max_size q |}.

Definition incr_dequeues : M GoldskyQueue unit := λ q,
  Ret tt {| queue := queue q; _dequeues := _dequeues q + 1;
            max_size := max_size q |}.

Definition enqueue (item : item_ref) : M GoldskyQueue unit :=
  on_field queue set_queue (heapq.heappush item_lt item).

Definition dequeue : M GoldskyQueue item_ref :=
  q ← get;
  if _dequeues q >? max_size q - 1 then mret None
  else
    try_except
      (item ← on_field queue set_queue (heapq.heappop item_lt);
       incr_dequeues;;
       mret item)
      is_IndexError
      (mret None).

Definition len : M GoldskyQueue Z := λ q,
  Ret (Z.of_nat (length (queue q))) q.

Definition empty : M GoldskyQueue unit := λ q, Ret tt (set_queue [] q).

End Queue.

(** ** GoldskyQueues *)

Record GoldskyQueues : Type := mkGoldskyQueues {
  queues : PyDict.t GoldskyQueue;
  queues_max_size : Z
}.

Module Queues.

Definition __init__ (max_size : Z) : GoldskyQueues :=
  {| queues := []; queues_max_size := max_size |}.

Definition set_worker (worker : string) (q : GoldskyQueue)
  (qs : GoldskyQueues) : GoldskyQueues :=
  {| queues := PyDict.set (queues qs) worker q;
     queues_max_size := queues_max_size qs |}.

(** A method of the queue object stored for [worker]: the object is
    shared with the dict, so what the method does to it is seen there
    whether it returns or raises. *)
Definition on_stored (worker : string) (q : GoldskyQueue) {A}
  (m : M GoldskyQueue A) : M GoldskyQueues A :=
  on_field (λ _, q) (set_worker worker) m.

(** A method of a fresh queue that no one else holds. *)
Definition on_fresh {A} (m : M GoldskyQueue A)
  : M GoldskyQueues (A * GoldskyQueue) := λ qs,
  match m (Queue.__init__ (queues_max_size qs)) with
  | Ret a q => Ret (a, q) qs
  | Raise e _ => Raise e qs
  end.

Definition enqueue (worker : string) (item : item_ref)
  : M GoldskyQueues unit :=
  qs ← get;
  match PyDict.get (queues qs) worker with
  | Some q => on_stored worker q (Queue.enqueue item)
  | None =>
      r ← on_fresh (Queue.enqueue item);
      modify (set_worker worker r.2)
  end.

Definition dequeue (worker : string) : M GoldskyQueues item_ref :=
  qs ← get;
  match PyDict.get (queues qs) worker with
  | Some q => on_stored worker q Queue.dequeue
  | None => r ← on_fresh Queue.dequeue; mret r.1
  end.

(** "Get a value off the top of the queue without popping it". *)
Definition peek : M GoldskyQueues item_ref :=
  qs ← get;
  match queues qs with
  | (key0, q) :: _ =>
      on_stored key0 q
        (item ← Queue.dequeue;
         Queue.enqueue item;;
         mret item)
  | [] => mret None
  end.

Definition empty (worker : string) : M GoldskyQueues unit :=
  qs ← get;
  match PyDict.get (queues qs) worker with
  | Some q => on_stored worker q Queue.empty
  | None => mret tt
  end.

Definition workers (qs : GoldskyQueues) : list string :=
  PyDict.keys (queues qs).

Definition status (qs : GoldskyQueues) : PyDict.t Z :=
  map (λ kv, (kv.1, Z.of_nat (length (queue kv.2)))) (queues qs).

Definition worker_queues (qs : GoldskyQueues)
  : list (string * GoldskyQueue) :=
  PyDict.items (queues qs).

End Queues.

(** ** The blob-name pattern

    [goldsky_re] is
    [os.path.join(source_goldsky_dir, source_name)] followed by
    [/(\d+)-(uuid)-(\d+)-(\d+).parquet], matched at the start of the
    name ([re.match]) and not anchored at its end. The directory and
    source name are taken to hold no regular-expression operators, so
    that they match themselves; names are ASCII, so [\d] is [0-9]. *)

Module Re.

Definition is_digit (c : ascii) : bool :=
  ((48 <=? N_of_ascii c) && (N_of_ascii c <=? 57))%N.

Definition is_hex (c : ascii) : bool :=
  is_digit c || ((97 <=? N_of_ascii c) && (N_of_ascii c <=? 102))%N.

(** The longest prefix of digits, and what follows it. *)
Fixpoint span_digits (s : string) : string * string :=
  match s with
  | String c s' =>
      if is_digit c then
        let (d, r) := span_digits s' in (String c d, r)
      else (EmptyString, s)
  | EmptyString => (EmptyString, EmptyString)
  end.

(** [[0-9a-f]{n}]. *)
Fixpoint hex (n : nat) (s : string) : option (string * string) :=
  match n with
  | O => Some (EmptyString, s)
  | S n' =>
      match s with
      | String c s' =>
          if is_hex c then
            match hex n' s' with
            | Some (h, r) => Some (String c h, r)
            | None => None
            end
          else None
      | EmptyString => None
      end
  end.

(** A literal. *)
Fixpoint lit (p s : string) : option string :=
  match p with
  | EmptyString => Some s
  | String c p' =>
      match s with
      | String x s' => if Ascii.eqb c x then lit p' s' else None
      | EmptyString => None
      end
  end.

(** [\d+] followed by a literal that is not a digit: the greedy match
    is the only one. *)
Definition digits_then (sep : string) (s : string)
  : option (string * string) :=
  let (d, r) := span_digits s in
  match d with
  | EmptyString => None
  | _ => match lit sep r with Some r' => Some (d, r') | None => None end
  end.

Definition uuid (s : string) : option (string * string) :=
  match hex 8 s with
  | Some (a, r) =>
  match lit "-" r with
  | Some r =>
  match hex 4 r with
  | Some (b, r) =>
  match lit "-" r with
  | Some r =>
  match hex 4 r with
  | Some (c, r) =>
  match lit "-" r with
  | Some r =>
  match hex 4 r with
  | Some (d, r) =>
  match lit "-" r with
  | Some r =>
  match hex 12 r with
  | Some (e, r) =>
      Some (a ++ "-" ++ b ++ "-" ++ c ++ "-" ++ d ++ "-" ++ e, r)
  | None => None end
  | None => None end
  | None => None end
  | None => None end
  | None => None end
  | None => None end
  | None => None end
  | None => None end
  | None => None end.

(** [.]: any character but a newline. *)
Definition any_char (s : string) : option (ascii * string) :=
  match s with
  | String c s' => if Ascii.eqb c "010" then None else Some (c, s')
  | EmptyString => None
  end.

Fixpoint init (s : string) : string :=
  match s with
  | EmptyString => EmptyString
  | String _ EmptyString => EmptyString
  | String c s' => String c (init s')
  end.

Fixpoint last_char (s : string) : option ascii :=
  match s with
  | EmptyString => None
  | String c EmptyString => Some c
  | String _ s' => last_char s'
  end.

(** [(\d+).parquet]: the digits are taken greedily; when the character
    after them cannot stand for [.], the engine gives the last digit
    back to [.]. Returns the group and the text matched after it. *)
Definition checkpoint_tail (s : string) : option (string * string) :=
  let (d, r) := span_digits s in
  match d with
  | EmptyString => None
  | _ =>
      match any_char r with
      | Some (c, r') =>
          match lit "parquet" r' with
          | Some _ => Some (d, String c "parquet")
          | None => None
          end
      | None => None
      end
  end.

Definition checkpoint_tail_backtrack (s : string)
  : option (string * string) :=
  let (d, r) := span_digits s in
  match init d, last_char d, lit "parquet" r with
  | String c d', Some x, Some _ => Some (String c d', String x "parquet")
  | _, _, _ => None
  end.

Definition match_ (prefix name : string) : option re_Match :=
  match lit prefix name with
  | Some r =>
  match lit "/" r with
  | Some r =>
  match digits_then "-" r with
  | Some (ts, r) =>
  match uuid r with
  | Some (job, r) =>
  match lit "-" r with
  | Some r =>
  match digits_then "-" r with
  | Some (w, r) =>
  match
    match checkpoint_tail r with
    | Some x => Some x
    | None => checkpoint_tail_backtrack r
    end
  with
  | Some (cp, tail) =>
      Some {| group0 :=
                prefix ++ "/" ++ ts ++ "-" ++ job ++ "-" ++ w ++ "-" ++ cp
                ++ tail;
              group_timestamp := ts;
              group_job_id := job;
              group_worker := w;
              group_checkpoint := cp |}
  | None => None end
  | None => None end
  | None => None end
  | None => None end
  | None => None end
  | None => None end
  | None => None end.

End Re.

(** [int(s)] for a string of decimal digits. *)
Fixpoint int_acc (acc : Z) (s : string) : Z :=
  match s with
  | EmptyString => acc
  | String c s' => int_acc (10 * acc + (Z.of_N (N_of_ascii c) - 48)) s'
  end.

Definition int (s : string) : Z := int_acc 0 s.

(** [os.path.join(a, b)] on POSIX. *)
Definition os_path_join (a b : string) : string :=
  if PyStr.startswith "/" b then b
  else if PyStr.eq a "" || PyStr.endswith_char "/" a then a ++ b
  else a ++ "/" ++ b.

(** ** Warehouse schema *)

Module polars.

(** The data types of polars. [Struct] carries no fields here: the
    mapping never reads them. *)
Inductive DataType : Type :=
| Boolean
| Int8 | Int16 | Int32 | Int64
| UInt8 | UInt16 | UInt32 | UInt64
| Float32 | Float64
| Date
| Time
| Datetime (time_unit : string) (time_zone : option string)
| Duration (time_unit : string)
| String
| Binary
| Categorical
| Null
| Object
| Decimal (precision : option Z) (scale : Z)
| List (inner : DataType)
| Array (inner : DataType) (width : nat)
| Struct.

End polars.

Record SchemaField : Type := mkSchemaField {
  sf_name : string;
  field_type : string;
  mode : string;
  sf_precision : option Z;
  sf_scale : option Z
}.

(** [SchemaField(name, field_type=...)] with the constructor's
    defaults. *)
Definition SchemaField_ (name field_type : string) : SchemaField :=
  {| sf_name := name; field_type := field_type; mode := "NULLABLE";
     sf_precision := None; sf_scale := None |}.

Definition decimal_convert (name : string) (precision : option Z)
  (scale : Z) : SchemaField :=
  if bool_decide (precision = Some 100) && (scale =? 0) then
    SchemaField_ name "NUMERIC"
  else
    {| sf_name := name; field_type := "DECIMAL"; mode := "NULLABLE";
       sf_precision := precision; sf_scale := Some scale |}.

Definition basic_type_convert (type_name : string) (name : string)
  (_ : polars.DataType) : SchemaField :=
  SchemaField_ name type_name.

(** [list_type_convert], given the table it looks [inner] up in. *)
Definition list_type_convert
  (table : string → polars.DataType → exn + SchemaField)
  (name : string) (inner : polars.DataType) : exn + SchemaField :=
  match table "_inner" inner with
  | inr inner_type =>
      inr {| sf_name := name; field_type := field_type inner_type;
             mode := "REPEATED"; sf_precision := None; sf_scale := None |}
  | inl e => inl e
  end.

(** [PARQUET_TO_BQ_FIELD_TYPES[...](name, field)]: the entry is found
    by the class of the type, and a class with no entry is a
    [KeyError]. *)
Fixpoint PARQUET_TO_BQ_FIELD_TYPES (name : string) (field : polars.DataType)
  : exn + SchemaField :=
  match field with
  | polars.Boolean => inr (basic_type_convert "BOOLEAN" name field)
  | polars.Int64 => inr (basic_type_convert "INT64" name field)
  | polars.Int32 => inr (basic_type_convert "INT64" name field)
  | polars.Date => inr (basic_type_convert "DATE" name field)
  | polars.String => inr (basic_type_convert "STRING" name field)
  | polars.Decimal precision scale =>
      inr (decimal_convert name precision scale)
  | polars.Datetime _ _ => inr (basic_type_convert "TIMESTAMP" name field)
  | polars.Float64 => inr (basic_type_convert "FLOAT64" name field)
  | polars.Float32 => inr (basic_type_convert "FLOAT64" name field)
  | polars.List inner =>
      list_type_convert PARQUET_TO_BQ_FIELD_TYPES name inner
  | _ => inl KeyError
  end.

(** The loop of [load_schema] over the fields of the Parquet schema. *)
Fixpoint load_schema_fields (overrides_lookup : PyDict.t SchemaField)
  (parquet_schema : list (string * polars.DataType))
  : exn + list SchemaField :=
  match parquet_schema with
  | [] => inr []
  | (field_name, field) :: rest =>
      match PyDict.get overrides_lookup field_name with
      | Some override =>
          match load_schema_fields overrides_lookup rest with
          | inr schema => inr (override :: schema)
          | inl e => inl e
          end
      | None =>
          match PARQUET_TO_BQ_FIELD_TYPES field_name field with
          | inr schema_field =>
              match load_schema_fields overrides_lookup rest with
              | inr schema => inr (schema_field :: schema)
              | inl e => inl e
              end
          | inl e => inl e
          end
      end
  end.

(** [overrides_lookup[override.name] = override] for each override. *)
Definition overrides_lookup_of (schema_overrides : list SchemaField)
  : PyDict.t SchemaField :=
  fold_left (λ d o, PyDict.set d (sf_name o) o) schema_overrides [].

(** ** Configuration

    The fields of [GoldskyConfig] that the engine reads. *)

Record GoldskyConfig : Type := mkGoldskyConfig {
  source_name : string;
  source_bucket_name : string;
  source_goldsky_dir : string;
  destination_table_name : string;
  project_id : string;
  working_destination_dataset_name : string;
  pointer_size : Z;
  max_objects_to_load : Z;
  schema_overrides : list SchemaField;
  retention_files : Z
}.

(** ** The warehouse and the object store

    The pointer table is a list of rows, oldest first. A staging table
    is the list of the URIs loaded into it. [responses] scripts the
    service: each load job or query takes the next entry, runs when it
    is [None] (or when the script is over) and raises the exception
    otherwise, leaving the tables as they were. *)

Record PointerRow : Type := mkPointerRow {
  row_worker : string;
  row_job_id : string;
  row_timestamp : Z;
  row_checkpoint : Z
}.

Record World : Type := mkWorld {
  pointer_rows : list PointerRow;
  tables : PyDict.t (list string);
  responses : list (option exn);
  blobs : list string;
  blob_schema : string → list (string * polars.DataType)
}.

Module BQ.

Definition set_pointer_rows (rows : list PointerRow) (w : World) : World :=
  {| pointer_rows := rows; tables := tables w; responses := responses w;
     blobs := blobs w; blob_schema := blob_schema w |}.

Definition set_tables (t : PyDict.t (list string)) (w : World) : World :=
  {| pointer_rows := pointer_rows w; tables := t; responses := responses w;
     blobs := blobs w; blob_schema := blob_schema w |}.

Definition set_responses (r : list (option exn)) (w : World) : World :=
  {| pointer_rows := pointer_rows w; tables := tables w; responses := r;
     blobs := blobs w; blob_schema := blob_schema w |}.

(** One request to the service: it fails as scripted, or runs. *)
Definition request {A} (run : M World A) : M World A := λ w,
  match responses w with
  | Some e :: rest => Raise e (set_responses rest w)
  | None :: rest => run (set_responses rest w)
  | [] => run w
  end.

(** [client.load_table_from_uri(uris, table, ...).result()]. *)
Definition load_table_from_uri (uris : list string) (table : string)
  : M World unit :=
  request (modify (λ w,
    set_tables
      (PyDict.set (tables w) table
         (default [] (PyDict.get (tables w) table) ++ uris)%list) w)).

Definition delete_worker (worker : string) (rows : list PointerRow)
  : list PointerRow :=
  filter (λ r, row_worker r ≠ worker) rows.

Definition pointer_row (worker : string) (c : GoldskyCheckpoint)
  : PointerRow :=
  {| row_worker := worker; row_job_id := job_id c;
     row_timestamp := timestamp c; row_checkpoint := worker_checkpoint c |}.

(** [DELETE FROM pointer WHERE worker = ...]. *)
Definition sql_delete_pointer (worker : string) : M World unit :=
  modify (λ w, set_pointer_rows (delete_worker worker (pointer_rows w)) w).

(** [INSERT INTO pointer (worker, job_id, timestamp, checkpoint)
    VALUES (...)]. *)
Definition sql_insert_pointer (worker : string) (c : GoldskyCheckpoint)
  : M World unit :=
  modify (λ w,
    set_pointer_rows (pointer_rows w ++ [pointer_row worker c])%list w).

(** [LOAD DATA OVERWRITE table FROM FILES (uris = [uri])]. *)
Definition sql_load_data_overwrite (table uri : string) : M World unit :=
  modify (λ w, set_tables (PyDict.set (tables w) table [uri]) w).

(** [INSERT INTO dst SELECT * FROM src]. *)
Definition sql_insert_select (dst src : string) : M World unit :=
  w ← get;
  match PyDict.get (tables w) dst, PyDict.get (tables w) src with
  | Some d, Some s =>
      put (set_tables (PyDict.set (tables w) dst (d ++ s)%list) w)
  | _, _ => raise NotFound
  end.

(** [DROP TABLE table]. *)
Definition sql_drop_table (table : string) : M World unit :=
  modify (λ w,
    set_tables (filter (λ kv, kv.1 ≠ table) (tables w)) w).

(** [client.get_table(ref)]. *)
Definition get_table (table : string) : M World unit :=
  w ← get;
  match PyDict.get (tables w) table with
  | Some _ => mret tt
  | None => raise NotFound
  end.

(** [SELECT worker, timestamp, job_id, checkpoint FROM pointer]. *)
Definition select_pointer : M World (list PointerRow) :=
  request (w ← get; mret (pointer_rows w)).

End BQ.

(** ** GoldskyWorker and DirectGoldskyWorker *)

Record GoldskyWorker : Type := mkGoldskyWorker {
  name : string;
  worker_job_id : string;
  pointer_table : string;
  latest_checkpoint : option GoldskyCheckpoint;
  config : GoldskyConfig;
  schema : list SchemaField
}.

(** A worker at work: its queue, and the world its clients reach. *)
Definition WorkerState : Type := GoldskyQueue * World.

Definition in_queue {A} (m : M GoldskyQueue A) : M WorkerState A :=
  on_field fst (λ q s, (q, s.2)) m.

Definition in_world {A} (m : M World A) : M WorkerState A :=
  on_field snd (λ w s, (s.1, w)) m.

(** [bq_retry(context, f, retries)]: the loop over [range(retries)].
    A server error is logged and slept on; a client error is raised
    again, and any other exception was never caught. When the range is
    over the function ends, which returns [None]. *)
Fixpoint bq_retry {S A} (f : M S A) (retries : nat) : M S (option A) :=
  match retries with
  | O => mret None
  | S retries => λ s,
      match f s with
      | Ret a s' => Ret (Some a) s'
      | Raise e s' =>
          if is_InternalServerError e then bq_retry f retries s'
          else Raise e s'
      end
  end.

Module Worker.

Definition raw_table (self : GoldskyWorker) : string :=
  destination_table_name (config self) ++ "_" ++ name self.

Definition deduped_table (self : GoldskyWorker) : string :=
  destination_table_name (config self) ++ "_deduped_" ++ name self.

(** The transaction of [update_pointer_table]: both statements or
    neither. *)
Definition tx_query (worker : string) (new_checkpoint : GoldskyCheckpoint)
  : M World unit :=
  BQ.request
    (BQ.sql_delete_pointer worker;;
     BQ.sql_insert_pointer worker new_checkpoint).

(** [for i in range(3): try: ... return resp; except Exception: ...
    continue]; when the range is over the method ends. *)
Fixpoint update_pointer_table_loop (tx : M World unit) (n : nat)
  : M World (option unit) :=
  match n with
  | O => mret None
  | S n =>
      try_except (tx;; mret (Some tt)) is_Exception
        (update_pointer_table_loop tx n)
  end.

Definition update_pointer_table (self : GoldskyWorker)
  (new_checkpoint : GoldskyCheckpoint) : M World (option unit) :=
  update_pointer_table_loop (tx_query (name self) new_checkpoint) 3.

Definition commit_pointer (self : GoldskyWorker)
  (files_to_load : list string) (checkpoint : GoldskyCheckpoint)
  : M World unit :=
  bq_retry (BQ.load_table_from_uri files_to_load (raw_table self)) 5;;
  update_pointer_table self checkpoint;;
  mret tt.

(** The [while item is not None] loop of [run_load_bigquery_load];
    each turn but the last takes an item off the heap, so fuel above
    the length of the heap is never used up. *)
Fixpoint run_load_loop (fuel : nat) (self : GoldskyWorker)
  (to_load : list string) (latest_checkpoint : GoldskyCheckpoint)
  (item : item_ref) : M WorkerState (list string * GoldskyCheckpoint) :=
  match item, fuel with
  | Some i, S fuel =>
      let source :=
        "gs://" ++ source_bucket_name (config self) ++ "/" ++ blob_name i in
      let to_load := (to_load ++ [source])%list in
      to_load ←
        (if Z.of_nat (length to_load) >=? pointer_size (config self) then
           in_world (commit_pointer self to_load (checkpoint i));;
           mret []
         else mret to_load);
      let latest_checkpoint := checkpoint i in
      item ← in_queue Queue.dequeue;
      run_load_loop fuel self to_load latest_checkpoint item
  | _, _ => mret (to_load, latest_checkpoint)
  end.

Definition run_load_bigquery_load (self : GoldskyWorker)
  : M WorkerState unit :=
  item ← in_queue Queue.dequeue;
  latest_checkpoint ← attr checkpoint item;
  s ← get;
  r ← run_load_loop (S (length (queue s.1))) self [] latest_checkpoint item;
  if 0 <? Z.of_nat (length r.1) then
    in_world (commit_pointer self r.1 r.2)
  else mret tt.

End Worker.

(** ** The pointer update of the parallel loader *)

Definition blocking_update_pointer_table (config : GoldskyConfig)
  (job_id worker : string) (new_checkpoint : GoldskyCheckpoint)
  (wildcard_path : string) : M World unit :=
  let dest_table := destination_table_name config ++ "_" ++ worker in
  let job_table := dest_table ++ "_" ++ job_id in
  new ← try_except (BQ.get_table dest_table;; mret false) is_NotFound
          (mret true);
  if negb new then
    BQ.request (BQ.sql_load_data_overwrite job_table wildcard_path);;
    BQ.request
      (BQ.sql_insert_select dest_table job_table;;
       BQ.sql_delete_pointer worker;;
       BQ.sql_insert_pointer worker new_checkpoint);;
    BQ.request (BQ.sql_drop_table job_table)
  else
    BQ.request (BQ.sql_load_data_overwrite dest_table wildcard_path);;
    BQ.request (BQ.sql_insert_pointer worker new_checkpoint).

(** ** GoldskyAsset *)

Record GoldskyAsset : Type := mkGoldskyAsset {
  asset_config : GoldskyConfig;
  asset_job_id : string;
  pointer_table_suffix : string
}.

Module Asset.

Definition __init__ (config : GoldskyConfig) (job_id : string)
  (pointer_table_suffix : string) : GoldskyAsset :=
  {| asset_config := config; asset_job_id := job_id;
     pointer_table_suffix := pointer_table_suffix |}.

(** The property computes a local with the underscore put in front,
    and formats the name with the attribute. *)
Definition pointer_table_name (self : GoldskyAsset) : string :=
  let pointer_table_suffix_local := pointer_table_suffix self in
  let pointer_table_suffix_local :=
    if PyStr.ne pointer_table_suffix_local ""
       && negb (PyStr.startswith "_" pointer_table_suffix_local)
    then "_" ++ pointer_table_suffix_local
    else pointer_table_suffix_local in
  destination_table_name (asset_config self) ++ "_pointer_state"
  ++ pointer_table_suffix self.

Definition pointer_table (self : GoldskyAsset) : string :=
  project_id (asset_config self) ++ "."
  ++ working_destination_dataset_name (asset_config self) ++ "."
  ++ pointer_table_name self.

(** The prefix of [goldsky_re]. *)
Definition goldsky_re_prefix (self : GoldskyAsset) : string :=
  os_path_join (source_goldsky_dir (asset_config self))
    (source_name (asset_config self)).

Definition goldsky_re_match (self : GoldskyAsset) (blob_name : string)
  : option re_Match :=
  Re.match_ (goldsky_re_prefix self) blob_name.

Definition _uncached_blobs_loader (self : GoldskyAsset)
  : M World (list re_Match) :=
  w ← get;
  mret (omap (goldsky_re_match self) (blobs w)).

Definition get_worker_status (self : GoldskyAsset)
  : M World (PyDict.t GoldskyCheckpoint) :=
  try_except
    (rows ← BQ.select_pointer;
     mret (fold_left
             (λ worker_status row,
                PyDict.set worker_status (row_worker row)
                  (mkGoldskyCheckpoint (row_job_id row) (row_timestamp row)
                     (row_checkpoint row)))
             rows []))
    is_NotFound
    (mret []).

(** The checkpoint and the queue item that [load_queues] builds from a
    match. *)
Definition checkpoint_of_match (m : re_Match) : GoldskyCheckpoint :=
  mkGoldskyCheckpoint (group_job_id m) (int (group_timestamp m))
    (int (group_checkpoint m)).

Definition item_of_match (m : re_Match) : GoldskyQueueItem :=
  mkGoldskyQueueItem (checkpoint_of_match m) (group0 m) m.

(** Which matches the loop of [load_queues] lets through: the two
    [continue]s, negated. A range object is always truthy; a
    [worker_status] that is [None] or empty is not. *)
Definition queued (worker_status : option (PyDict.t GoldskyCheckpoint))
  (checkpoint_range : option GoldskyCheckpointRange) (m : re_Match) : bool :=
  let checkpoint := checkpoint_of_match m in
  (match checkpoint_range with
   | Some r => CheckpointRange.in_range r checkpoint
   | None => true
   end)
  && (match worker_status with
      | Some ws =>
          if PyDict.truthy ws then
            let worker_checkpoint :=
              default (mkGoldskyCheckpoint "" 0 0)
                (PyDict.get ws (group_worker m)) in
            negb (Checkpoint.__ge__ worker_checkpoint checkpoint)
          else true
      | None => true
      end).

Definition load_queues_body
  (worker_status : option (PyDict.t GoldskyCheckpoint))
  (checkpoint_range : option GoldskyCheckpointRange) (m : re_Match)
  : M GoldskyQueues unit :=
  if queued worker_status checkpoint_range m then
    Queues.enqueue (group_worker m) (Some (item_of_match m))
  else mret tt.

(** [load_queues]. After the loop the method reads
    [worker_status.keys()] for a log line, which [None] does not have.
    The timestamps it tracks go to the log only. *)
Definition load_queues (self : GoldskyAsset)
  (worker_status : option (PyDict.t GoldskyCheckpoint))
  (max_objects : option Z)
  (checkpoint_range : option GoldskyCheckpointRange)
  : M World GoldskyQueues :=
  let max_objects :=
    match max_objects with
    | Some n => if n =? 0 then max_objects_to_load (asset_config self) else n
    | None => max_objects_to_load (asset_config self)
    end in
  let queues := Queues.__init__ max_objects in
  blobs_to_process ← _uncached_blobs_loader self;
  match
    for_each blobs_to_process
      (load_queues_body worker_status checkpoint_range) queues
  with
  | Raise e _ => raise e
  | Ret _ queues =>
      match worker_status with
      | None => raise AttributeError
      | Some _ => mret queues
      end
  end.

Definition load_queues_to_process (self : GoldskyAsset)
  (checkpoint_range : option GoldskyCheckpointRange)
  : M World (PyDict.t GoldskyCheckpoint * GoldskyQueues) :=
  worker_status ← get_worker_status self;
  queues ← load_queues self (Some worker_status) None checkpoint_range;
  mret (worker_status, queues).

(** [load_schema]: the item comes from [peek], its blob is read from
    the bucket. *)
Definition load_schema (self : GoldskyAsset)
  : M (GoldskyQueues * World) (list SchemaField) :=
  item ← on_field fst (λ q s, (q, s.2)) Queues.peek;
  blob ← attr blob_name item;
  s ← get;
  lift (load_schema_fields
          (overrides_lookup_of (schema_overrides (asset_config self)))
          (blob_schema s.2 blob)).

(** One worker after the other, in the order of the queues. *)
Fixpoint process_workers (self : GoldskyAsset)
  (worker_status : PyDict.t GoldskyCheckpoint) (schema : list SchemaField)
  (l : list (string * GoldskyQueue)) : M World (list GoldskyWorker) :=
  match l with
  | [] => mret []
  | (worker_name, queue) :: rest =>
      let worker :=
        mkGoldskyWorker worker_name (asset_job_id self) (pointer_table self)
          (PyDict.get worker_status worker_name) (asset_config self)
          schema in
      on_field (λ w, (queue, w)) (λ s _, s.2)
        (Worker.run_load_bigquery_load worker);;
      workers ← process_workers self worker_status schema rest;
      mret (worker :: workers)
  end.

Definition direct_load_worker_tables (self : GoldskyAsset)
  (checkpoint_range : option GoldskyCheckpointRange)
  : M World (list GoldskyWorker) :=
  r ← load_queues_to_process self checkpoint_range;
  let '(worker_status, queues) := r in
  r ←
    (if 0 <? Z.of_nat (length (schema_overrides (asset_config self))) then
       on_field (λ w, (queues, w)) (λ s _, s.2)
         (schema ← load_schema self; s ← get; mret (schema, s.1))
     else mret ([], queues));
  let '(schema, queues) := r in
  process_workers self worker_status schema (Queues.worker_queues queues).

(** The minimum that [clean_up] computes, starting from worker "0".
    [checkpoint < end_checkpoint] reads [end_checkpoint.timestamp],
    which [None] does not have. *)
Fixpoint end_checkpoint_loop (items : list (string * GoldskyCheckpoint))
  (end_checkpoint : option GoldskyCheckpoint)
  : exn + option GoldskyCheckpoint :=
  match items with
  | [] => inr end_checkpoint
  | (_, checkpoint) :: rest =>
      match end_checkpoint with
      | None => inl AttributeError
      | Some e =>
          end_checkpoint_loop rest
            (if Checkpoint.__lt__ checkpoint e then Some checkpoint
             else Some e)
      end
  end.

Definition clean_up_end_checkpoint
  (worker_status : PyDict.t GoldskyCheckpoint)
  : exn + option GoldskyCheckpoint :=
  end_checkpoint_loop (PyDict.items worker_status)
    (PyDict.get worker_status "0").

(** [for i in range(n): item = queue.dequeue();
    blobs.append(item.blob_name)]. *)
Fixpoint clean_up_dequeue (n : nat) (blobs : list string)
  : M GoldskyQueue (list string) :=
  match n with
  | O => mret blobs
  | S n =>
      item ← Queue.dequeue;
      b ← attr blob_name item;
      clean_up_dequeue n (blobs ++ [b])%list
  end.

(** The body of the loop of [clean_up] over the queues: the blobs it
    would delete. The call that deletes them is commented out. *)
Definition clean_up_worker (self : GoldskyAsset)
  : M GoldskyQueue (list string) :=
  len ← Queue.len;
  let cleaning_count := len - retention_files (asset_config self) in
  blobs ← clean_up_dequeue (Z.to_nat cleaning_count) [];
  match last blobs with
  | Some last_blob => mret blobs
  | None => raise IndexError
  end.

Definition clean_up (self : GoldskyAsset) : M World unit :=
  worker_status ← get_worker_status self;
  end_checkpoint ← lift (clean_up_end_checkpoint worker_status);
  queues ← load_queues self None (Some 100000)
              (Some (CheckpointRange.__init__ None end_checkpoint));
  for_each (Queues.worker_queues queues)
    (λ wq, λ w,
       match clean_up_worker self wq.2 with
       | Ret _ _ => Ret tt w
       | Raise e _ => Raise e w
       end).

End Asset.

(** ** The backfill op *)

Definition goldsky_backfill_asset (asset_config : GoldskyConfig)
  (job_id backfill_label : string) : GoldskyAsset :=
  Asset.__init__ asset_config job_id backfill_label.

Definition goldsky_backfill_op (asset_config : GoldskyConfig)
  (job_id backfill_label : string)
  (start_checkpoint end_checkpoint : option GoldskyCheckpoint)
  : M World (list GoldskyWorker) :=
  Asset.direct_load_worker_tables
    (goldsky_backfill_asset asset_config job_id backfill_label)
    (Some (CheckpointRange.__init__ start_checkpoint end_checkpoint)).

(** The asset of a primary run. *)
Definition goldsky_primary_asset (asset_config : GoldskyConfig)
  (job_id : string) : GoldskyAsset :=
  Asset.__init__ asset_config job_id "".

(** ** More of GoldskyQueues and GoldskyAsset *)

(** [GoldskyQueues.empty_all]: every stored queue is emptied in
    place. *)
Definition empty_all : M GoldskyQueues unit :=
  qs ← get;
  for_each (PyDict.items (queues qs))
    (λ kv, Queues.on_stored kv.1 kv.2 Queue.empty).

(** An asset and the list of matches it caches in
    [cached_blobs_to_process], next to the world its clients reach. *)
Definition AssetState : Type := option (list re_Match) * World.

(** [GoldskyAsset._cached_blobs_loader]. *)
Definition _cached_blobs_loader (self : GoldskyAsset)
  : M AssetState (list re_Match) :=
  s ← get;
  match s.1 with
  | None =>
      r ← on_field snd (λ w s, (s.1, w)) (Asset._uncached_blobs_loader self);
      modify (λ s, (Some r, s.2));;
      mret r
  | Some cached => mret cached
  end.

(** [GoldskyAsset._uncached_blobs_loader] as a method of the asset:
    the bucket is listed, the cache is not touched. *)
Definition _uncached_blobs_loader_on (self : GoldskyAsset)
  : M AssetState (list re_Match) :=
  on_field snd (λ w s, (s.1, w)) (Asset._uncached_blobs_loader self).

(** [GoldskyAsset.load_queues] with its [blobs_loader] argument:
    [if not blobs_loader: blobs_loader = self._cached_blobs_loader].
    The loop and what follows it are those of [Asset.load_queues]. *)
Definition load_queues_with (self : GoldskyAsset)
  (worker_status : option (PyDict.t GoldskyCheckpoint))
  (max_objects : option Z)
  (blobs_loader : option (M AssetState (list re_Match)))
  (checkpoint_range : option GoldskyCheckpointRange)
  : M AssetState GoldskyQueues :=
  let max_objects :=
    match max_objects with
    | Some n => if n =? 0 then max_objects_to_load (asset_config self) else n
    | None => max_objects_to_load (asset_config self)
    end in
  let queues := Queues.__init__ max_objects in
  let blobs_loader :=
    match blobs_loader with
    | Some f => f
    | None => _cached_blobs_loader self
    end in
  blobs_to_process ← blobs_loader;
  match
    for_each blobs_to_process
      (Asset.load_queues_body worker_status checkpoint_range) queues
  with
  | Raise e _ => raise e
  | Ret _ queues =>
      match worker_status with
      | None => raise AttributeError
      | Some _ => mret queues
      end
  end.


(** * Part II: the vocabulary of the properties *)

(** ** Heaps

    The order that a heap is judged by is a boolean [ltb] on its
    elements; [le a b] says that [b < a] does not hold. *)

Module HeapOrder.
Section HeapOrder.
Context {A : Type} (ltb : A → A → bool).

Definition le (a b : A) : Prop := ltb b a = false.

Definition parent (i : nat) : nat := Nat.shiftr (i - 1) 1.

(** The heap invariant of [heapq]: [heap[(k-1)>>1] <= heap[k]]. *)
Definition heap_ordered (h : list A) : Prop :=
  ∀ i x p, (0 < i)%nat → h !! i = Some x → h !! parent i = Some p → le p x.

(** What the loop of [_siftdown] maintains while [newitem] is held
    out of the list and [pos] is the slot it would take. *)
Definition siftdown_inv (h : list A) (pos : nat) (x : A) : Prop :=
  (pos < length h)%nat
  ∧ (∀ i a p, (0 < i)%nat → i ≠ pos → h !! i = Some a →
              <[pos:=x]> h !! parent i = Some p → le p a)
  ∧ (∀ c a p, (0 < pos)%nat → (0 < c)%nat → parent c = pos →
              h !! c = Some a → h !! parent pos = Some p → le p a).

(** What the loop of [_siftup] maintains: only the edges into and out
    of the vacated slot [pos] are unconstrained. *)
Definition siftup_inv (h : list A) (pos : nat) : Prop :=
  (pos < length h)%nat
  ∧ (∀ i a p, (0 < i)%nat → i ≠ pos → parent i ≠ pos → h !! i = Some a →
              h !! parent i = Some p → le p a)
  ∧ (∀ c a p, (0 < pos)%nat → (0 < c)%nat → parent c = pos →
              h !! c = Some a → h !! parent pos = Some p → le p a).

End HeapOrder.
End HeapOrder.

(** ** Queues of items *)

(** [item_lt] on items, as a boolean; [None] is put below every item,
    which keeps the order total. A queue built from items holds no
    [None]. *)
Definition item_ltb (a b : item_ref) : bool :=
  match a, b with
  | Some x, Some y => Checkpoint.__lt__ (checkpoint x) (checkpoint y)
  | None, Some _ => true
  | _, None => false
  end.

(** [x <= y] on items: by checkpoint. *)
Definition item_le (x y : GoldskyQueueItem) : Prop :=
  Checkpoint.__le__ (checkpoint x) (checkpoint y) = true.

(** The list is a heap of items. *)
Definition item_heap (h : list item_ref) : Prop :=
  Forall is_Some h ∧ HeapOrder.heap_ordered item_ltb h.

(** A queue as [enqueue] and [dequeue] keep it. *)
Definition queue_wf (q : GoldskyQueue) : Prop :=
  item_heap (queue q) ∧ 0 ≤ _dequeues q.

(** The items a list of references points to. *)
Definition items_of (l : list item_ref) : list GoldskyQueueItem :=
  omap id l.

(** [n] calls of [dequeue] in a row, and what they returned. *)
Fixpoint dequeues (n : nat) : M GoldskyQueue (list item_ref) :=
  match n with
  | O => mret []
  | S n => x ← Queue.dequeue; xs ← dequeues n; mret (x :: xs)
  end.

(** A call of the queue's interface, and a sequence of calls; the
    sequence returns what its dequeues returned. *)
Inductive queue_op : Type :=
| Enqueue (item : GoldskyQueueItem)
| Dequeue.

Fixpoint run_ops (ops : list queue_op) : M GoldskyQueue (list item_ref) :=
  match ops with
  | [] => mret []
  | Enqueue item :: ops => Queue.enqueue (Some item);; run_ops ops
  | Dequeue :: ops => x ← Queue.dequeue; xs ← run_ops ops; mret (x :: xs)
  end.

(** The queues that a fresh queue becomes under calls of its
    interface. *)
Definition reachable (q : GoldskyQueue) : Prop :=
  ∃ max_size ops results,
    run_ops ops (Queue.__init__ max_size) = Ret results q.

(** ** The schema mapping *)



(** ** DISCOVER *)

(** The string holds digits only. *)
Fixpoint all_digits (s : string) : bool :=
  match s with
  | EmptyString => true
  | String c s' => Re.is_digit c && all_digits s'
  end.

(** The condition of the specification on a parsed item: its
    checkpoint is strictly greater than its worker's pointer
    checkpoint, when the worker has one. *)
Definition pointer_allows (worker_status : PyDict.t GoldskyCheckpoint)
  (m : re_Match) : bool :=
  match PyDict.get worker_status (group_worker m) with
  | Some pointer => Checkpoint.__gt__ (Asset.checkpoint_of_match m) pointer
  | None => true
  end.

(** Its checkpoint is in the range, when there is one. *)
Definition range_allows (checkpoint_range : option GoldskyCheckpointRange)
  (m : re_Match) : bool :=
  match checkpoint_range with
  | Some r => CheckpointRange.in_range r (Asset.checkpoint_of_match m)
  | None => true
  end.

(** The item that DISCOVER owes to [worker] for a listed blob name, if
    any. *)
Definition discovered (self : GoldskyAsset)
  (worker_status : PyDict.t GoldskyCheckpoint)
  (checkpoint_range : option GoldskyCheckpointRange) (worker : string)
  (blob : string) : option GoldskyQueueItem :=
  match Asset.goldsky_re_match self blob with
  | Some m =>
      if bool_decide (group_worker m = worker)
         && pointer_allows worker_status m
         && range_allows checkpoint_range m
      then Some (Asset.item_of_match m)
      else None
  | None => None
  end.

(** The heap of a worker's queue in a queue set, empty when the worker
    has no queue. *)
Definition queue_of (qs : GoldskyQueues) (worker : string) : list item_ref :=
  match PyDict.get (queues qs) worker with
  | Some q => queue q
  | None => []
  end.

(** The queues of a queue set that only [enqueue] has touched: each is
    a heap of items that is not empty, has the cap of the set, and has
    not been dequeued from. *)
Definition queues_fresh (qs : GoldskyQueues) : Prop :=
  ∀ k q, PyDict.get (queues qs) k = Some q →
         item_heap (queue q) ∧ queue q ≠ []
         ∧ max_size q = queues_max_size qs ∧ _dequeues q = 0.

(** ** Worlds *)

(** The data of the world: everything but the script of the
    service. *)
Definition same_data (w w' : World) : Prop :=
  pointer_rows w' = pointer_rows w ∧ tables w' = tables w
  ∧ blobs w' = blobs w.

(** A computation that leaves the data of the world as it is, whether
    it returns or raises. *)
Definition read_only {A} (m : M World A) : Prop :=
  ∀ w, same_data w (state_of (m w)).

(** What the loop still needs: a turn for the item in hand and one for
    each item in the heap. *)
Definition run_load_turns (item : item_ref) (s : WorkerState) : nat :=
  match item with
  | Some _ => S (length (queue s.1))
  | None => O
  end.

(** The checkpoint that a pointer row records. *)
Definition checkpoint_of_row (r : PointerRow) : GoldskyCheckpoint :=
  mkGoldskyCheckpoint (row_job_id r) (row_timestamp r) (row_checkpoint r).

(** ** Examples

    A bucket with three blobs of worker 0 and one of worker 1, all of
    one job, and a name that does not match; a pointer at checkpoint 2
    of worker 0. *)

Definition example_job : string := "aaaaaaaa-aaaa-aaaa-aaaa-aaaaaaaaaaaa".

Definition example_blob (worker checkpoint : string) : string :=
  "dir/src/100-" ++ example_job ++ "-" ++ worker ++ "-" ++ checkpoint
  ++ ".parquet".

Definition example_config : GoldskyConfig :=
  {| source_name := "src"; source_bucket_name := "bucket";
     source_goldsky_dir := "dir"; destination_table_name := "dest";
     project_id := "proj"; working_destination_dataset_name := "work";
     pointer_size := 2; max_objects_to_load := 10;
     schema_overrides := []; retention_files := 1 |}.

Definition example_asset : GoldskyAsset :=
  goldsky_primary_asset example_config "202401010000".

Definition example_world : World :=
  {| pointer_rows := [mkPointerRow "0" example_job 100 2];
     tables := [];
     responses := [];
     blobs := [example_blob "0" "1"; example_blob "0" "2";
               example_blob "0" "3"; "dir/src/notes.txt";
               example_blob "1" "7"];
     blob_schema := λ _, [] |}.

(** The pointer of [example_world], as [get_worker_status] reads it. *)
Definition example_status : PyDict.t GoldskyCheckpoint :=
  [("0", mkGoldskyCheckpoint example_job 100 2)].

(** The same bucket with the pointer of worker 0 at checkpoint 3:
    blobs 1 and 2 of worker 0 are below it, and one file is to be
    retained. *)
Definition cleanup_world : World :=
  {| pointer_rows := [mkPointerRow "0" example_job 100 3];
     tables := [];
     responses := [];
     blobs := blobs example_world;
     blob_schema := λ _, [] |}.

(** The example configuration with a cap of zero. *)
Definition zero_cap_config : GoldskyConfig :=
  {| source_name := "src"; source_bucket_name := "bucket";
     source_goldsky_dir := "dir"; destination_table_name := "dest";
     project_id := "proj"; working_destination_dataset_name := "work";
     pointer_size := 2; max_objects_to_load := 0;
     schema_overrides := []; retention_files := 1 |}.

Definition zero_cap_asset : GoldskyAsset :=
  goldsky_primary_asset zero_cap_config "202401010000".

(** A service that answers the next five requests with a server
    error. *)
Definition five_server_errors : list (option exn) :=
  replicate 5 (Some InternalServerError).

(** An item of the example job with worker checkpoint [n]. *)
Definition example_item (n : Z) : GoldskyQueueItem :=
  {| checkpoint := mkGoldskyCheckpoint example_job 100 n;
     blob_name := "blob";
     blob_match := mkMatch "blob" "100" example_job "0" "" |}.

(** The queue of cap 2 after enqueues of 5, 3 and 8. *)
Definition example_ops : list queue_op :=
  [Enqueue (example_item 5); Enqueue (example_item 3);
   Enqueue (example_item 8)].

Definition example_queue : GoldskyQueue :=
  state_of (run_ops example_ops (Queue.__init__ 2)).

(** Two workers; the first worker's queue holds 3, 5 and 8 under a cap
    of 2. In [capped_queues] two dequeues have used the cap up and 8 is
    still in the heap. *)
Definition example_queues : GoldskyQueues :=
  mkGoldskyQueues [("0", example_queue); ("1", Queue.__init__ 2)] 2.

Definition capped_queue : GoldskyQueue :=
  state_of (run_ops (example_ops ++ [Dequeue; Dequeue])%list
              (Queue.__init__ 2)).

Definition capped_queues : GoldskyQueues :=
  mkGoldskyQueues [("0", capped_queue); ("1", Queue.__init__ 2)] 2.

(** ** Blob names *)

Fixpoint all_hex (s : string) : bool :=
  match s with
  | EmptyString => true
  | String c s' => Re.is_hex c && all_hex s'
  end.

(** One digit or more, and nothing else. *)
Definition digits (s : string) : bool :=
  negb (PyStr.eq s "") && all_digits s.

(** [n] characters of [0-9a-f]. *)
Definition hex_group (n : nat) (s : string) : bool :=
  (String.length s =? n)%nat && all_hex s.

Definition uuid_of (a b c d e : string) : string :=
  a ++ "-" ++ b ++ "-" ++ c ++ "-" ++ d ++ "-" ++ e.

(** The five groups of a job id: 8, 4, 4, 4 and 12 characters. *)
Definition uuid_groups (a b c d e : string) : bool :=
  hex_group 8 a && hex_group 4 b && hex_group 4 c && hex_group 4 d
  && hex_group 12 e.

(** The name that the pattern is written for, with the character
    [dot] where the pattern has its unescaped [.]. *)
Definition goldsky_blob_name (prefix ts job worker cp : string)
  (dot : ascii) : string :=
  prefix ++ "/" ++ ts ++ "-" ++ job ++ "-" ++ worker ++ "-" ++ cp
  ++ String dot "parquet".

(** The string does not go on with a digit. *)
Definition no_digit_ahead (r : string) : Prop :=
  match r with
  | EmptyString => True
  | String c _ => Re.is_digit c = false
  end.

(** [(\d+).parquet] as the engine tries it: greedily first, then with
    the last digit given back. *)
Definition checkpoint_tail_match (r : string) : option (string * string) :=
  match Re.checkpoint_tail r with
  | Some x => Some x
  | None => Re.checkpoint_tail_backtrack r
  end.

(** ** The service *)

(** The service answers the next request: the script is over, or its
    next entry is no exception. *)
Definition answers (script : list (option exn)) : Prop :=
  match script with
  | Some _ :: _ => False
  | _ => True
  end.

(** The pointer table after a commit of [c] for [worker]. *)
Definition committed (worker : string) (c : GoldskyCheckpoint)
  (rows : list PointerRow) : list PointerRow :=
  (BQ.delete_worker worker rows ++ [BQ.pointer_row worker c])%list.

(** The tables after [uris] were loaded into [table]. *)
Definition loaded (table : string) (uris : list string)
  (tbls : PyDict.t (list string)) : PyDict.t (list string) :=
  PyDict.set tbls table (default [] (PyDict.get tbls table) ++ uris)%list.

(** The rows of a worker in the pointer table. *)
Definition rows_of (worker : string) (rows : list PointerRow)
  : list PointerRow :=
  filter (λ r, row_worker r = worker) rows.

(** ** Queues *)

(** The items that a sequence of calls enqueues. *)
Fixpoint enqueued (ops : list queue_op) : list GoldskyQueueItem :=
  match ops with
  | [] => []
  | Enqueue item :: ops => item :: enqueued ops
  | Dequeue :: ops => enqueued ops
  end.

(** ** The direct loader *)

(** The URI that the worker loads an item from. *)
Definition source_uri (self : GoldskyWorker) (i : GoldskyQueueItem)
  : string :=
  "gs://" ++ source_bucket_name (config self) ++ "/" ++ blob_name i.

(** What a worker may do to the world: it leaves the bucket, the rows
    of the other workers and the other tables alone, and only appends
    to its raw table. *)
Definition worker_frame (worker raw : string) (w w' : World) : Prop :=
  blobs w' = blobs w
  ∧ (∀ k, k ≠ worker →
          rows_of k (pointer_rows w') = rows_of k (pointer_rows w))
  ∧ (∀ t, t ≠ raw → PyDict.get (tables w') t = PyDict.get (tables w) t)
  ∧ ∃ more,
      default [] (PyDict.get (tables w') raw)
      = (default [] (PyDict.get (tables w) raw) ++ more)%list.


(** The computation takes every world to one that [R] relates it to,
    whether it returns or raises. *)
Definition preserves {A} (R : World → World → Prop) (m : M World A)
  : Prop :=
  ∀ w, R w (state_of (m w)).

(** ** A run of the direct loader *)

(** The worker that the run builds for a queue. *)
Definition worker_of (self : GoldskyAsset)
  (worker_status : PyDict.t GoldskyCheckpoint) (schema : list SchemaField)
  (worker_name : string) : GoldskyWorker :=
  mkGoldskyWorker worker_name (asset_job_id self) (Asset.pointer_table self)
    (PyDict.get worker_status worker_name) (asset_config self) schema.

Definition raw_table_of (self : GoldskyAsset) (worker : string) : string :=
  destination_table_name (asset_config self) ++ "_" ++ worker.

Definition blob_uri (self : GoldskyAsset) (i : GoldskyQueueItem) : string :=
  "gs://" ++ source_bucket_name (asset_config self) ++ "/" ++ blob_name i.

(** The items that DISCOVER owes to a worker over a bucket. *)
Definition found (self : GoldskyAsset)
  (worker_status : PyDict.t GoldskyCheckpoint)
  (checkpoint_range : option GoldskyCheckpointRange) (worker : string)
  (bucket : list string) : list GoldskyQueueItem :=
  omap (discovered self worker_status checkpoint_range worker) bucket.

(** What a worker under the cap [cap] does with the items [owed] to
    it: it loads [items], the least of them in the order of their
    checkpoints, up to [last_item], and leaves [left], which it does
    only when it has loaded [cap] items. *)
Definition share (cap : Z) (owed items left : list GoldskyQueueItem)
  (last_item : GoldskyQueueItem) : Prop :=
  items ++ left ≡ₚ owed
  ∧ StronglySorted item_le items
  ∧ last items = Some last_item
  ∧ Forall (item_le last_item) left
  ∧ (left = [] ∨ Z.of_nat (length items) = cap).

(** The status that [get_worker_status] builds from the rows of the
    pointer table. *)
Definition status_of (rows : list PointerRow)
  : PyDict.t GoldskyCheckpoint :=
  fold_left
    (λ worker_status row,
       PyDict.set worker_status (row_worker row)
         (mkGoldskyCheckpoint (row_job_id row) (row_timestamp row)
            (row_checkpoint row)))
    rows [].



(** The rows of a worker after a run of the worker: as before, or one
    row at the checkpoint of an item of [q]. *)
Definition pointer_at_item (worker : string) (q : list item_ref)
  (rows rows' : list PointerRow) : Prop :=
  rows_of worker rows' = rows_of worker rows
  ∨ ∃ i, Some i ∈ q
         ∧ rows_of worker rows' = [BQ.pointer_row worker (checkpoint i)].


(** What a call of the loop has in hand when it is over: the batch not
    yet committed, when it returns. *)
Definition pending {S} (o : outcome S (list string * GoldskyCheckpoint))
  : list string :=
  match o with
  | Ret r _ => r.1
  | Raise _ _ => []
  end.

(** The contents of a table, empty when there is no such table. *)
Definition table_contents (w : World) (table : string) : list string :=
  default [] (PyDict.get (tables w) table).

(** * Part III: properties *)

(** ** str comparison is a strict total order *)

Lemma str_compare_refl (a : string) : String.compare a a = Eq.
Proof.
  induction a as [|c a IH]; simpl; [reflexivity|].
  replace (Ascii.compare c c) with Eq; [exact IH|].
  symmetry. unfold Ascii.compare. apply N.compare_refl.
Qed.

Lemma str_compare_eq (a b : string) : String.compare a b = Eq ↔ a = b.
Proof.
  split; [apply String.compare_eq_iff|intros ->; apply str_compare_refl].
Qed.

Lemma ascii_compare_trans (a b c : ascii) :
  Ascii.compare a b = Lt → Ascii.compare b c = Lt → Ascii.compare a c = Lt.
Proof.
  unfold Ascii.compare. rewrite !N.compare_lt_iff. lia.
Qed.

Lemma str_compare_trans (a b c : string) :
  String.compare a b = Lt → String.compare b c = Lt →
  String.compare a c = Lt.
Proof.
  revert b c. induction a as [|x a IH]; intros [|y b] [|z c]; simpl;
    try congruence.
  destruct (Ascii.compare x y) eqn:Hxy; try discriminate.
  - apply Ascii.compare_eq_iff in Hxy as ->.
    destruct (Ascii.compare y z); try congruence. apply IH.
  - intros _. destruct (Ascii.compare y z) eqn:Hyz; try discriminate.
    + apply Ascii.compare_eq_iff in Hyz as <-. now rewrite Hxy.
    + now rewrite (ascii_compare_trans _ _ _ Hxy Hyz).
Qed.

Lemma str_lt_irrefl (a : string) : PyStr.lt a a = false.
Proof. unfold PyStr.lt, String.ltb. now rewrite str_compare_refl. Qed.

Lemma str_lt_trans (a b c : string) :
  PyStr.lt a b = true → PyStr.lt b c = true → PyStr.lt a c = true.
Proof.
  unfold PyStr.lt, String.ltb. intros Hab Hbc.
  destruct (String.compare a b) eqn:E1; try discriminate.
  destruct (String.compare b c) eqn:E2; try discriminate.
  now rewrite (str_compare_trans _ _ _ E1 E2).
Qed.

Lemma str_lt_asym (a b : string) :
  PyStr.lt a b = true → PyStr.lt b a = false.
Proof.
  unfold PyStr.lt, String.ltb. rewrite (String.compare_antisym b a).
  destruct (String.compare a b); simpl; congruence.
Qed.

Lemma str_lt_total (a b : string) :
  PyStr.lt a b = true ∨ a = b ∨ PyStr.lt b a = true.
Proof.
  unfold PyStr.lt, String.ltb. rewrite (String.compare_antisym b a).
  destruct (String.compare a b) eqn:E; simpl; auto.
  apply str_compare_eq in E. auto.
Qed.

Lemma str_ne_spec (a b : string) : PyStr.ne a b = true ↔ a ≠ b.
Proof.
  unfold PyStr.ne. destruct (String.eqb_spec a b); simpl; split; congruence.
Qed.

Lemma str_empty_lt (a : string) : a ≠ "" → PyStr.lt "" a = true.
Proof. destruct a; [congruence|reflexivity]. Qed.

(** ** The order on checkpoints *)

Lemma cp_eq_spec (a b : GoldskyCheckpoint) :
  Checkpoint.__eq__ a b = true ↔ a = b.
Proof.
  unfold Checkpoint.__eq__, PyStr.eq.
  destruct a as [j1 t1 w1], b as [j2 t2 w2]; simpl.
  rewrite !andb_true_iff, !Z.eqb_eq, String.eqb_eq.
  split; [intros [[-> ->] ->]; reflexivity|].
  intros [= -> -> ->]. auto.
Qed.

Lemma cp_eq_refl (a : GoldskyCheckpoint) : Checkpoint.__eq__ a a = true.
Proof. now apply cp_eq_spec. Qed.

Lemma cp_lt_spec (a b : GoldskyCheckpoint) :
  Checkpoint.__lt__ a b = true ↔
  Checkpoint.tuple_lex_lt (Checkpoint.key a) (Checkpoint.key b).
Proof.
  unfold Checkpoint.__lt__, Checkpoint.key, Checkpoint.tuple_lex_lt,
    PyStr.lt, PyStr.ne, String.ltb.
  destruct a as [j1 t1 w1], b as [j2 t2 w2]; simpl.
  destruct (Z.ltb_spec t1 t2) as [Ht|Ht]; [split; auto|].
  destruct (Z.eqb_spec t1 t2) as [->|Hne]; simpl.
  2: { split; [discriminate|]. intros [?|[? _]]; lia. }
  destruct (String.compare j1 j2) eqn:Hj.
  - apply str_compare_eq in Hj as ->. rewrite String.eqb_refl. simpl.
    rewrite Z.ltb_lt. split; [auto|].
    intros [?|[_ [?|[_ ?]]]]; [lia|discriminate|assumption].
  - split; auto.
  - destruct (String.eqb_spec j1 j2) as [->|Hjne]; simpl.
    + now rewrite str_compare_refl in Hj.
    + split; [discriminate|].
      intros [?|[_ [?|[? _]]]]; [lia|discriminate|contradiction].
Qed.

Lemma cp_lt_irrefl (a : GoldskyCheckpoint) : Checkpoint.__lt__ a a = false.
Proof.
  destruct (Checkpoint.__lt__ a a) eqn:E; [|reflexivity].
  apply cp_lt_spec in E. destruct a as [j t w]. simpl in E.
  rewrite str_compare_refl in E.
  destruct E as [?|[_ [?|[_ ?]]]]; try lia; discriminate.
Qed.

Lemma cp_lt_trans (a b c : GoldskyCheckpoint) :
  Checkpoint.__lt__ a b = true → Checkpoint.__lt__ b c = true →
  Checkpoint.__lt__ a c = true.
Proof.
  rewrite !cp_lt_spec.
  destruct a as [j1 t1 w1], b as [j2 t2 w2], c as [j3 t3 w3].
  simpl. intros [H1|[-> H1]] [H2|[-> H2]]; try (left; lia).
  right. split; [reflexivity|].
  destruct H1 as [H1|[-> H1]], H2 as [H2|[-> H2]]; auto.
  - left. eapply str_compare_trans; eassumption.
  - right. split; [reflexivity|lia].
Qed.

Lemma cp_lt_total (a b : GoldskyCheckpoint) :
  Checkpoint.__lt__ a b = true ∨ a = b ∨ Checkpoint.__lt__ b a = true.
Proof.
  rewrite !cp_lt_spec. destruct a as [j1 t1 w1], b as [j2 t2 w2]. simpl.
  destruct (Z.lt_trichotomy t1 t2) as [?|[->|?]]; [auto| |auto].
  destruct (str_lt_total j1 j2) as [H|[->|H]].
  - unfold PyStr.lt, String.ltb in H.
    destruct (String.compare j1 j2) eqn:E; try discriminate. auto.
  - destruct (Z.lt_trichotomy w1 w2) as [?|[->|?]]; auto 8.
  - unfold PyStr.lt, String.ltb in H.
    destruct (String.compare j2 j1) eqn:E; try discriminate. auto 8.
Qed.

Lemma cp_lt_asym (a b : GoldskyCheckpoint) :
  Checkpoint.__lt__ a b = true → Checkpoint.__lt__ b a = false.
Proof.
  intros Hab. destruct (Checkpoint.__lt__ b a) eqn:Hba; [|reflexivity].
  pose proof (cp_lt_trans _ _ _ Hab Hba) as H.
  now rewrite cp_lt_irrefl in H.
Qed.

Lemma cp_le_spec (a b : GoldskyCheckpoint) :
  Checkpoint.__le__ a b = true ↔ Checkpoint.__lt__ a b = true ∨ a = b.
Proof.
  unfold Checkpoint.__le__. destruct (Checkpoint.__eq__ a b) eqn:E.
  - apply cp_eq_spec in E. tauto.
  - split; [auto|]. intros [?|Heq]; [assumption|].
    apply cp_eq_spec in Heq. congruence.
Qed.

Lemma cp_gt_spec (a b : GoldskyCheckpoint) :
  Checkpoint.__gt__ a b = Checkpoint.__lt__ b a.
Proof.
  unfold Checkpoint.__gt__.
  destruct (Checkpoint.__eq__ a b) eqn:E; [|reflexivity].
  apply cp_eq_spec in E as ->. now rewrite cp_lt_irrefl.
Qed.

Lemma cp_ge_spec (a b : GoldskyCheckpoint) :
  Checkpoint.__ge__ a b = true ↔ Checkpoint.__lt__ b a = true ∨ a = b.
Proof.
  unfold Checkpoint.__ge__. rewrite cp_gt_spec.
  destruct (Checkpoint.__eq__ a b) eqn:E.
  - apply cp_eq_spec in E. tauto.
  - split; [auto|]. intros [?|Heq]; [assumption|].
    apply cp_eq_spec in Heq. congruence.
Qed.

(** [a >= b] is the negation of [a < b]. *)
Lemma cp_ge_not_lt (a b : GoldskyCheckpoint) :
  Checkpoint.__ge__ a b = negb (Checkpoint.__lt__ a b).
Proof.
  apply eq_true_iff_eq. rewrite cp_ge_spec, negb_true_iff. split.
  - intros [H| ->]; [now apply cp_lt_asym|apply cp_lt_irrefl].
  - intros H. destruct (cp_lt_total a b) as [?|[?|?]]; auto; congruence.
Qed.

Lemma cp_le_not_lt (a b : GoldskyCheckpoint) :
  Checkpoint.__le__ a b = negb (Checkpoint.__lt__ b a).
Proof.
  rewrite <- cp_ge_not_lt. apply eq_true_iff_eq.
  rewrite cp_le_spec, cp_ge_spec. split; intros [?| ->]; auto.
Qed.

Lemma cp_le_refl (a : GoldskyCheckpoint) : Checkpoint.__le__ a a = true.
Proof. apply cp_le_spec. by right. Qed.

Lemma cp_le_antisym (a b : GoldskyCheckpoint) :
  Checkpoint.__le__ a b = true → Checkpoint.__le__ b a = true → a = b.
Proof.
  rewrite !cp_le_spec. intros [Hab| ->] [Hba|Heq]; auto.
  apply cp_lt_asym in Hab. congruence.
Qed.

Lemma cp_le_trans (a b c : GoldskyCheckpoint) :
  Checkpoint.__le__ a b = true → Checkpoint.__le__ b c = true →
  Checkpoint.__le__ a c = true.
Proof.
  rewrite !cp_le_spec. intros [Hab| ->] [Hbc| ->]; auto.
  left. eapply cp_lt_trans; eassumption.
Qed.

Lemma cp_le_total (a b : GoldskyCheckpoint) :
  Checkpoint.__le__ a b = true ∨ Checkpoint.__le__ b a = true.
Proof.
  rewrite !cp_le_spec. destruct (cp_lt_total a b) as [?|[?|?]]; auto.
Qed.

(** C5. The comparison operators of [GoldskyCheckpoint] are the
    lexicographic order on [(timestamp, job_id, worker_checkpoint)]:
    [a < b] holds exactly when the key tuple of [a] is tuple-less than
    that of [b], [a <= b] exactly when [a < b] or [a == b], [==] is
    equality of the three fields, [>] and [>=] are [<] and [<=] with
    the operands exchanged, and [<=] is antisymmetric, transitive and
    total. *)
Theorem checkpoint_order_is_tuple_lex :
  (∀ a b, Checkpoint.__lt__ a b = true ↔
          Checkpoint.tuple_lex_lt (Checkpoint.key a) (Checkpoint.key b))
  ∧ (∀ a b, Checkpoint.__le__ a b = true ↔
            Checkpoint.__lt__ a b = true ∨ Checkpoint.__eq__ a b = true)
  ∧ (∀ a b, Checkpoint.__eq__ a b = true ↔ a = b)
  ∧ (∀ a b, Checkpoint.__gt__ a b = Checkpoint.__lt__ b a)
  ∧ (∀ a b, Checkpoint.__ge__ a b = Checkpoint.__le__ b a)
  ∧ (∀ a b, Checkpoint.__le__ a b = true → Checkpoint.__le__ b a = true →
            a = b)
  ∧ (∀ a b c, Checkpoint.__le__ a b = true → Checkpoint.__le__ b c = true →
              Checkpoint.__le__ a c = true)
  ∧ (∀ a b, Checkpoint.__le__ a b = true ∨ Checkpoint.__le__ b a = true).
Proof.
  split; [exact cp_lt_spec|].
  split; [intros a b; rewrite cp_le_spec, cp_eq_spec; tauto|].
  split; [exact cp_eq_spec|].
  split; [exact cp_gt_spec|].
  split; [intros a b; by rewrite cp_ge_not_lt, cp_le_not_lt|].
  split; [exact cp_le_antisym|].
  split; [exact cp_le_trans|exact cp_le_total].
Qed.

(** ** heapq on well-behaved elements

  [good] elements compare without raising, by a boolean [ltb] that is
  asymmetric and whose complement is transitive (a strict weak order,
  as [__lt__] on items is). *)

Module HeapqSpec.
Section HeapqSpec.
Context {A : Type} (lt : A → A → exn + bool).
Context (good : A → Prop) (ltb : A → A → bool).
Hypothesis lt_good : ∀ a b, good a → good b → lt a b = inr (ltb a b).
Hypothesis ltb_asym : ∀ a b, ltb a b = true → ltb b a = false.
Hypothesis ltb_negtrans :
  ∀ a b c, ltb b a = false → ltb c b = false → ltb c a = false.

Local Open Scope nat_scope.
Local Open Scope list_scope.

Local Abbreviation le := (HeapOrder.le ltb).
Local Abbreviation parent := HeapOrder.parent.
Local Abbreviation heap_ordered := (HeapOrder.heap_ordered ltb).
Local Abbreviation siftdown_inv := (HeapOrder.siftdown_inv ltb).
Local Abbreviation siftup_inv := (HeapOrder.siftup_inv ltb).

Lemma heap_parent_div (i : nat) : parent i = (i - 1) / 2.
Proof. unfold HeapOrder.parent. now rewrite Nat.shiftr_div_pow2. Qed.

Lemma heap_parent_lt (i : nat) : 0 < i → parent i < i.
Proof. rewrite heap_parent_div. intros. apply Nat.Div0.div_lt_upper_bound. lia. Qed.

Lemma heap_parent_child (i p : nat) :
  0 < i → parent i = p ↔ i = 2 * p + 1 ∨ i = 2 * p + 2.
Proof.
  rewrite heap_parent_div. intros Hi.
  pose proof (Nat.div_mod_eq (i - 1) 2) as Hd.
  pose proof (Nat.mod_upper_bound (i - 1) 2). lia.
Qed.

Lemma heap_le_refl (a : A) : le a a.
Proof.
  unfold HeapOrder.le. destruct (ltb a a) eqn:E; [|reflexivity].
  pose proof (ltb_asym _ _ E). congruence.
Qed.

Lemma heap_le_trans (a b c : A) : le a b → le b c → le a c.
Proof. unfold HeapOrder.le. intros Hab Hbc. eapply ltb_negtrans; eassumption. Qed.

Lemma heap_ltb_le (a b : A) : ltb a b = true → le a b.
Proof. apply ltb_asym. Qed.

(** *** One iteration of each loop *)

Lemma _siftdown_loop_unfold fuel newitem startpos pos (h : list A) :
  heapq._siftdown_loop lt (S fuel) newitem startpos pos h =
  if decide (startpos < pos) then
    match h !! parent pos with
    | None => Raise IndexError h
    | Some par =>
        match lt newitem par with
        | inl e => Raise e h
        | inr true =>
            if decide (pos < length h) then
              heapq._siftdown_loop lt fuel newitem startpos (parent pos)
                (<[pos:=par]> h)
            else Raise IndexError h
        | inr false => Ret pos h
        end
    end
  else Ret pos h.
Proof.
  cbn [heapq._siftdown_loop]. fold (parent pos).
  destruct (decide (startpos < pos)); [|reflexivity].
  cbv [mbind M_bind mret M_ret PyList.getitem PyList.setitem lift raise].
  destruct (h !! parent pos) as [par|]; [|reflexivity].
  destruct (lt newitem par) as [e|[|]]; try reflexivity.
  destruct (decide (pos < length h)); reflexivity.
Qed.

(** *** Multisets under assignment *)

Lemma insert_cons_perm (l : list A) (i : nat) (x z : A) :
  l !! i = Some z → z :: <[i:=x]> l ≡ₚ x :: l.
Proof.
  revert i. induction l as [|a l IH]; intros [|i] Hi; simplify_eq/=.
  - apply perm_swap.
  - rewrite perm_swap, (IH _ Hi). apply perm_swap.
Qed.

(** Moving [h[j]] to position [i] and writing [x] at [j] holds the
    same elements as writing [x] at [i]. *)
Lemma insert_move_perm (h : list A) (i j : nat) (x y : A) :
  i ≠ j → i < length h → h !! j = Some y →
  <[j:=x]> (<[i:=y]> h) ≡ₚ <[i:=x]> h.
Proof.
  intros Hij Hi Hj.
  destruct (lookup_lt_is_Some_2 h i Hi) as [z Hz].
  apply (Permutation_cons_inv (a := y)), (Permutation_cons_inv (a := z)).
  transitivity (x :: y :: h).
  - rewrite (insert_cons_perm (<[i:=y]> h) j x y)
      by (rewrite list_lookup_insert_ne; done).
    rewrite (perm_swap x z), (insert_cons_perm h i y z Hz). done.
  - rewrite (perm_swap y z (<[i:=x]> h)), (insert_cons_perm h i x z Hz).
    apply perm_swap.
Qed.

Lemma Forall_good_insert (h : list A) (i : nat) (x : A) :
  Forall good h → good x → Forall good (<[i:=x]> h).
Proof. intros. now apply Forall_insert. Qed.

Lemma Forall_good_lookup (h : list A) (i : nat) (x : A) :
  Forall good h → h !! i = Some x → good x.
Proof. intros Hh Hi. exact (proj1 (Forall_lookup _ _) Hh i x Hi). Qed.

(** *** [_siftdown] *)

Lemma siftdown_inv_done (h : list A) (pos : nat) (x : A) :
  siftdown_inv h pos x →
  (0 < pos → ∀ p, h !! parent pos = Some p → le p x) →
  heap_ordered (<[pos:=x]> h).
Proof.
  intros (Hlen & E1 & _) Hp i a p Hi Ha Hpar.
  destruct (decide (i = pos)) as [->|Hne].
  - rewrite list_lookup_insert_eq in Ha by done. simplify_eq.
    rewrite list_lookup_insert_ne in Hpar
      by (pose proof (heap_parent_lt pos Hi); lia).
    eauto.
  - rewrite list_lookup_insert_ne in Ha by done. eauto.
Qed.

Lemma siftdown_inv_step (h : list A) (pos : nat) (x par : A) :
  0 < pos → h !! parent pos = Some par → ltb x par = true →
  siftdown_inv h pos x →
  siftdown_inv (<[pos:=par]> h) (parent pos) x.
Proof.
  intros Hpos Hpar Hlt (Hlen & E1 & E2).
  pose proof (heap_parent_lt pos Hpos) as Hpp.
  split; [rewrite length_insert; lia|]. split.
  - intros i a p Hi Hne Ha Hp.
    destruct (decide (i = pos)) as [->|Hip].
    + rewrite list_lookup_insert_eq in Ha by done. simplify_eq.
      rewrite list_lookup_insert_eq in Hp by (rewrite length_insert; lia).
      simplify_eq. now apply heap_ltb_le.
    + rewrite list_lookup_insert_ne in Ha by done.
      destruct (decide (parent i = parent pos)) as [Heq|Hnp].
      * rewrite Heq, list_lookup_insert_eq in Hp
          by (rewrite length_insert; lia).
        simplify_eq. apply (heap_le_trans _ par); [now apply heap_ltb_le|].
        apply (E1 i a par Hi Hip Ha).
        rewrite Heq, list_lookup_insert_ne by lia. done.
      * rewrite list_lookup_insert_ne in Hp by done.
        destruct (decide (parent i = pos)) as [Hc|Hnc].
        -- rewrite Hc, list_lookup_insert_eq in Hp by done. simplify_eq.
           eapply E2; eauto.
        -- rewrite list_lookup_insert_ne in Hp by done.
           apply (E1 i a p Hi Hip Ha).
           rewrite list_lookup_insert_ne by done. done.
  - intros c a p Hpp0 Hc Hcp Ha Hp.
    pose proof (heap_parent_lt _ Hpp0) as Hppp.
    rewrite list_lookup_insert_ne in Hp by lia.
    assert (Hpar_le : le p par).
    { apply (E1 (parent pos) par p Hpp0); [lia|done|].
      rewrite list_lookup_insert_ne by lia. done. }
    destruct (decide (c = pos)) as [->|Hne].
    + rewrite list_lookup_insert_eq in Ha by done. now simplify_eq.
    + rewrite list_lookup_insert_ne in Ha by done.
      apply (heap_le_trans _ par); [done|].
      apply (E1 c a par Hc Hne Ha).
      rewrite Hcp, list_lookup_insert_ne by lia. done.
Qed.

Lemma _siftdown_loop_ok (fuel : nat) :
  ∀ (h : list A) (pos : nat) (x : A),
    pos ≤ fuel → Forall good h → good x → siftdown_inv h pos x →
    ∃ h' pos',
      heapq._siftdown_loop lt fuel x 0 pos h = Ret pos' h'
      ∧ pos' < length h' ∧ Forall good h'
      ∧ heap_ordered (<[pos':=x]> h')
      ∧ <[pos':=x]> h' ≡ₚ <[pos:=x]> h.
Proof.
  induction fuel as [|fuel IH]; intros h pos x Hfuel Hgood Hx Hinv.
  - assert (pos = 0) as -> by lia. exists h, 0. simpl.
    split; [done|]. split; [apply Hinv|]. split; [done|]. split; [|done].
    apply siftdown_inv_done; [done|lia].
  - rewrite _siftdown_loop_unfold.
    destruct (decide (0 < pos)) as [Hpos|Hpos].
    2: { assert (pos = 0) as -> by lia. exists h, 0.
         split; [done|]. split; [apply Hinv|]. split; [done|].
         split; [|done]. apply siftdown_inv_done; [done|lia]. }
    pose proof (heap_parent_lt pos Hpos) as Hpp.
    pose proof Hinv as (Hlen & E1 & E2).
    destruct (lookup_lt_is_Some_2 h (parent pos)) as [par Hpar]; [lia|].
    rewrite Hpar.
    rewrite (lt_good x par Hx (Forall_good_lookup _ _ _ Hgood Hpar)).
    destruct (ltb x par) eqn:Hlt.
    + rewrite decide_True by done.
      destruct (IH (<[pos:=par]> h) (parent pos) x)
        as (h' & pos' & Hrun & Hl & Hg & Ho & Hperm).
      * lia.
      * apply Forall_good_insert; [done|].
        eapply Forall_good_lookup; eauto.
      * done.
      * apply siftdown_inv_step; done.
      * exists h', pos'. split; [exact Hrun|]. split; [done|].
        split; [done|]. split; [done|].
        rewrite Hperm. apply insert_move_perm; [lia|done|done].
    + exists h, pos. split; [done|]. split; [done|]. split; [done|].
      split; [|done].
      apply siftdown_inv_done; [done|].
      intros _ p Hp. now simplify_eq.
Qed.

Lemma _siftdown_ok (h : list A) (pos : nat) (x : A) :
  Forall good h → h !! pos = Some x → siftdown_inv h pos x →
  ∃ h', heapq._siftdown lt 0 pos h = Ret () h'
        ∧ Forall good h' ∧ heap_ordered h' ∧ h' ≡ₚ h.
Proof.
  intros Hgood Hx Hinv.
  destruct (_siftdown_loop_ok pos h pos x)
    as (h' & pos' & Hrun & Hl & Hg & Ho & Hperm);
    [done|done|by apply (Forall_good_lookup h pos)|done|].
  exists (<[pos':=x]> h').
  unfold heapq._siftdown.
  cbv [mbind M_bind mret M_ret PyList.getitem PyList.setitem].
  rewrite Hx, Hrun, decide_True by done.
  split; [done|]. split.
  { apply Forall_good_insert; [done|]. by apply (Forall_good_lookup h pos). }
  split; [done|]. by rewrite Hperm, list_insert_id.
Qed.

(** *** [heappush] *)

Lemma heappush_ok (h : list A) (x : A) :
  Forall good h → good x → heap_ordered h →
  ∃ h', heapq.heappush lt x h = Ret () h'
        ∧ Forall good h' ∧ heap_ordered h' ∧ h' ≡ₚ x :: h.
Proof.
  intros Hgood Hx Ho.
  destruct (_siftdown_ok (h ++ [x]) (length h) x)
    as (h' & Hrun & Hg & Ho' & Hperm).
  - apply Forall_app. split; [done|]. by apply Forall_singleton.
  - by rewrite lookup_app_r, Nat.sub_diag.
  - assert (Hid : <[length h:=x]> (h ++ [x]) = h ++ [x]).
    { apply list_insert_id. by rewrite lookup_app_r, Nat.sub_diag. }
    split; [rewrite length_app; simpl; lia|]. split.
    + intros i a p Hi Hne Ha Hp. rewrite Hid in Hp.
      pose proof (lookup_lt_Some _ _ _ Ha) as Hlt.
      rewrite length_app in Hlt. simpl in Hlt.
      pose proof (heap_parent_lt i Hi).
      rewrite lookup_app_l in Ha, Hp by lia. eauto.
    + intros c a p _ Hc Hcp Ha _.
      pose proof (lookup_lt_Some _ _ _ Ha) as Hlt.
      rewrite length_app in Hlt. simpl in Hlt.
      pose proof (heap_parent_lt c Hc). lia.
  - exists h'. unfold heapq.heappush.
    cbv [mbind M_bind mret M_ret PyList.append PyList.len].
    rewrite length_app. simpl length.
    replace (length h + 1 - 1) with (length h) by lia.
    rewrite Hrun. split; [done|]. split; [done|]. split; [done|].
    rewrite Hperm. symmetry. apply Permutation_cons_append.
Qed.

(** *** [_siftup] *)

Lemma siftup_inv_step (h : list A) (pos c : nat) (v : A) :
  siftup_inv h pos → 0 < c → parent c = pos → h !! c = Some v →
  (∀ i a, 0 < i → parent i = pos → h !! i = Some a → le v a) →
  siftup_inv (<[pos:=v]> h) c.
Proof.
  intros (Hlen & J1 & J2) Hc Hcp Hv Hmin.
  pose proof (heap_parent_lt c Hc) as Hpc.
  pose proof (lookup_lt_Some _ _ _ Hv) as Hclen.
  split; [by rewrite length_insert|]. split.
  - intros i a p Hi Hic Hpic Ha Hp.
    destruct (decide (i = pos)) as [->|Hip].
    + rewrite list_lookup_insert_eq in Ha by done. simplify_eq.
      pose proof (heap_parent_lt _ Hi).
      rewrite list_lookup_insert_ne in Hp by lia. eauto.
    + rewrite list_lookup_insert_ne in Ha by done.
      destruct (decide (parent i = pos)) as [Hpi|Hpi].
      * rewrite Hpi, list_lookup_insert_eq in Hp by done. simplify_eq.
        eauto.
      * rewrite list_lookup_insert_ne in Hp by done. eauto.
  - intros d a p _ Hd Hdc Ha Hp.
    pose proof (heap_parent_lt d Hd).
    rewrite list_lookup_insert_ne in Ha by lia.
    rewrite Hcp, list_lookup_insert_eq in Hp by done.
    assert (p = v) as -> by congruence.
    apply (J1 d a v Hd); [lia|lia|done|by rewrite Hdc].
Qed.

Lemma siftup_inv_done (h : list A) (pos : nat) (x : A) :
  siftup_inv h pos → length h ≤ 2 * pos + 1 →
  siftdown_inv (<[pos:=x]> h) pos x.
Proof.
  intros (Hlen & J1 & _) Hleaf.
  split; [by rewrite length_insert|]. split.
  - intros i a p Hi Hne Ha Hp.
    rewrite list_insert_insert_eq in Hp.
    rewrite list_lookup_insert_ne in Ha by done.
    pose proof (lookup_lt_Some _ _ _ Ha).
    assert (parent i ≠ pos).
    { intros Hpi. apply (heap_parent_child i pos Hi) in Hpi. lia. }
    rewrite list_lookup_insert_ne in Hp by done. eauto.
  - intros c a p _ Hc Hcp Ha _.
    pose proof (lookup_lt_Some _ _ _ Ha) as Hl.
    rewrite length_insert in Hl.
    apply (heap_parent_child c pos Hc) in Hcp. lia.
Qed.

Lemma _siftup_loop_ok (fuel : nat) :
  ∀ (h : list A) (pos : nat) (x : A),
    length h - pos ≤ fuel → Forall good h → good x → siftup_inv h pos →
    ∃ h' pos',
      heapq._siftup_loop lt fuel (length h) pos h = Ret pos' h'
      ∧ Forall good h'
      ∧ siftdown_inv (<[pos':=x]> h') pos' x
      ∧ <[pos':=x]> h' ≡ₚ <[pos:=x]> h.
Proof.
  induction fuel as [|fuel IH]; intros h pos x Hfuel Hgood Hx Hinv.
  { exists h, pos. split; [done|]. split; [done|]. split; [|done].
    apply siftup_inv_done; [done|lia]. }
  cbn [heapq._siftup_loop].
  destruct (decide (2 * pos + 1 < length h)) as [Hc1|Hc1].
  2: { exists h, pos. split; [done|]. split; [done|]. split; [|done].
       apply siftup_inv_done; [done|lia]. }
  pose proof Hinv as (Hlen & J1 & J2).
  destruct (lookup_lt_is_Some_2 h (2 * pos + 1) Hc1) as [l Hl].
  assert (Hstep : ∀ c v,
    0 < c → parent c = pos → h !! c = Some v →
    (∀ i a, 0 < i → parent i = pos → h !! i = Some a → le v a) →
    ∃ h' pos',
      heapq._siftup_loop lt fuel (length h) c (<[pos:=v]> h) = Ret pos' h'
      ∧ Forall good h'
      ∧ siftdown_inv (<[pos':=x]> h') pos' x
      ∧ <[pos':=x]> h' ≡ₚ <[pos:=x]> h).
  { intros c v Hc Hcp Hv Hmin.
    pose proof (heap_parent_lt c Hc).
    destruct (IH (<[pos:=v]> h) c x)
      as (h' & pos' & Hrun & Hg & Hi & Hperm).
    - rewrite length_insert. lia.
    - apply Forall_good_insert; [done|]. by eapply Forall_good_lookup.
    - done.
    - by apply siftup_inv_step.
    - rewrite length_insert in Hrun.
      exists h', pos'. split; [done|]. split; [done|]. split; [done|].
      rewrite Hperm. apply insert_move_perm; [lia|done|done]. }
  cbv [mbind M_bind mret M_ret PyList.getitem PyList.setitem lift raise].
  destruct (decide (2 * pos + 1 + 1 < length h)) as [Hc2|Hc2].
  - destruct (lookup_lt_is_Some_2 h (2 * pos + 1 + 1) Hc2) as [r Hr].
    rewrite Hl, Hr.
    rewrite (lt_good l r) by (eapply Forall_good_lookup; eauto).
    destruct (ltb l r) eqn:Hlr.
    + rewrite Hl, decide_True by done.
      apply Hstep; [lia|apply heap_parent_child; lia|done|].
      intros i a Hi Hpi Ha. apply (heap_parent_child i pos Hi) in Hpi as [->| ->].
      * simplify_eq. apply heap_le_refl.
      * replace (2 * pos + 2) with (2 * pos + 1 + 1) in Ha by lia.
        simplify_eq. by apply heap_ltb_le.
    + rewrite Hr, decide_True by done.
      apply Hstep; [lia|apply heap_parent_child; lia|done|].
      intros i a Hi Hpi Ha. apply (heap_parent_child i pos Hi) in Hpi as [->| ->].
      * simplify_eq. exact Hlr.
      * replace (2 * pos + 2) with (2 * pos + 1 + 1) in Ha by lia.
        simplify_eq. apply heap_le_refl.
  - rewrite Hl, decide_True by done.
    apply Hstep; [lia|apply heap_parent_child; lia|done|].
    intros i a Hi Hpi Ha. apply (heap_parent_child i pos Hi) in Hpi as [->| ->].
    + simplify_eq. apply heap_le_refl.
    + apply lookup_lt_Some in Ha. lia.
Qed.

Lemma _siftup_ok (h : list A) (x : A) :
  Forall good h → h !! 0 = Some x → siftup_inv h 0 →
  ∃ h', heapq._siftup lt 0 h = Ret () h'
        ∧ Forall good h' ∧ heap_ordered h' ∧ h' ≡ₚ h.
Proof.
  intros Hgood Hx Hinv.
  pose proof (Forall_good_lookup _ _ _ Hgood Hx) as Hgx.
  destruct (_siftup_loop_ok (length h) h 0 x)
    as (h1 & pos1 & Hrun & Hg1 & Hi1 & Hperm1); [lia|done|done|done|].
  destruct (_siftdown_ok (<[pos1:=x]> h1) pos1 x)
    as (h2 & Hrun2 & Hg2 & Ho2 & Hperm2).
  - by apply Forall_good_insert.
  - apply list_lookup_insert_eq. destruct Hi1 as [Hl _].
    by rewrite length_insert in Hl.
  - done.
  - exists h2. unfold heapq._siftup.
    cbv [mbind M_bind mret M_ret PyList.getitem PyList.setitem PyList.len].
    rewrite Hx, Hrun.
    destruct Hi1 as [Hl _]. rewrite length_insert in Hl.
    rewrite decide_True by done. rewrite Hrun2.
    split; [done|]. split; [done|]. split; [done|].
    by rewrite Hperm2, Hperm1, list_insert_id.
Qed.

(** *** [heappop] *)

(** The root of a heap is a least element. *)
Lemma heap_ordered_root (h : list A) (r : A) :
  heap_ordered h → h !! 0 = Some r → ∀ i x, h !! i = Some x → le r x.
Proof.
  intros Ho Hr i. induction i as [i IH] using lt_wf_ind. intros x Hx.
  destruct (decide (i = 0)) as [->|Hi].
  - simplify_eq. apply heap_le_refl.
  - assert (0 < i) as Hpos by lia. pose proof (heap_parent_lt i Hpos) as Hp.
    destruct (lookup_lt_is_Some_2 h (parent i)) as [p Hpar].
    { apply lookup_lt_Some in Hx. lia. }
    apply (heap_le_trans _ p); [by apply (IH (parent i))|].
    by apply (Ho i).
Qed.

Lemma heappop_nil : heapq.heappop lt [] = Raise IndexError [].
Proof. reflexivity. Qed.

Lemma heappop_ok (h : list A) :
  Forall good h → heap_ordered h → h ≠ [] →
  ∃ x h', heapq.heappop lt h = Ret x h'
          ∧ good x ∧ Forall good h' ∧ heap_ordered h'
          ∧ h ≡ₚ x :: h' ∧ Forall (le x) h'.
Proof.
  intros Hgood Ho Hne.
  destruct (proj2 (last_is_Some h) Hne) as [lastelt Hlast].
  apply last_Some in Hlast as [t ->].
  unfold heapq.heappop.
  cbv [mbind M_bind mret M_ret PyList.pop PyList.len].
  rewrite last_snoc, removelast_last.
  apply Forall_app in Hgood as [Hgt Hgl].
  apply Forall_inv in Hgl.
  destruct (decide (0 < length t)) as [Hlen|Hlen].
  2: { destruct t; [|simpl in Hlen; lia].
       exists lastelt, []. split; [done|]. split; [done|].
       split; [constructor|]. split; [by intros i x p _ Hx|].
       split; [done|constructor]. }
  cbv [mbind M_bind mret M_ret PyList.getitem PyList.setitem].
  destruct (lookup_lt_is_Some_2 t 0 Hlen) as [r Hr].
  rewrite Hr, decide_True by done.
  destruct (_siftup_ok (<[0:=lastelt]> t) lastelt)
    as (h' & Hrun & Hg' & Ho' & Hperm).
  - by apply Forall_good_insert.
  - by apply list_lookup_insert_eq.
  - split; [by rewrite length_insert|]. split.
    + intros i a p Hi Hi0 Hpi Ha Hp.
      rewrite list_lookup_insert_ne in Ha, Hp by done.
      apply (Ho i a p Hi); by apply lookup_app_l_Some.
    + intros c a p Hc. lia.
  - rewrite Hrun. exists r, h'. split; [done|].
    assert (Hall : r :: h' ≡ₚ t ++ [lastelt]).
    { rewrite Hperm, (insert_cons_perm t 0 lastelt r Hr).
      apply Permutation_cons_append. }
    split; [by apply (Forall_good_lookup t 0)|]. split; [done|].
    split; [done|]. split; [done|].
    assert (Forall (le r) (r :: h')) as Hle; [|by inversion Hle].
    rewrite Hall. apply Forall_lookup. intros i x Hx.
    apply (heap_ordered_root (t ++ [lastelt]) r Ho) with i; [|done].
    by apply lookup_app_l_Some.
Qed.

(** *** The fuel is never exhausted *)

Lemma _siftdown_loop_fuel (f1 : nat) :
  ∀ (f2 : nat) newitem startpos pos (h : list A),
    pos ≤ f1 → pos ≤ f2 →
    heapq._siftdown_loop lt f1 newitem startpos pos h =
    heapq._siftdown_loop lt f2 newitem startpos pos h.
Proof.
  induction f1 as [|f1 IH]; intros [|f2] newitem startpos pos h H1 H2;
    rewrite ?_siftdown_loop_unfold; try reflexivity.
  - assert (pos = 0) as -> by lia. by rewrite decide_False by lia.
  - assert (pos = 0) as -> by lia. by rewrite decide_False by lia.
  - destruct (decide (startpos < pos)) as [Hpos|]; [|reflexivity].
    destruct (h !! parent pos) as [par|]; [|reflexivity].
    destruct (lt newitem par) as [e|[|]]; try reflexivity.
    destruct (decide (pos < length h)); [|reflexivity].
    assert (parent pos < pos) by (apply heap_parent_lt; lia).
    apply IH; lia.
Qed.

Lemma _siftup_loop_fuel (f1 : nat) :
  ∀ (f2 : nat) endpos pos (h : list A),
    endpos - pos ≤ f1 → endpos - pos ≤ f2 →
    heapq._siftup_loop lt f1 endpos pos h =
    heapq._siftup_loop lt f2 endpos pos h.
Proof.
  induction f1 as [|f1 IH]; intros [|f2] endpos pos h H1 H2;
    cbn [heapq._siftup_loop]; try reflexivity.
  - by rewrite decide_False by lia.
  - by rewrite decide_False by lia.
  - destruct (decide (2 * pos + 1 < endpos)); [|reflexivity].
    cbv [mbind M_bind mret M_ret PyList.getitem PyList.setitem lift raise].
    assert (Hrec : ∀ c h', 2 * pos + 1 ≤ c →
      heapq._siftup_loop lt f1 endpos c h' =
      heapq._siftup_loop lt f2 endpos c h') by (intros; apply IH; lia).
    destruct (decide (2 * pos + 1 + 1 < endpos)).
    + destruct (h !! (2 * pos + 1)) as [a|] eqn:Ha; [|reflexivity].
      destruct (h !! (2 * pos + 1 + 1)) as [b|] eqn:Hb; [|reflexivity].
      destruct (lt a b) as [e|[|]]; [reflexivity| |]; rewrite ?Ha, ?Hb;
        (destruct (decide (pos < length h)); [|reflexivity]);
        apply Hrec; lia.
    + destruct (h !! (2 * pos + 1)) as [a|]; [|reflexivity].
      destruct (decide (pos < length h)); [|reflexivity]. apply Hrec; lia.
Qed.

(** *** Lengths, whatever the elements *)

Lemma _siftdown_loop_length (fuel : nat) :
  ∀ newitem startpos pos (h h' : list A) pos',
    heapq._siftdown_loop lt fuel newitem startpos pos h = Ret pos' h' →
    length h' = length h.
Proof.
  induction fuel as [|fuel IH]; intros newitem startpos pos h h' pos'.
  { intros [= _ <-]. done. }
  rewrite _siftdown_loop_unfold.
  destruct (decide (startpos < pos)); [|by intros [= _ <-]].
  destruct (h !! parent pos) as [par|]; [|done].
  destruct (lt newitem par) as [e|[|]]; [done| |by intros [= _ <-]].
  destruct (decide (pos < length h)); [|done].
  intros Hrun. apply IH in Hrun. by rewrite length_insert in Hrun.
Qed.

Lemma _siftdown_length startpos pos (h h' : list A) :
  heapq._siftdown lt startpos pos h = Ret () h' → length h' = length h.
Proof.
  unfold heapq._siftdown.
  cbv [mbind M_bind mret M_ret PyList.getitem PyList.setitem].
  destruct (h !! pos) as [x|]; [|done].
  destruct (heapq._siftdown_loop lt pos x startpos pos h) as [pos' h1|]
    eqn:Hrun; [|done].
  apply _siftdown_loop_length in Hrun.
  destruct (decide (pos' < length h1)); [|done].
  intros [= <-]. by rewrite length_insert.
Qed.

Lemma _siftup_loop_length (fuel : nat) :
  ∀ endpos pos (h h' : list A) pos',
    heapq._siftup_loop lt fuel endpos pos h = Ret pos' h' →
    length h' = length h.
Proof.
  induction fuel as [|fuel IH]; intros endpos pos h h' pos'.
  { intros [= _ <-]. done. }
  cbn [heapq._siftup_loop].
  destruct (decide (2 * pos + 1 < endpos)); [|by intros [= _ <-]].
  cbv [mbind M_bind mret M_ret PyList.getitem PyList.setitem lift raise].
  assert (Hrec : ∀ c v,
    heapq._siftup_loop lt fuel endpos c (<[pos:=v]> h) = Ret pos' h' →
    length h' = length h).
  { intros c v Hrun. apply IH in Hrun. by rewrite length_insert in Hrun. }
  destruct (decide (2 * pos + 1 + 1 < endpos)).
  - destruct (h !! (2 * pos + 1)) as [a|] eqn:Ha; [|done].
    destruct (h !! (2 * pos + 1 + 1)) as [b|] eqn:Hb; [|done].
    destruct (lt a b) as [e|[|]]; [done| |]; rewrite ?Ha, ?Hb;
      (destruct (decide (pos < length h)); [|done]); apply Hrec.
  - destruct (h !! (2 * pos + 1)) as [a|]; [|done].
    destruct (decide (pos < length h)); [|done]. apply Hrec.
Qed.

Lemma _siftup_length pos (h h' : list A) :
  heapq._siftup lt pos h = Ret () h' → length h' = length h.
Proof.
  unfold heapq._siftup.
  cbv [mbind M_bind mret M_ret PyList.getitem PyList.setitem PyList.len].
  destruct (h !! pos) as [x|]; [|done].
  destruct (heapq._siftup_loop lt (length h) (length h) pos h)
    as [pos1 h1|] eqn:Hrun; [|done].
  apply _siftup_loop_length in Hrun.
  destruct (decide (pos1 < length h1)); [|done].
  intros Hsd. apply _siftdown_length in Hsd.
  by rewrite Hsd, length_insert.
Qed.

Lemma heappop_length (h h' : list A) (x : A) :
  heapq.heappop lt h = Ret x h' → S (length h') = length h.
Proof.
  unfold heapq.heappop.
  cbv [mbind M_bind mret M_ret PyList.pop PyList.len].
  destruct (last h) as [lastelt|] eqn:Hlast; [|done].
  apply last_Some in Hlast as [t ->].
  rewrite removelast_last, length_app. simpl length.
  destruct (decide (0 < length t)).
  2: { intros [= _ <-]. lia. }
  cbv [mbind M_bind mret M_ret PyList.getitem PyList.setitem].
  destruct (t !! 0) as [r|]; [|done].
  rewrite decide_True by done.
  destruct (heapq._siftup lt 0 (<[0:=lastelt]> t)) as [[] h1|] eqn:Hrun;
    [|done].
  apply _siftup_length in Hrun. rewrite length_insert in Hrun.
  intros [= _ <-]. lia.
Qed.

End HeapqSpec.
End HeapqSpec.

(** ** Queues of items *)

Lemma item_lt_good (a b : item_ref) :
  is_Some a → is_Some b → item_lt a b = inr (item_ltb a b).
Proof. by intros [x ->] [y ->]. Qed.

Lemma item_ltb_asym (a b : item_ref) :
  item_ltb a b = true → item_ltb b a = false.
Proof. destruct a, b; simpl; try done. apply cp_lt_asym. Qed.

Lemma item_ltb_negtrans (a b c : item_ref) :
  item_ltb b a = false → item_ltb c b = false → item_ltb c a = false.
Proof.
  destruct a as [x|], b as [y|], c as [z|]; simpl; try done.
  intros Hyx Hzy.
  destruct (Checkpoint.__lt__ (checkpoint z) (checkpoint x)) eqn:Hzx; [|done].
  destruct (cp_lt_total (checkpoint y) (checkpoint z)) as [H|[H|H]].
  - pose proof (cp_lt_trans _ _ _ H Hzx). congruence.
  - rewrite H in Hyx. congruence.
  - congruence.
Qed.

Lemma item_le_heap_le (x y : GoldskyQueueItem) :
  HeapOrder.le item_ltb (Some x) (Some y) ↔ item_le x y.
Proof.
  unfold HeapOrder.le, item_le. simpl. rewrite cp_le_not_lt.
  by destruct (Checkpoint.__lt__ (checkpoint y) (checkpoint x)).
Qed.

Lemma item_le_trans (x y z : GoldskyQueueItem) :
  item_le x y → item_le y z → item_le x z.
Proof.
  rewrite <- !item_le_heap_le.
  apply HeapqSpec.heap_le_trans, item_ltb_negtrans.
Qed.

Lemma items_of_Some (l : list item_ref) :
  Forall is_Some l → l = Some <$> items_of l.
Proof.
  induction 1 as [|x l [i ->] _ IH]; [done|].
  unfold items_of in *. cbn. by f_equal.
Qed.

Lemma items_of_perm (l k : list item_ref) :
  l ≡ₚ k → items_of l ≡ₚ items_of k.
Proof. unfold items_of. by intros ->. Qed.

Lemma item_heap_nil : item_heap [].
Proof. split; [constructor|]. by intros i x p _ Hx. Qed.

Lemma set_queue_id (q : GoldskyQueue) : Queue.set_queue (queue q) q = q.
Proof. by destruct q. Qed.

(** *** enqueue *)

Lemma enqueue_ok (q : GoldskyQueue) (i : GoldskyQueueItem) :
  item_heap (queue q) →
  ∃ q', Queue.enqueue (Some i) q = Ret () q'
        ∧ item_heap (queue q')
        ∧ queue q' ≡ₚ Some i :: queue q
        ∧ _dequeues q' = _dequeues q ∧ max_size q' = max_size q.
Proof.
  intros [Hsome Hord].
  destruct (HeapqSpec.heappush_ok item_lt is_Some item_ltb item_lt_good
              item_ltb_asym item_ltb_negtrans (queue q) (Some i))
    as (h' & Hrun & Hg & Ho & Hperm); [done|by eexists|done|].
  exists (Queue.set_queue h' q).
  unfold Queue.enqueue, on_field. rewrite Hrun. by repeat split.
Qed.

(** *** dequeue *)

Lemma dequeue_cap (q : GoldskyQueue) :
  max_size q ≤ _dequeues q → Queue.dequeue q = Ret None q.
Proof.
  intros Hcap. unfold Queue.dequeue. cbv [mbind M_bind get].
  destruct (Z.gtb_spec (_dequeues q) (max_size q - 1)); [done|lia].
Qed.

Lemma dequeue_empty (q : GoldskyQueue) :
  queue q = [] → Queue.dequeue q = Ret None q.
Proof.
  intros Hnil. unfold Queue.dequeue. cbv [mbind M_bind get].
  destruct (_dequeues q >? max_size q - 1); [done|].
  unfold try_except, on_field. cbv [mbind M_bind].
  rewrite Hnil. simpl. rewrite <- Hnil. by rewrite set_queue_id.
Qed.

Lemma dequeue_ok (q : GoldskyQueue) :
  item_heap (queue q) → queue q ≠ [] → _dequeues q < max_size q →
  ∃ x q', Queue.dequeue q = Ret (Some x) q'
          ∧ item_heap (queue q')
          ∧ queue q ≡ₚ Some x :: queue q'
          ∧ Forall (item_le x) (items_of (queue q'))
          ∧ _dequeues q' = _dequeues q + 1 ∧ max_size q' = max_size q.
Proof.
  intros [Hsome Hord] Hne Hcap.
  destruct (HeapqSpec.heappop_ok item_lt is_Some item_ltb item_lt_good
              item_ltb_asym item_ltb_negtrans (queue q))
    as (r & h' & Hrun & [x ->] & Hg & Ho & Hperm & Hmin); [done..|].
  exists x, {| queue := h'; _dequeues := _dequeues q + 1;
               max_size := max_size q |}.
  split.
  { unfold Queue.dequeue. cbv [mbind M_bind get].
    destruct (Z.gtb_spec (_dequeues q) (max_size q - 1)); [lia|].
    unfold try_except, on_field. cbv [mbind M_bind]. by rewrite Hrun. }
  split; [done|]. split; [done|]. split; [|done].
  rewrite (items_of_Some h' Hg) in Hmin.
  rewrite Forall_fmap in Hmin.
  eapply Forall_impl; [exact Hmin|].
  intros y Hy. by apply item_le_heap_le.
Qed.

(** The three cases of a dequeue on a well-formed queue. *)
Lemma dequeue_cases (q : GoldskyQueue) :
  queue_wf q →
  (Queue.dequeue q = Ret None q
   ∧ (queue q = [] ∨ max_size q ≤ _dequeues q))
  ∨ (∃ x q', Queue.dequeue q = Ret (Some x) q'
             ∧ queue_wf q'
             ∧ queue q ≡ₚ Some x :: queue q'
             ∧ Forall (item_le x) (items_of (queue q'))
             ∧ _dequeues q' = _dequeues q + 1 ∧ max_size q' = max_size q
             ∧ _dequeues q < max_size q).
Proof.
  intros [Hheap Hpos].
  destruct (decide (max_size q ≤ _dequeues q)) as [Hcap|Hcap].
  { left. split; [by apply dequeue_cap|by right]. }
  destruct (decide (queue q = [])) as [Hnil|Hne].
  { left. split; [by apply dequeue_empty|by left]. }
  right. destruct (dequeue_ok q) as (x & q' & Hrun & Hh & Hp & Hm & Hd & Hs);
    [done|done|lia|].
  exists x, q'. repeat split; try done; try apply Hh; lia.
Qed.

Lemma enqueue_wf (q : GoldskyQueue) (i : GoldskyQueueItem) :
  queue_wf q →
  ∃ q', Queue.enqueue (Some i) q = Ret () q' ∧ queue_wf q'
        ∧ queue q' ≡ₚ Some i :: queue q
        ∧ _dequeues q' = _dequeues q ∧ max_size q' = max_size q.
Proof.
  intros [Hheap Hpos].
  destruct (enqueue_ok q i Hheap) as (q' & Hrun & Hh & Hp & Hd & Hs).
  exists q'. repeat split; try done; try apply Hh. lia.
Qed.

Lemma run_ops_wf (ops : list queue_op) :
  ∀ q, queue_wf q →
       ∃ results q', run_ops ops q = Ret results q' ∧ queue_wf q'
                     ∧ max_size q' = max_size q.
Proof.
  induction ops as [|[i|] ops IH]; intros q Hwf.
  - by exists [], q.
  - destruct (enqueue_wf q i Hwf) as (q1 & Hrun & Hwf1 & _ & _ & Hs).
    destruct (IH q1 Hwf1) as (rs & q2 & Hrun2 & Hwf2 & Hs2).
    exists rs, q2. cbn [run_ops]. cbv [mbind M_bind].
    rewrite Hrun. split; [done|]. split; [done|congruence].
  - cbn [run_ops]. cbv [mbind M_bind mret M_ret].
    destruct (dequeue_cases q Hwf)
      as [[Hrun _]|(x & q1 & Hrun & Hwf1 & _ & _ & _ & Hs & _)].
    + destruct (IH q Hwf) as (rs & q2 & Hrun2 & Hwf2 & Hs2).
      exists (None :: rs), q2. by rewrite Hrun, Hrun2.
    + destruct (IH q1 Hwf1) as (rs & q2 & Hrun2 & Hwf2 & Hs2).
      exists (Some x :: rs), q2. rewrite Hrun, Hrun2.
      split; [done|]. split; [done|congruence].
Qed.

Lemma reachable_wf (q : GoldskyQueue) : reachable q → queue_wf q.
Proof.
  intros (m & ops & rs & Hrun).
  destruct (run_ops_wf ops (Queue.__init__ m)) as (rs' & q' & Hrun' & Hwf & _).
  { split; [apply item_heap_nil|done]. }
  congruence.
Qed.

(** *** dequeues in a row *)

Lemma dequeues_spec (n : nat) :
  ∀ q, queue_wf q →
       ∃ results q',
         dequeues n q = Ret results q'
         ∧ queue_wf q'
         ∧ max_size q' = max_size q
         ∧ (Some <$> items_of results) ++ queue q' ≡ₚ queue q
         ∧ StronglySorted item_le (items_of results)
         ∧ _dequeues q' = _dequeues q + Z.of_nat (length (items_of results))
         ∧ (items_of results ≠ [] → _dequeues q' ≤ max_size q).
Proof.
  induction n as [|n IH]; intros q Hwf.
  { exists [], q. repeat split; try done; try apply Hwf.
    - constructor.
    - simpl. lia. }
  cbn [dequeues]. cbv [mbind M_bind mret M_ret].
  destruct (dequeue_cases q Hwf)
    as [[Hrun _]|(x & q1 & Hrun & Hwf1 & Hperm & Hmin & Hd & Hs & Hcap)].
  - destruct (IH q Hwf) as (rs & q2 & Hrun2 & Hwf2 & Hs2 & Hp2 & Hsort & Hd2).
    exists (None :: rs), q2. rewrite Hrun, Hrun2.
    split; [done|]. split; [done|]. split; [done|]. split; [done|].
    split; done.
  - destruct (IH q1 Hwf1)
      as (rs & q2 & Hrun2 & Hwf2 & Hs2 & Hp2 & Hsort & Hd2 & Hcap2).
    exists (Some x :: rs), q2. rewrite Hrun, Hrun2.
    split; [done|]. split; [done|]. split; [congruence|].
    change (items_of (Some x :: rs)) with (x :: items_of rs).
    split; [by rewrite Hperm, <- Hp2|]. split.
    + constructor; [done|].
      apply Forall_forall. intros y Hy.
      apply (proj1 (Forall_forall _ _) Hmin).
      apply list_elem_of_omap. exists (Some y). split; [|done].
      rewrite <- Hp2. apply elem_of_app. left.
      by apply list_elem_of_fmap_2.
    + cbn [length]. split; [lia|]. intros _.
      destruct (decide (items_of rs = [])) as [Hnil|Hne].
      * rewrite Hnil in Hd2. simpl in Hd2. lia.
      * rewrite Hs in Hcap2. by apply Hcap2.
Qed.

Lemma dequeues_succeed (k : nat) :
  ∀ q, queue_wf q →
       _dequeues q + Z.of_nat k ≤ max_size q → (k ≤ length (queue q))%nat →
       ∃ items q', dequeues k q = Ret (Some <$> items) q' ∧ length items = k.
Proof.
  induction k as [|k IH]; intros q Hwf Hcap Hlen.
  { by exists [], q. }
  destruct (dequeue_ok q) as (x & q1 & Hrun & Hh & Hp & _ & Hd & Hs).
  - apply Hwf.
  - intros Hnil. rewrite Hnil in Hlen. simpl in Hlen. lia.
  - lia.
  - apply Permutation_length in Hp. simpl in Hp.
    destruct (IH q1) as (items & q2 & Hrun2 & Hl).
    + split; [done|]. destruct Hwf. lia.
    + lia.
    + lia.
    + exists (x :: items), q2. cbn [dequeues]. cbv [mbind M_bind mret M_ret].
      rewrite Hrun, Hrun2. split; [done|]. simpl. by rewrite Hl.
Qed.

Lemma run_ops_dequeues (ops : list queue_op) :
  ∀ q results q',
    queue_wf q → run_ops ops q = Ret results q' →
    _dequeues q' = _dequeues q + Z.of_nat (length (items_of results))
    ∧ max_size q' = max_size q.
Proof.
  induction ops as [|[i|] ops IH]; intros q rs q' Hwf.
  - intros [= <- <-]. simpl. lia.
  - cbn [run_ops]. cbv [mbind M_bind].
    destruct (enqueue_wf q i Hwf) as (q1 & Hrun & Hwf1 & _ & Hd & Hs).
    rewrite Hrun. intros Hrest.
    destruct (IH q1 rs q' Hwf1 Hrest). split; congruence.
  - cbn [run_ops]. cbv [mbind M_bind mret M_ret].
    destruct (dequeue_cases q Hwf)
      as [[Hrun _]|(x & q1 & Hrun & Hwf1 & _ & _ & Hd & Hs & _)];
      rewrite Hrun.
    + destruct (run_ops ops q) as [rs1 q2|] eqn:Hrest; [|done].
      intros [= <- <-].
      change (items_of (None :: rs1)) with (items_of rs1). by apply IH.
    + destruct (run_ops ops q1) as [rs1 q2|] eqn:Hrest; [|done].
      intros [= <- <-]. destruct (IH q1 rs1 q2 Hwf1 Hrest) as [Hd2 Hs2].
      change (items_of (Some x :: rs1)) with (x :: items_of rs1).
      cbn [length]. split; [lia|congruence].
Qed.

(** C6, as stated, fails: over a sequence that interleaves enqueues and
    dequeues the successful dequeues need not come out in non-decreasing
    order. Enqueue 5, dequeue (5), enqueue 3, dequeue (3). *)
Lemma dequeue_order_interleaved_fails :
  ¬ (∀ (max_size : Z) (ops : list queue_op) results q,
       run_ops ops (Queue.__init__ max_size) = Ret results q →
       StronglySorted item_le (items_of results)).
Proof.
  intros H.
  specialize (H 3
    [Enqueue (example_item 5); Dequeue; Enqueue (example_item 3); Dequeue]
    _ _ eq_refl).
  apply StronglySorted_inv in H as [_ H].
  apply Forall_inv in H. discriminate H.
Qed.

(** C6 (amended). Let [q] be the queue that a fresh queue of cap
    [max_size] becomes under any sequence of enqueues and dequeues,
    [results] what its dequeues returned. Then [q] has counted the
    items dequeued so far; enqueue never rejects an item; the
    successful ones among any number of dequeues in a row, with no
    enqueue in between, come in non-decreasing checkpoint order; the
    next [k] dequeues all succeed when the heap holds [k] items and
    the count is at least [k] below the cap; and once the count has
    reached the cap every dequeue returns [None] and leaves the heap
    as it was, empty or not. *)
Theorem queue_dequeue_order (m : Z) (ops : list queue_op)
  (results : list item_ref) (q : GoldskyQueue)
  (Hrun : run_ops ops (Queue.__init__ m) = Ret results q) :
  _dequeues q = Z.of_nat (length (items_of results)) ∧ max_size q = m
  ∧ (∀ item, ∃ q', Queue.enqueue (Some item) q = Ret () q'
                   ∧ queue q' ≡ₚ Some item :: queue q)
  ∧ (∀ n, ∃ rs q', dequeues n q = Ret rs q'
                   ∧ StronglySorted item_le (items_of rs))
  ∧ (∀ k, _dequeues q + Z.of_nat k ≤ max_size q →
          (k ≤ length (queue q))%nat →
          ∃ items q', dequeues k q = Ret (Some <$> items) q'
                      ∧ length items = k)
  ∧ (max_size q ≤ _dequeues q → Queue.dequeue q = Ret None q).
Proof.
  assert (Hwf0 : queue_wf (Queue.__init__ m)).
  { split; [apply item_heap_nil|done]. }
  assert (Hwf : queue_wf q).
  { apply reachable_wf. by exists m, ops, results. }
  destruct (run_ops_dequeues ops _ _ _ Hwf0 Hrun) as [Hd Hs].
  split; [simpl in Hd; lia|]. split; [done|]. split.
  { intros item. destruct (enqueue_wf q item Hwf) as (q' & H1 & _ & H2 & _).
    by exists q'. }
  split.
  { intros n.
    destruct (dequeues_spec n q Hwf) as (rs & q' & H1 & _ & _ & _ & H2 & _).
    by exists rs, q'. }
  split; [intros k; by apply dequeues_succeed|].
  apply dequeue_cap.
Qed.

(** On the queue of cap 2 that holds 3, 5 and 8. *)
Lemma queue_dequeue_order_witness :
  _dequeues example_queue = Z.of_nat (length (items_of []))
  ∧ max_size example_queue = 2
  ∧ (∀ item, ∃ q', Queue.enqueue (Some item) example_queue = Ret () q'
                   ∧ queue q' ≡ₚ Some item :: queue example_queue)
  ∧ (∀ n, ∃ rs q', dequeues n example_queue = Ret rs q'
                   ∧ StronglySorted item_le (items_of rs))
  ∧ (∀ k, _dequeues example_queue + Z.of_nat k ≤ max_size example_queue →
          (k ≤ length (queue example_queue))%nat →
          ∃ items q', dequeues k example_queue = Ret (Some <$> items) q'
                      ∧ length items = k)
  ∧ (max_size example_queue ≤ _dequeues example_queue →
     Queue.dequeue example_queue = Ret None example_queue).
Proof.
  apply (queue_dequeue_order 2 example_ops [] example_queue).
  vm_compute. reflexivity.
Defined.

(** *** peek *)

Lemma heappush_None (h : list item_ref) :
  heapq.heappush item_lt None h =
  match h with
  | [] => Ret () [None]
  | _ => Raise TypeError (h ++ [None])%list
  end.
Proof.
  destruct (decide (h = [])) as [->|Hne]; [done|].
  transitivity (Raise (A := ()) TypeError (h ++ [None])%list);
    [|by destruct h].
  unfold heapq.heappush, heapq._siftdown.
  cbv [mbind M_bind mret M_ret PyList.append PyList.len PyList.getitem].
  rewrite length_app. simpl length.
  replace (length h + 1 - 1)%nat with (length h) by lia.
  rewrite lookup_app_r, Nat.sub_diag by lia. simpl lookup.
  destruct (length h) as [|n] eqn:Hlen.
  { by apply nil_length_inv in Hlen. }
  rewrite HeapqSpec._siftdown_loop_unfold, decide_True by lia.
  pose proof (HeapqSpec.heap_parent_lt (S n)) as Hp.
  destruct (_ !! HeapOrder.parent (S n)) as [par|] eqn:Hpar; [done|].
  apply lookup_ge_None_1 in Hpar. rewrite length_app in Hpar.
  simpl in Hpar. lia.
Qed.

Lemma enqueue_None (q : GoldskyQueue) :
  Queue.enqueue None q =
  match queue q with
  | [] => Ret () (Queue.set_queue [None] q)
  | _ => Raise TypeError (Queue.set_queue (queue q ++ [None])%list q)
  end.
Proof.
  unfold Queue.enqueue, on_field. rewrite heappush_None.
  by destruct (queue q).
Qed.

Lemma set_worker_head (key0 : string) (q q' : GoldskyQueue)
  (rest : PyDict.t GoldskyQueue) (m : Z) :
  Queues.set_worker key0 q' (mkGoldskyQueues ((key0, q) :: rest) m) =
  mkGoldskyQueues ((key0, q') :: rest) m.
Proof.
  unfold Queues.set_worker. simpl. by rewrite String.eqb_refl.
Qed.

(** C10. Let the first worker's queue of a queue set be [q]. If [q]
    is a well-formed, non-empty queue below its cap, [peek] returns a
    least item of [q] and leaves in [q] the same items, with the
    dequeue count one higher: of any further dequeues at most
    [max_size - 1] succeed. If instead [q] is empty or at its cap, so
    that the dequeue inside [peek] returns [None], [peek] appends that
    [None] to the heap of [q]; the push returns on an empty heap and
    raises [TypeError], with the [None] left in the list, on any
    other. *)
Theorem peek_requeues (key0 : string) (q : GoldskyQueue)
  (rest : PyDict.t GoldskyQueue) (m : Z) :
  let qs := mkGoldskyQueues ((key0, q) :: rest) m in
  (queue_wf q → queue q ≠ [] → _dequeues q < max_size q →
   ∃ x q',
     Queues.peek qs = Ret (Some x) (mkGoldskyQueues ((key0, q') :: rest) m)
     ∧ Some x ∈ queue q
     ∧ Forall (item_le x) (items_of (queue q))
     ∧ queue q' ≡ₚ queue q
     ∧ _dequeues q' = _dequeues q + 1
     ∧ max_size q' = max_size q
     ∧ ∀ n, ∃ rs q'',
         dequeues n q' = Ret rs q''
         ∧ Z.of_nat (length (items_of rs)) ≤ max_size q - 1)
  ∧ (queue q = [] ∨ max_size q ≤ _dequeues q →
     state_of (Queues.peek qs) =
       mkGoldskyQueues
         ((key0, Queue.set_queue (queue q ++ [None])%list q) :: rest) m
     ∧ value_of (Queues.peek qs) =
         match queue q with [] => inr None | _ => inl TypeError end).
Proof.
  intros qs. split.
  - intros Hwf Hne Hcap.
    destruct (dequeue_ok q) as (x & q1 & Hrun & Hh & Hp & Hmin & Hd & Hs);
      [apply Hwf|done|done|].
    destruct (enqueue_wf q1 x) as (q2 & Hrun2 & Hwf2 & Hp2 & Hd2 & Hs2).
    { split; [done|]. destruct Hwf. lia. }
    exists x, q2. split.
    { unfold Queues.peek, qs, Queues.on_stored, on_field.
      cbv [mbind M_bind mret M_ret get]. cbn [queues].
      rewrite Hrun, Hrun2. by rewrite set_worker_head. }
    split. { rewrite Hp. apply list_elem_of_here. }
    split.
    { apply items_of_perm in Hp. rewrite Hp.
      change (items_of (Some x :: queue q1)) with (x :: items_of (queue q1)).
      constructor; [|done]. unfold item_le. rewrite cp_le_spec. by right. }
    split; [by rewrite Hp2, Hp|]. split; [lia|]. split; [congruence|].
    intros n.
    destruct (dequeues_spec n q2 Hwf2)
      as (rs & q3 & Hrun3 & _ & _ & _ & _ & Hd3 & Hcap3).
    exists rs, q3. split; [done|].
    destruct Hwf as [_ Hpos].
    destruct (decide (items_of rs = [])) as [Hnil|Hnn].
    + rewrite Hnil. simpl. lia.
    + specialize (Hcap3 Hnn). lia.
  - intros Hcase.
    assert (Hrun : Queue.dequeue q = Ret None q).
    { destruct Hcase; [by apply dequeue_empty|by apply dequeue_cap]. }
    unfold Queues.peek, qs, Queues.on_stored, on_field.
    cbv [mbind M_bind mret M_ret get]. cbn [queues].
    rewrite Hrun, enqueue_None.
    destruct (queue q) eqn:Hq; simpl; by rewrite set_worker_head.
Qed.

(** The example queue is one that enqueues build. *)
Lemma example_queue_reachable : reachable example_queue.
Proof. by exists 2, example_ops, []. Qed.

(** On the example queues: below the cap [peek] returns item 3; at
    the cap it leaves a [None] behind item 8 and raises. *)
Lemma peek_requeues_witness :
  (∃ x q',
     Queues.peek example_queues =
       Ret (Some x) (mkGoldskyQueues [("0", q'); ("1", Queue.__init__ 2)] 2)
     ∧ Some x ∈ queue example_queue
     ∧ Forall (item_le x) (items_of (queue example_queue))
     ∧ queue q' ≡ₚ queue example_queue
     ∧ _dequeues q' = _dequeues example_queue + 1
     ∧ max_size q' = max_size example_queue
     ∧ ∀ n, ∃ rs q'',
         dequeues n q' = Ret rs q''
         ∧ Z.of_nat (length (items_of rs)) ≤ max_size example_queue - 1)
  ∧ (state_of (Queues.peek capped_queues) =
       mkGoldskyQueues
         [("0", Queue.set_queue (queue capped_queue ++ [None])%list
                  capped_queue);
          ("1", Queue.__init__ 2)] 2
     ∧ value_of (Queues.peek capped_queues) = inl TypeError).
Proof.
  split.
  - apply (proj1 (peek_requeues "0" example_queue
                    [("1", Queue.__init__ 2)] 2)).
    + exact (reachable_wf _ example_queue_reachable).
    + vm_compute. discriminate.
    + vm_compute. reflexivity.
  - apply (proj2 (peek_requeues "0" capped_queue
                    [("1", Queue.__init__ 2)] 2)).
    right. vm_compute. discriminate.
Defined.

(** ** dict lookups *)

Lemma dict_get_set_eq {V} (d : PyDict.t V) (k : string) (v : V) :
  PyDict.get (PyDict.set d k v) k = Some v.
Proof.
  induction d as [|[k' v'] d IH]; simpl.
  - by rewrite String.eqb_refl.
  - destruct (String.eqb_spec k' k) as [->|Hne]; simpl.
    + by rewrite String.eqb_refl.
    + by destruct (String.eqb_spec k' k).
Qed.

Lemma dict_get_set_ne {V} (d : PyDict.t V) (k k' : string) (v : V) :
  k ≠ k' → PyDict.get (PyDict.set d k v) k' = PyDict.get d k'.
Proof.
  intros Hne. induction d as [|[k0 v0] d IH]; simpl.
  - by destruct (String.eqb_spec k k').
  - destruct (String.eqb_spec k0 k) as [->|Hk0]; simpl.
    + destruct (String.eqb_spec k k'); [done|].
      by destruct (String.eqb_spec k k').
    + by rewrite IH.
Qed.

Lemma dict_get_set {V} (d : PyDict.t V) (k k' : string) (v : V) :
  PyDict.get (PyDict.set d k v) k' =
  if String.eqb k k' then Some v else PyDict.get d k'.
Proof.
  destruct (String.eqb_spec k k') as [->|Hne].
  - apply dict_get_set_eq.
  - by apply dict_get_set_ne.
Qed.

(** ** The schema mapping *)










(** ** What the pattern matches *)

Lemma span_digits_all (s : string) :
  all_digits (Re.span_digits s).1 = true.
Proof.
  induction s as [|c s IH]; simpl; [done|].
  destruct (Re.is_digit c) eqn:Hc; [|done].
  destruct (Re.span_digits s) as [d r]. simpl in *. by rewrite Hc.
Qed.

Lemma digits_then_all (sep s d r : string) :
  Re.digits_then sep s = Some (d, r) → all_digits d = true.
Proof.
  unfold Re.digits_then. pose proof (span_digits_all s) as Hall.
  destruct (Re.span_digits s) as [d' r']. simpl in Hall.
  destruct d'; [done|]. destruct (Re.lit sep r'); [|done].
  by intros [= <- _].
Qed.

Lemma int_acc_nonneg (s : string) :
  ∀ acc, 0 ≤ acc → all_digits s = true → 0 ≤ int_acc acc s.
Proof.
  induction s as [|c s IH]; intros acc Hacc; simpl; [done|].
  intros [Hc Hs]%andb_true_iff. apply IH; [|done].
  unfold Re.is_digit in Hc. apply andb_true_iff in Hc as [H1 H2].
  apply N.leb_le in H1, H2. lia.
Qed.

Lemma append_not_empty (a b : string) : b ≠ "" → (a ++ b)%string ≠ "".
Proof. destruct a; [done|]. simpl. discriminate. Qed.

Lemma uuid_not_empty (s job r : string) :
  Re.uuid s = Some (job, r) → job ≠ "".
Proof.
  unfold Re.uuid.
  repeat match goal with
         | |- context [match ?x with _ => _ end] =>
             destruct x as [[]|]; try done
         | |- context [match ?x with _ => _ end] =>
             destruct x; try done
         end.
  intros [= <- _]. by apply append_not_empty.
Qed.

(** A match has digits for a timestamp and a job id that is not
    empty. *)
Lemma match_groups (prefix name : string) (m : re_Match) :
  Re.match_ prefix name = Some m →
  all_digits (group_timestamp m) = true ∧ group_job_id m ≠ "".
Proof.
  unfold Re.match_.
  destruct (Re.lit prefix name) as [r1|]; [|done].
  destruct (Re.lit "/" r1) as [r2|]; [|done].
  destruct (Re.digits_then "-" r2) as [[ts r3]|] eqn:Hts; [|done].
  destruct (Re.uuid r3) as [[job r4]|] eqn:Hjob; [|done].
  destruct (Re.lit "-" r4) as [r5|]; [|done].
  destruct (Re.digits_then "-" r5) as [[w r6]|]; [|done].
  destruct (match Re.checkpoint_tail r6 with
            | Some x => Some x
            | None => Re.checkpoint_tail_backtrack r6
            end) as [[cp tail]|]; [|done].
  intros [= <-]. simpl. split.
  - by eapply digits_then_all.
  - by eapply uuid_not_empty.
Qed.

(** Every checkpoint parsed from a blob name is above the checkpoint
    that [load_queues] takes for a worker with no pointer row. *)
Lemma match_above_default (prefix name : string) (m : re_Match) :
  Re.match_ prefix name = Some m →
  Checkpoint.__ge__ (mkGoldskyCheckpoint "" 0 0)
    (Asset.checkpoint_of_match m) = false.
Proof.
  intros [Hts Hjob]%match_groups.
  rewrite cp_ge_not_lt. apply negb_false_iff.
  unfold Checkpoint.__lt__, Asset.checkpoint_of_match, int.
  cbn [timestamp job_id worker_checkpoint].
  pose proof (int_acc_nonneg (group_timestamp m) 0 ltac:(done) Hts) as Hnn.
  destruct (Z.ltb_spec 0 (int_acc 0 (group_timestamp m))); [done|].
  destruct (Z.eqb_spec 0 (int_acc 0 (group_timestamp m))); [|lia].
  cbn [negb]. by rewrite str_empty_lt.
Qed.

(** ** DISCOVER *)

Lemma queued_spec (self : GoldskyAsset)
  (worker_status : PyDict.t GoldskyCheckpoint)
  (checkpoint_range : option GoldskyCheckpointRange) (blob : string)
  (m : re_Match) :
  Asset.goldsky_re_match self blob = Some m →
  Asset.queued (Some worker_status) checkpoint_range m =
  pointer_allows worker_status m && range_allows checkpoint_range m.
Proof.
  intros Hm. unfold Asset.queued, pointer_allows, range_allows.
  rewrite andb_comm. f_equal.
  destruct worker_status as [|kv ws]; [done|].
  cbn [PyDict.truthy].
  destruct (PyDict.get (kv :: ws) (group_worker m)) as [p|]; simpl.
  - by rewrite cp_ge_not_lt, negb_involutive, cp_gt_spec.
  - by rewrite (match_above_default _ _ _ Hm).
Qed.

Lemma queues_enqueue_ok (qs : GoldskyQueues) (worker : string)
  (item : GoldskyQueueItem) :
  queues_fresh qs →
  ∃ qs', Queues.enqueue worker (Some item) qs = Ret () qs'
         ∧ queues_fresh qs'
         ∧ queues_max_size qs' = queues_max_size qs
         ∧ ∀ k, queue_of qs' k ≡ₚ
                if bool_decide (worker = k) then Some item :: queue_of qs k
                else queue_of qs k.
Proof.
  intros Hwf. unfold Queues.enqueue. cbv [mbind M_bind get].
  assert (Hdone : ∀ q q',
    item_heap (queue q') → queue q' ≡ₚ Some item :: queue q →
    max_size q' = queues_max_size qs → _dequeues q' = 0 →
    (PyDict.get (queues qs) worker = Some q
     ∨ (PyDict.get (queues qs) worker = None ∧ queue q = [])) →
    queues_fresh (Queues.set_worker worker q' qs)
    ∧ queues_max_size (Queues.set_worker worker q' qs) = queues_max_size qs
    ∧ ∀ k, queue_of (Queues.set_worker worker q' qs) k ≡ₚ
           if bool_decide (worker = k) then Some item :: queue_of qs k
           else queue_of qs k).
  { intros q q' Hh Hp Hm Hd Hget. split.
    { intros k q0. unfold Queues.set_worker. simpl. rewrite dict_get_set.
      destruct (String.eqb_spec worker k); [|apply Hwf].
      intros [= <-]. split; [done|]. split; [|done].
      intros Hnil. rewrite Hnil in Hp. by apply Permutation_nil_cons in Hp. }
    split; [done|]. intros k. unfold queue_of, Queues.set_worker. simpl.
    rewrite dict_get_set.
    destruct (String.eqb_spec worker k) as [<-|Hne].
    - rewrite bool_decide_true by done.
      destruct Hget as [->|[-> Hnil]]; [done|]. by rewrite Hp, Hnil.
    - by rewrite bool_decide_false. }
  destruct (PyDict.get (queues qs) worker) as [q|] eqn:Hget.
  - destruct (Hwf _ _ Hget) as (Hheap & _ & Hmax & Hdeq).
    destruct (enqueue_ok q item Hheap) as (q' & Hrun & Hh & Hp & Hd & Hs).
    exists (Queues.set_worker worker q' qs).
    unfold Queues.on_stored, on_field. rewrite Hrun.
    split; [done|]. apply (Hdone q q'); auto; congruence.
  - destruct (enqueue_ok (Queue.__init__ (queues_max_size qs)) item
                item_heap_nil) as (q' & Hrun & Hh & Hp & Hd & Hs).
    exists (Queues.set_worker worker q' qs).
    unfold Queues.on_fresh, modify. cbv [mbind M_bind]. rewrite Hrun.
    split; [done|]. apply (Hdone (Queue.__init__ (queues_max_size qs)) q');
      auto.
Qed.

(** The loop of [load_queues]: each queue gains the items let
    through. *)
Lemma load_queues_loop (worker_status : option (PyDict.t GoldskyCheckpoint))
  (checkpoint_range : option GoldskyCheckpointRange)
  (ms : list re_Match) :
  ∀ qs, queues_fresh qs →
    ∃ qs',
      for_each ms (Asset.load_queues_body worker_status checkpoint_range) qs
        = Ret () qs'
      ∧ queues_fresh qs'
      ∧ queues_max_size qs' = queues_max_size qs
      ∧ ∀ k, items_of (queue_of qs' k) ≡ₚ
             items_of (queue_of qs k)
             ++ omap (λ m,
                  if bool_decide (group_worker m = k)
                     && Asset.queued worker_status checkpoint_range m
                  then Some (Asset.item_of_match m) else None) ms.
Proof.
  induction ms as [|m ms IH]; intros qs Hwf.
  { exists qs. split; [done|]. split; [done|]. split; [done|].
    intros k. simpl. by rewrite app_nil_r. }
  cbn [for_each]. cbv [mbind M_bind]. unfold Asset.load_queues_body at 1.
  destruct (Asset.queued worker_status checkpoint_range m) eqn:Hq.
  - destruct (queues_enqueue_ok qs (group_worker m) (Asset.item_of_match m)
                Hwf) as (qs1 & Hrun & Hwf1 & Hmax1 & Hitems1).
    rewrite Hrun.
    destruct (IH qs1 Hwf1) as (qs2 & Hrun2 & Hwf2 & Hmax2 & Hitems2).
    exists qs2. split; [done|]. split; [done|]. split; [congruence|].
    intros k. rewrite Hitems2. cbn [omap list_omap]. rewrite Hq, andb_true_r.
    rewrite (items_of_perm _ _ (Hitems1 k)).
    destruct (bool_decide (group_worker m = k)); [|done].
    change (items_of (Some (Asset.item_of_match m) :: queue_of qs k))
      with (Asset.item_of_match m :: items_of (queue_of qs k)).
    by rewrite <- Permutation_middle.
  - cbv [mret M_ret].
    destruct (IH qs Hwf) as (qs2 & Hrun2 & Hwf2 & Hmax2 & Hitems2).
    exists qs2. split; [done|]. split; [done|]. split; [done|].
    intros k. rewrite Hitems2. cbn [omap list_omap].
    by rewrite Hq, andb_false_r.
Qed.

Lemma omap_omap {A B C} (f : A → option B) (g : B → option C)
  (l : list A) :
  omap g (omap f l) = omap (λ x, f x ≫= g) l.
Proof.
  induction l as [|x l IH]; [done|].
  change (omap f (x :: l)) with
    (match f x with Some y => y :: omap f l | None => omap f l end).
  change (omap (λ x, f x ≫= g) (x :: l)) with
    (match f x ≫= g with
     | Some z => z :: omap (λ x, f x ≫= g) l
     | None => omap (λ x, f x ≫= g) l
     end).
  rewrite <- IH. destruct (f x) as [y|]; [|done].
  change (omap g (y :: omap f l)) with
    (match g y with
     | Some z => z :: omap g (omap f l)
     | None => omap g (omap f l)
     end).
  done.
Qed.

(** What DISCOVER returns. *)
Lemma load_queues_to_process_spec (self : GoldskyAsset)
  (checkpoint_range : option GoldskyCheckpointRange) (w w' : World)
  (worker_status : PyDict.t GoldskyCheckpoint) :
  Asset.get_worker_status self w = Ret worker_status w' →
  ∃ queues,
    Asset.load_queues_to_process self checkpoint_range w
      = Ret (worker_status, queues) w'
    ∧ queues_fresh queues
    ∧ queues_max_size queues = max_objects_to_load (asset_config self)
    ∧ ∀ worker,
        items_of (queue_of queues worker) ≡ₚ
        omap (discovered self worker_status checkpoint_range worker)
          (blobs w').
Proof.
  intros Hstatus.
  unfold Asset.load_queues_to_process. cbv [mbind M_bind]. rewrite Hstatus.
  unfold Asset.load_queues, Asset._uncached_blobs_loader.
  cbv [mbind M_bind mret M_ret get].
  destruct (load_queues_loop (Some worker_status) checkpoint_range
              (omap (Asset.goldsky_re_match self) (blobs w'))
              (Queues.__init__ (max_objects_to_load (asset_config self))))
    as (qs & Hrun & Hfresh & Hmax & Hitems).
  { by intros k q. }
  rewrite Hrun. exists qs. split; [done|]. split; [done|]. split; [done|].
  intros worker. rewrite Hitems, omap_omap. simpl.
  apply eq_subrelation; [apply _|].
  apply list_omap_ext. clear. induction (blobs w') as [|b l IH]; [done|].
  constructor; [|done]. unfold discovered.
  destruct (Asset.goldsky_re_match self b) as [m|] eqn:Hm; [|done].
  simpl. by rewrite (queued_spec self worker_status checkpoint_range b m Hm),
    andb_assoc.
Qed.

(** C4. DISCOVER reads the pointer, lists the blobs and returns the
    queues, without raising on any name. Each worker's queue then
    holds exactly the items owed to it: one for each listed blob whose
    name matches the pattern with that worker, whose checkpoint is
    strictly greater than the worker's pointer checkpoint (a worker
    with no pointer row has none to exceed), and whose checkpoint is
    in the range when a range is given. A name that does not match
    yields nothing. *)
Theorem discover_enqueues (self : GoldskyAsset)
  (checkpoint_range : option GoldskyCheckpointRange) (w w' : World)
  (worker_status : PyDict.t GoldskyCheckpoint)
  (Hstatus : Asset.get_worker_status self w = Ret worker_status w') :
  ∃ queues,
    Asset.load_queues_to_process self checkpoint_range w
      = Ret (worker_status, queues) w'
    ∧ queues_max_size queues = max_objects_to_load (asset_config self)
    ∧ ∀ worker,
        items_of (queue_of queues worker) ≡ₚ
        omap (discovered self worker_status checkpoint_range worker)
          (blobs w').
Proof.
  destruct (load_queues_to_process_spec self checkpoint_range w w'
              worker_status Hstatus) as (qs & Hrun & _ & Hmax & Hitems).
  by exists qs.
Qed.

(** On the example bucket: blob 3 of worker 0 and blob 7 of worker 1
    are queued, blobs 1 and 2 and the stray name are not. *)
Lemma discover_enqueues_witness :
  ∃ queues,
    Asset.load_queues_to_process example_asset None example_world
      = Ret (example_status, queues) example_world
    ∧ queues_max_size queues = max_objects_to_load (asset_config example_asset)
    ∧ ∀ worker,
        items_of (queue_of queues worker) ≡ₚ
        omap (discovered example_asset example_status None worker)
          (blobs example_world).
Proof.
  apply (discover_enqueues example_asset None example_world example_world
           example_status).
  vm_compute. reflexivity.
Defined.

(** ** What a computation leaves alone *)

Lemma same_data_refl (w : World) : same_data w w.
Proof. by repeat split. Qed.

Lemma same_data_trans (w1 w2 w3 : World) :
  same_data w1 w2 → same_data w2 w3 → same_data w1 w3.
Proof.
  intros (H1 & H2 & H3) (H4 & H5 & H6). repeat split; congruence.
Qed.

Lemma read_only_ret {A} (a : A) : read_only (mret a).
Proof. intros w. apply same_data_refl. Qed.

Lemma read_only_raise {A} (e : exn) : read_only (raise (A := A) e).
Proof. intros w. apply same_data_refl. Qed.

Lemma read_only_lift {A} (r : exn + A) : read_only (lift r).
Proof. destruct r; [apply read_only_raise|apply read_only_ret]. Qed.

Lemma read_only_get : read_only get.
Proof. intros w. apply same_data_refl. Qed.

Lemma read_only_bind {A B} (m : M World A) (f : A → M World B) :
  read_only m → (∀ a, read_only (f a)) → read_only (m ≫= f).
Proof.
  intros Hm Hf w. cbv [mbind M_bind]. specialize (Hm w).
  destruct (m w) as [a w1|e w1]; [|done].
  eapply same_data_trans; [exact Hm|apply Hf].
Qed.

Lemma read_only_try {A} (m h : M World A) (handles : exn → bool) :
  read_only m → read_only h → read_only (try_except m handles h).
Proof.
  intros Hm Hh w. unfold try_except. specialize (Hm w).
  destruct (m w) as [a w1|e w1]; [done|].
  destruct (handles e); [|done].
  eapply same_data_trans; [exact Hm|apply Hh].
Qed.

Lemma read_only_request {A} (run : M World A) :
  read_only run → read_only (BQ.request run).
Proof.
  intros Hrun w. unfold BQ.request.
  destruct (responses w) as [|[e|] rest]; [apply Hrun|done|].
  eapply same_data_trans; [|apply Hrun]. done.
Qed.

Lemma read_only_for_each {A} (l : list A) (body : A → M World unit) :
  (∀ a, read_only (body a)) → read_only (for_each l body).
Proof.
  intros Hbody. induction l as [|a l IH]; [apply read_only_ret|].
  cbn [for_each]. apply read_only_bind; [apply Hbody|done].
Qed.

Lemma get_worker_status_read_only (self : GoldskyAsset) :
  read_only (Asset.get_worker_status self).
Proof.
  apply read_only_try; [|apply read_only_ret].
  apply read_only_bind; [|intros; apply read_only_ret].
  apply read_only_request, read_only_bind;
    [apply read_only_get|intros; apply read_only_ret].
Qed.

Lemma load_queues_read_only (self : GoldskyAsset)
  (worker_status : option (PyDict.t GoldskyCheckpoint))
  (max_objects : option Z)
  (checkpoint_range : option GoldskyCheckpointRange) :
  read_only (Asset.load_queues self worker_status max_objects
               checkpoint_range).
Proof.
  unfold Asset.load_queues. apply read_only_bind.
  { apply read_only_bind; [apply read_only_get|intros; apply read_only_ret]. }
  intros ms. destruct (for_each ms _ _); [|apply read_only_raise].
  destruct worker_status; [apply read_only_ret|apply read_only_raise].
Qed.


(** ** The loop of the direct loader runs to its end *)

Lemma dequeue_length (q q' : GoldskyQueue) (i : GoldskyQueueItem) :
  Queue.dequeue q = Ret (Some i) q' →
  S (length (queue q')) = length (queue q).
Proof.
  unfold Queue.dequeue. cbv [mbind M_bind get].
  destruct (_dequeues q >? max_size q - 1); [done|].
  unfold try_except, on_field. cbv [mbind M_bind mret M_ret].
  destruct (heapq.heappop item_lt (queue q)) as [a h'|e h'] eqn:Hpop.
  - apply HeapqSpec.heappop_length in Hpop. simpl. by intros [= _ <-].
  - simpl. by destruct (is_IndexError e).
Qed.

Lemma in_world_queue {A} (m : M World A) (s : WorkerState) :
  (state_of (in_world m s)).1 = s.1.
Proof. unfold in_world, on_field. by destruct (m s.2). Qed.

Lemma run_load_loop_fuel (f1 : nat) :
  ∀ (f2 : nat) self to_load latest item s,
    (run_load_turns item s ≤ f1)%nat → (run_load_turns item s ≤ f2)%nat →
    Worker.run_load_loop f1 self to_load latest item s =
    Worker.run_load_loop f2 self to_load latest item s.
Proof.
  induction f1 as [|f1 IH]; intros [|f2] self to_load latest [i|] s H1 H2;
    try reflexivity; simpl in H1, H2; try lia.
  cbn [Worker.run_load_loop]. cbv [mbind M_bind mret M_ret].
  set (batch := (to_load ++ [_])%list).
  destruct (Z.of_nat (length batch) >=? pointer_size (config self)).
  - pose proof (in_world_queue
                  (Worker.commit_pointer self batch (checkpoint i)) s) as Hq.
    destruct (in_world (Worker.commit_pointer self batch (checkpoint i)) s)
      as [[] s1|e s1]; [|done].
    simpl in Hq. unfold in_queue, on_field.
    destruct (Queue.dequeue s1.1) as [item' q'|e q'] eqn:Hdq; [|done].
    apply IH; destruct item' as [i'|]; simpl; try lia;
      apply dequeue_length in Hdq; rewrite Hq in Hdq; lia.
  - unfold in_queue, on_field.
    destruct (Queue.dequeue s.1) as [item' q'|e q'] eqn:Hdq; [|done].
    apply IH; destruct item' as [i'|]; simpl; try lia;
      apply dequeue_length in Hdq; lia.
Qed.

(** ** The pointer, read and written *)

Lemma worker_status_acc (rows : list PointerRow) :
  ∀ (d : PyDict.t GoldskyCheckpoint) (worker : string),
    PyDict.get
      (fold_left
         (λ worker_status row,
            PyDict.set worker_status (row_worker row)
              (mkGoldskyCheckpoint (row_job_id row) (row_timestamp row)
                 (row_checkpoint row)))
         rows d) worker =
    match last (filter (λ r, row_worker r = worker) rows) with
    | Some r => Some (checkpoint_of_row r)
    | None => PyDict.get d worker
    end.
Proof.
  induction rows as [|r rows IH]; intros d worker; [done|].
  cbn [fold_left]. rewrite IH, filter_cons.
  destruct (decide (row_worker r = worker)) as [Hr|Hr].
  - rewrite last_cons.
    destruct (last (filter _ rows)); [done|].
    by rewrite <- Hr, dict_get_set_eq.
  - destruct (last (filter _ rows)); [done|].
    by rewrite dict_get_set_ne.
Qed.

(** When the service answers, [get_worker_status] maps each worker to
    the checkpoint of its row, the last one if the table has several. *)
Lemma get_worker_status_spec (self : GoldskyAsset)
  (rows : list PointerRow) (tbls : PyDict.t (list string))
  (bl : list string) (sch : string → list (string * polars.DataType)) :
  ∃ worker_status,
    Asset.get_worker_status self (mkWorld rows tbls [] bl sch)
      = Ret worker_status (mkWorld rows tbls [] bl sch)
    ∧ ∀ worker,
        PyDict.get worker_status worker =
        checkpoint_of_row <$> last (filter (λ r, row_worker r = worker) rows).
Proof.
  eexists. split; [reflexivity|]. intros worker.
  rewrite worker_status_acc. by destruct (last _).
Qed.

(** The sibling of the new-table path: when the worker's raw table
    exists, the transaction deletes the worker's rows before it
    inserts the new one. *)
Lemma blocking_update_existing_table_one_row (cfg : GoldskyConfig)
  (job worker : string) (new_checkpoint : GoldskyCheckpoint)
  (wildcard_path : string) (rows : list PointerRow)
  (tbls : PyDict.t (list string)) (bl : list string)
  (sch : string → list (string * polars.DataType)) (loaded : list string) :
  PyDict.get tbls (destination_table_name cfg ++ "_" ++ worker)
    = Some loaded →
  ∃ w',
    blocking_update_pointer_table cfg job worker new_checkpoint
      wildcard_path (mkWorld rows tbls [] bl sch) = Ret () w'
    ∧ filter (λ r, row_worker r = worker) (pointer_rows w')
      = [BQ.pointer_row worker new_checkpoint].
Proof.
  intros Hraw.
  set (raw := destination_table_name cfg ++ "_" ++ worker) in *.
  set (job_table := raw ++ "_" ++ job).
  set (tbls1 := PyDict.set tbls job_table [wildcard_path]).
  assert (is_Some (PyDict.get tbls1 raw)) as [d Hd].
  { unfold tbls1. rewrite dict_get_set. destruct (String.eqb _ _); eauto. }
  assert (PyDict.get tbls1 job_table = Some [wildcard_path]) as Hj
    by apply dict_get_set_eq.
  eexists. split.
  - unfold blocking_update_pointer_table, try_except, BQ.get_table,
      BQ.request, BQ.sql_load_data_overwrite, BQ.sql_insert_select,
      BQ.sql_delete_pointer, BQ.sql_insert_pointer, BQ.sql_drop_table,
      modify, put.
    cbv [mbind M_bind mret M_ret get raise]. cbn [tables responses].
    fold raw. rewrite Hraw. cbn [negb responses tables BQ.set_tables].
    fold job_table. fold tbls1. rewrite Hd, Hj. reflexivity.
  - cbn [pointer_rows BQ.set_pointer_rows BQ.set_tables].
    rewrite filter_app, filter_cons_True, filter_nil by done.
    unfold BQ.delete_worker.
    assert (filter (λ r, row_worker r = worker)
              (filter (λ r, row_worker r ≠ worker) rows) = []) as ->;
      [|done].
    clear. induction rows as [|r rows IH]; [done|].
    rewrite filter_cons. destruct (decide (row_worker r ≠ worker)); [|done].
    by rewrite filter_cons_False.
Qed.

(** ** The pointer table of a backfill *)

Lemma string_app_inv_head (a b c : string) :
  (a ++ b)%string = (a ++ c)%string → b = c.
Proof. induction a as [|x a IH]; simpl; [done|]. intros [= H]. auto. Qed.

Lemma string_app_assoc (a b c : string) :
  ((a ++ b) ++ c)%string = (a ++ (b ++ c))%string.
Proof.
  induction a as [|x a IH]; [done|].
  change (String x (((a ++ b) ++ c)%string) = String x (a ++ (b ++ c))%string).
  by rewrite IH.
Qed.

(** C3: what the code does. The name of the pointer table of a
    backfill is the primary name followed by the label as it is: the
    underscore that [pointer_table_name] computes goes into a local
    that the returned name does not read. For the label [q1] the table
    is [..._pointer_stateq1], not [..._pointer_state_q1]. *)
Theorem backfill_pointer_table_name (cfg : GoldskyConfig)
  (job_id backfill_label : string) :
  Asset.pointer_table_name
    (goldsky_backfill_asset cfg job_id backfill_label)
  = Asset.pointer_table_name (goldsky_primary_asset cfg job_id)
    ++ backfill_label
  ∧ Asset.pointer_table_name (goldsky_backfill_asset cfg job_id "q1")
    = destination_table_name cfg ++ "_pointer_stateq1"
  ∧ Asset.pointer_table_name (goldsky_backfill_asset cfg job_id "q1")
    ≠ destination_table_name cfg ++ "_pointer_state_q1".
Proof.
  unfold Asset.pointer_table_name, goldsky_backfill_asset,
    goldsky_primary_asset, Asset.__init__.
  cbn [pointer_table_suffix asset_config].
  split; [|split].
  - by rewrite string_app_assoc.
  - done.
  - intros H%string_app_inv_head. discriminate H.
Qed.

(** ** Commits *)

(** C1: what the code does. When the load job raises
    [InternalServerError] on each of the five attempts, [bq_retry]
    ends its loop and returns; [commit_pointer] goes on and commits
    the checkpoint of the batch. Nothing was loaded and the pointer
    has advanced. *)
Theorem commit_pointer_after_failed_load (self : GoldskyWorker)
  (files_to_load : list string) (checkpoint : GoldskyCheckpoint)
  (rows : list PointerRow) (tbls : PyDict.t (list string))
  (bl : list string) (sch : string → list (string * polars.DataType)) :
  Worker.commit_pointer self files_to_load checkpoint
    (mkWorld rows tbls five_server_errors bl sch)
  = Ret ()
      (mkWorld
         (BQ.delete_worker (name self) rows
          ++ [BQ.pointer_row (name self) checkpoint])%list
         tbls [] bl sch).
Proof. reflexivity. Qed.

(** A client error of the load job is raised again at once: the commit
    raises and neither the tables nor the pointer have changed. *)
Lemma commit_pointer_client_error (self : GoldskyWorker)
  (files_to_load : list string) (checkpoint : GoldskyCheckpoint)
  (rows : list PointerRow) (tbls : PyDict.t (list string))
  (rest : list (option exn)) (bl : list string)
  (sch : string → list (string * polars.DataType)) :
  Worker.commit_pointer self files_to_load checkpoint
    (mkWorld rows tbls (Some ClientError :: rest) bl sch)
  = Raise ClientError (mkWorld rows tbls rest bl sch).
Proof. reflexivity. Qed.

(** With a service that answers, the batch is loaded into the raw table
    of the worker and the pointer row is written after it. *)
Lemma commit_pointer_loads_then_commits (self : GoldskyWorker)
  (files_to_load : list string) (checkpoint : GoldskyCheckpoint)
  (rows : list PointerRow) (tbls : PyDict.t (list string))
  (bl : list string) (sch : string → list (string * polars.DataType)) :
  Worker.commit_pointer self files_to_load checkpoint
    (mkWorld rows tbls [] bl sch)
  = Ret ()
      (mkWorld
         (BQ.delete_worker (name self) rows
          ++ [BQ.pointer_row (name self) checkpoint])%list
         (PyDict.set tbls (Worker.raw_table self)
            (default [] (PyDict.get tbls (Worker.raw_table self))
             ++ files_to_load)%list)
         [] bl sch).
Proof. reflexivity. Qed.

(** The direct commit, when the transaction runs: the worker has one
    row, the new one. *)
Lemma update_pointer_table_one_row (self : GoldskyWorker)
  (new_checkpoint : GoldskyCheckpoint) (rows : list PointerRow)
  (tbls : PyDict.t (list string)) (bl : list string)
  (sch : string → list (string * polars.DataType)) :
  ∃ w',
    Worker.update_pointer_table self new_checkpoint
      (mkWorld rows tbls [] bl sch) = Ret (Some ()) w'
    ∧ filter (λ r, row_worker r = name self) (pointer_rows w')
      = [BQ.pointer_row (name self) new_checkpoint].
Proof.
  eexists. split; [reflexivity|]. simpl.
  rewrite filter_app, filter_cons_True, filter_nil by done.
  unfold BQ.delete_worker.
  assert (filter (λ r, row_worker r = name self)
            (filter (λ r, row_worker r ≠ name self) rows) = []) as ->;
    [|done].
  induction rows as [|r rows IH]; [done|].
  rewrite filter_cons. destruct (decide (row_worker r ≠ name self)); [|done].
  by rewrite filter_cons_False.
Qed.

(** C2: what the code does on the new-table path. When the worker's
    raw table does not exist, [blocking_update_pointer_table] inserts
    the new pointer row and deletes none: every row the pointer table
    had is still there, so a worker that had a row now has two. *)
Theorem blocking_update_new_table_keeps_rows (config : GoldskyConfig)
  (job_id worker : string) (new_checkpoint : GoldskyCheckpoint)
  (wildcard_path : string) (rows : list PointerRow)
  (tbls : PyDict.t (list string)) (bl : list string)
  (sch : string → list (string * polars.DataType))
  (Hnew : PyDict.get tbls (destination_table_name config ++ "_" ++ worker)
          = None) :
  ∃ w',
    blocking_update_pointer_table config job_id worker new_checkpoint
      wildcard_path (mkWorld rows tbls [] bl sch) = Ret () w'
    ∧ pointer_rows w' = (rows ++ [BQ.pointer_row worker new_checkpoint])%list
    ∧ filter (λ r, row_worker r = worker) (pointer_rows w')
      = (filter (λ r, row_worker r = worker) rows
         ++ [BQ.pointer_row worker new_checkpoint])%list.
Proof.
  eexists. split.
  - unfold blocking_update_pointer_table, try_except, BQ.get_table.
    cbv [mbind M_bind mret M_ret get raise]. cbn [tables].
    rewrite Hnew. reflexivity.
  - split; [done|]. simpl.
    by rewrite filter_app, filter_cons_True, filter_nil.
Qed.

(** On the example world, which has no table yet and whose pointer has
    a row for worker 0: after the commit it has two. *)
Lemma blocking_update_new_table_keeps_rows_witness :
  ∃ w',
    blocking_update_pointer_table example_config "202401010000" "0"
      (mkGoldskyCheckpoint example_job 100 3) "gs://bucket/table_*.parquet"
      example_world = Ret () w'
    ∧ pointer_rows w'
      = [mkPointerRow "0" example_job 100 2;
         mkPointerRow "0" example_job 100 3]
    ∧ filter (λ r, row_worker r = "0") (pointer_rows w')
      = [mkPointerRow "0" example_job 100 2;
         mkPointerRow "0" example_job 100 3].
Proof.
  apply (blocking_update_new_table_keeps_rows example_config "202401010000"
           "0" (mkGoldskyCheckpoint example_job 100 3)
           "gs://bucket/table_*.parquet"
           [mkPointerRow "0" example_job 100 2] [] _ _).
  reflexivity.
Defined.

(** ** A cap of zero *)

(** On a queue whose cap is used up, as the cap 0 is from the start,
    the first [dequeue] of [run_load_bigquery_load] returns [None] and
    the method reads [item.checkpoint] of it before the loop tests the
    item. *)
Lemma run_load_at_cap (self : GoldskyWorker) (q : GoldskyQueue)
  (w : World) :
  max_size q ≤ _dequeues q →
  Worker.run_load_bigquery_load self (q, w) = Raise AttributeError (q, w).
Proof.
  intros Hcap.
  unfold Worker.run_load_bigquery_load, in_queue, on_field.
  cbv [mbind M_bind]. cbn [fst snd].
  by rewrite (dequeue_cap q Hcap).
Qed.

Lemma items_of_not_nil (l : list item_ref) :
  Forall is_Some l → l ≠ [] → items_of l ≠ [].
Proof.
  intros Hsome Hne Hnil. apply items_of_Some in Hsome.
  rewrite Hnil in Hsome. done.
Qed.

(** C9: what the code does. With [max_objects_to_load = 0] and no
    schema overrides, a run reads the pointer and lists the blobs; no
    load job runs and no pointer row changes. It returns, with no
    worker, only when DISCOVER finds no blob to load. When there is a
    blob to load, its worker's queue has the cap 0, the first
    [dequeue] returns [None], and [run_load_bigquery_load] raises
    [AttributeError] on [item.checkpoint]: the run fails. *)
Theorem zero_cap_run (self : GoldskyAsset)
  (checkpoint_range : option GoldskyCheckpointRange) (w w' : World)
  (worker_status : PyDict.t GoldskyCheckpoint)
  (Hstatus : Asset.get_worker_status self w = Ret worker_status w')
  (Hzero : max_objects_to_load (asset_config self) = 0)
  (Hschema : schema_overrides (asset_config self) = []) :
  same_data w w'
  ∧ ((∃ worker blob,
        blob ∈ blobs w'
        ∧ is_Some (discovered self worker_status checkpoint_range worker
                     blob)) →
     Asset.direct_load_worker_tables self checkpoint_range w
       = Raise AttributeError w')
  ∧ ((∀ worker blob,
        blob ∈ blobs w' →
        discovered self worker_status checkpoint_range worker blob = None) →
     Asset.direct_load_worker_tables self checkpoint_range w = Ret [] w').
Proof.
  split.
  { pose proof (get_worker_status_read_only self w) as H.
    by rewrite Hstatus in H. }
  destruct (load_queues_to_process_spec self checkpoint_range w w'
              worker_status Hstatus) as (qs & Hrun & Hfresh & Hmax & Hitems).
  assert (Hgo : Asset.direct_load_worker_tables self checkpoint_range w =
                Asset.process_workers self worker_status []
                  (Queues.worker_queues qs) w').
  { unfold Asset.direct_load_worker_tables. cbv [mbind M_bind].
    rewrite Hrun, Hschema. reflexivity. }
  rewrite Hgo. unfold Queues.worker_queues, PyDict.items.
  destruct (queues qs) as [|[k0 q0] rest] eqn:Hqs.
  - split; [|done]. intros (worker & blob & Hin & [item Hitem]).
    exfalso. specialize (Hitems worker). unfold queue_of in Hitems.
    rewrite Hqs in Hitems. simpl in Hitems.
    apply Permutation_nil in Hitems.
    assert (item ∈ omap (discovered self worker_status checkpoint_range
                           worker) (blobs w')) as Hmem.
    { apply list_elem_of_omap. by exists blob. }
    rewrite Hitems in Hmem. by apply elem_of_nil in Hmem.
  - assert (PyDict.get (queues qs) k0 = Some q0) as Hget.
    { rewrite Hqs. simpl. by rewrite String.eqb_refl. }
    destruct (Hfresh k0 q0 Hget) as ((Hsome & _) & Hne & Hm & Hd).
    split.
    + intros _. cbn [Asset.process_workers]. cbv [mbind M_bind].
      unfold on_field at 1. rewrite run_load_at_cap; [done|]. lia.
    + intros Hnone. exfalso.
      apply (items_of_not_nil (queue q0) Hsome Hne).
      specialize (Hitems k0). unfold queue_of in Hitems.
      rewrite Hget in Hitems. apply Permutation_nil. rewrite Hitems.
      clear -Hnone. induction (blobs w') as [|b l IH]; [done|].
      cbn [omap list_omap]. rewrite (Hnone k0 b) by apply list_elem_of_here.
      apply IH. intros worker blob Hin. apply Hnone.
      by apply list_elem_of_further.
Qed.

(** Over the example bucket, where blob 3 of worker 0 is above the
    pointer, the run with a cap of zero raises. *)
Lemma zero_cap_run_witness :
  same_data example_world example_world
  ∧ Asset.direct_load_worker_tables zero_cap_asset None example_world
    = Raise AttributeError example_world.
Proof.
  destruct (zero_cap_run zero_cap_asset None example_world example_world
              example_status eq_refl eq_refl eq_refl) as (Hsame & Hraise & _).
  split; [exact Hsame|]. apply Hraise.
  exists "0", (example_blob "0" "3"). split.
  - apply list_elem_of_further, list_elem_of_further, list_elem_of_here.
  - vm_compute. eexists. reflexivity.
Defined.

(** ** The clean-up job *)

Lemma clean_up_read_only (self : GoldskyAsset) :
  read_only (Asset.clean_up self).
Proof.
  unfold Asset.clean_up.
  apply read_only_bind; [apply get_worker_status_read_only|]. intros ws.
  apply read_only_bind; [apply read_only_lift|]. intros e.
  apply read_only_bind; [apply load_queues_read_only|]. intros qs.
  apply read_only_for_each. intros [k q] w. simpl.
  destruct (Asset.clean_up_worker self q); apply same_data_refl.
Qed.

Lemma dict_get_elem {V} (d : PyDict.t V) (k : string) (v : V) :
  PyDict.get d k = Some v → (k, v) ∈ d.
Proof.
  induction d as [|[k' v'] d IH]; simpl; [done|].
  destruct (String.eqb_spec k' k) as [->|Hne].
  - intros [= ->]. apply list_elem_of_here.
  - intros H. apply list_elem_of_further. auto.
Qed.

(** The loop of [clean_up] over the pointer rows keeps the least
    checkpoint seen. *)
Lemma end_checkpoint_loop_min (items : list (string * GoldskyCheckpoint)) :
  ∀ e0, ∃ e,
    Asset.end_checkpoint_loop items (Some e0) = inr (Some e)
    ∧ Checkpoint.__le__ e e0 = true
    ∧ (e = e0 ∨ ∃ k, (k, e) ∈ items)
    ∧ ∀ k c, (k, c) ∈ items → Checkpoint.__le__ e c = true.
Proof.
  induction items as [|[k0 c0] items IH]; intros e0.
  { exists e0. split; [done|]. split; [apply cp_le_refl|].
    split; [by left|]. intros k c Hin. by apply elem_of_nil in Hin. }
  cbn [Asset.end_checkpoint_loop].
  destruct (Checkpoint.__lt__ c0 e0) eqn:Hlt.
  - destruct (IH c0) as (e & Hrun & Hle & Hmem & Hmin).
    exists e. split; [done|].
    assert (Checkpoint.__le__ c0 e0 = true) as Hc0
      by (apply cp_le_spec; by left).
    split; [by apply (cp_le_trans _ c0)|]. split.
    + right. destruct Hmem as [->|[k Hk]].
      * exists k0. apply list_elem_of_here.
      * exists k. by apply list_elem_of_further.
    + intros k c [[= -> ->]|Hin]%elem_of_cons; [done|by eapply Hmin].
  - destruct (IH e0) as (e & Hrun & Hle & Hmem & Hmin).
    exists e. split; [done|]. split; [done|]. split.
    + destruct Hmem as [->|[k Hk]]; [by left|].
      right. exists k. by apply list_elem_of_further.
    + intros k c [[= -> ->]|Hin]%elem_of_cons; [|by eapply Hmin].
      apply (cp_le_trans _ e0); [done|].
      rewrite cp_le_not_lt. by rewrite Hlt.
Qed.

(** C8, as stated, fails: the clean-up job does not return with the
    older blob of worker 0 deleted. Its call of [load_queues] passes
    no [worker_status], and [load_queues] raises on it after its loop;
    and no call of the job deletes a blob. *)
Lemma clean_up_deletes_older_blobs_fails :
  ¬ (∃ w', Asset.clean_up example_asset cleanup_world = Ret () w'
           ∧ example_blob "0" "1" ∉ blobs w').
Proof. intros (w' & Hrun & _). vm_compute in Hrun. discriminate Hrun. Qed.

(** C8 (amended). For every pointer state and source listing, the
    clean-up job leaves the bucket, the pointer table and the staging
    tables as they were, whether it returns or raises: it deletes no
    blob. It reads the pointer, and from a pointer in which worker "0"
    has a row it computes the least checkpoint of all the workers,
    which is the checkpoint of one of them. *)
Theorem clean_up_reads_and_deletes_nothing (self : GoldskyAsset)
  (w : World) :
  same_data w (state_of (Asset.clean_up self w))
  ∧ ∀ worker_status w',
      Asset.get_worker_status self w = Ret worker_status w' →
      is_Some (PyDict.get worker_status "0") →
      ∃ e, Asset.clean_up_end_checkpoint worker_status = inr (Some e)
           ∧ (∃ k, (k, e) ∈ worker_status)
           ∧ ∀ k c, (k, c) ∈ worker_status → Checkpoint.__le__ e c = true.
Proof.
  split; [apply clean_up_read_only|].
  intros ws w' _ [e0 He0]. unfold Asset.clean_up_end_checkpoint. rewrite He0.
  destruct (end_checkpoint_loop_min (PyDict.items ws) e0)
    as (e & Hrun & _ & Hmem & Hmin).
  exists e. split; [done|]. split; [|done].
  destruct Hmem as [->|Hk]; [|done]. exists "0". by apply dict_get_elem.
Qed.

(** On the example bucket with the pointer at checkpoint 3. *)
Lemma clean_up_reads_and_deletes_nothing_witness :
  same_data cleanup_world
    (state_of (Asset.clean_up example_asset cleanup_world))
  ∧ ∃ e, Asset.clean_up_end_checkpoint
           [("0", mkGoldskyCheckpoint example_job 100 3)] = inr (Some e)
         ∧ (∃ k, (k, e) ∈ [("0", mkGoldskyCheckpoint example_job 100 3)])
         ∧ ∀ k c, (k, c) ∈ [("0", mkGoldskyCheckpoint example_job 100 3)] →
                  Checkpoint.__le__ e c = true.
Proof.
  split.
  - apply (clean_up_reads_and_deletes_nothing example_asset cleanup_world).
  - apply (proj2 (clean_up_reads_and_deletes_nothing example_asset
                    cleanup_world) _ cleanup_world).
    + reflexivity.
    + by eexists.
Defined.

(** * Part IV: further properties of the program *)

(** ** Strings *)

Local Arguments String.append !_ _ / : simpl nomatch.

Lemma string_app_nil_r (a : string) : (a ++ "")%string = a.
Proof. induction a as [|x a IH]; simpl; [done|]. by rewrite IH. Qed.

Lemma string_app_inv_tail_nil (a b : string) :
  (a ++ b)%string = a → b = "".
Proof.
  intros H. apply (string_app_inv_head a). by rewrite string_app_nil_r.
Qed.

(** Appends are put in one shape: associated to the right, with
    literal characters in front. *)
Ltac str_norm :=
  repeat first [rewrite string_app_assoc | progress simpl String.append].

(** ** The pieces of the pattern *)

Lemma lit_app (p r : string) : Re.lit p (p ++ r) = Some r.
Proof.
  induction p as [|c p IH]; simpl; [done|]. by rewrite Ascii.eqb_refl.
Qed.

Lemma lit_inv (p s r : string) : Re.lit p s = Some r → s = (p ++ r)%string.
Proof.
  revert s. induction p as [|c p IH]; intros s; simpl; [by intros [= ->]|].
  destruct s as [|x s]; [done|].
  destruct (Ascii.eqb_spec c x) as [->|]; [|done].
  intros H%IH. by rewrite H.
Qed.

Lemma span_digits_inv (s d r : string) :
  Re.span_digits s = (d, r) →
  s = (d ++ r)%string ∧ all_digits d = true ∧ no_digit_ahead r.
Proof.
  revert d r. induction s as [|c s IH]; intros d r; simpl.
  - by intros [= <- <-].
  - destruct (Re.is_digit c) eqn:Hc.
    + destruct (Re.span_digits s) as [d' r'].
      destruct (IH d' r' eq_refl) as (-> & Hd & Hr).
      intros [= <- <-]. simpl. by rewrite Hc.
    + intros [= <- <-]. by simpl.
Qed.

Lemma span_digits_app (d r : string) :
  all_digits d = true → no_digit_ahead r → Re.span_digits (d ++ r) = (d, r).
Proof.
  intros Hd Hr. induction d as [|c d IH]; simpl.
  - destruct r as [|x r]; [done|]. simpl in *. by rewrite Hr.
  - simpl in Hd. apply andb_true_iff in Hd as [Hc Hd].
    by rewrite Hc, (IH Hd).
Qed.

Lemma hex_inv (n : nat) :
  ∀ s h r, Re.hex n s = Some (h, r) →
           s = (h ++ r)%string ∧ hex_group n h = true.
Proof.
  unfold hex_group.
  induction n as [|n IH]; intros s h r; simpl.
  - by intros [= <- <-].
  - destruct s as [|c s]; [done|].
    destruct (Re.is_hex c) eqn:Hc; [|done].
    destruct (Re.hex n s) as [[h' r']|] eqn:Hh; [|done].
    destruct (IH _ _ _ Hh) as (-> & [Hlen Hall]%andb_true_iff).
    intros [= <- <-]. simpl. split; [done|].
    by rewrite Hc, Hall, Hlen.
Qed.

Lemma hex_app (n : nat) :
  ∀ h r, hex_group n h = true → Re.hex n (h ++ r) = Some (h, r).
Proof.
  unfold hex_group.
  induction n as [|n IH]; intros h r [Hlen Hall]%andb_true_iff.
  - by destruct h.
  - destruct h as [|c h]; [done|]. simpl in *.
    apply andb_true_iff in Hall as [Hc Hall].
    rewrite Hc, (IH h r); [done|]. by rewrite Hlen, Hall.
Qed.

Lemma digits_not_empty (d : string) : digits d = true → d ≠ "".
Proof. unfold digits. by destruct d. Qed.

Lemma digits_all (d : string) : digits d = true → all_digits d = true.
Proof. unfold digits. by intros [_ H]%andb_true_iff. Qed.

Lemma digits_intro (d : string) :
  d ≠ "" → all_digits d = true → digits d = true.
Proof. unfold digits. destruct d; [done|]. by intros _ ->. Qed.

Lemma digits_then_inv (s d r : string) :
  Re.digits_then "-" s = Some (d, r) →
  s = (d ++ "-" ++ r)%string ∧ digits d = true.
Proof.
  unfold Re.digits_then.
  destruct (Re.span_digits s) as [d' r'] eqn:Hspan.
  apply span_digits_inv in Hspan as (-> & Hd & _).
  destruct d' as [|c d']; [done|].
  destruct (Re.lit "-" r') as [r''|] eqn:Hlit; [|done].
  apply lit_inv in Hlit as ->. intros [= <- <-].
  split; [done|]. by apply digits_intro.
Qed.

Lemma digits_then_app (d r : string) :
  digits d = true → Re.digits_then "-" (d ++ "-" ++ r) = Some (d, r).
Proof.
  intros Hd. unfold Re.digits_then.
  rewrite span_digits_app; [|by apply digits_all|done].
  apply digits_not_empty in Hd. destruct d; [done|].
  by rewrite lit_app.
Qed.

Lemma uuid_inv (s job r : string) :
  Re.uuid s = Some (job, r) →
  s = (job ++ r)%string
  ∧ ∃ a b c d e, job = uuid_of a b c d e ∧ uuid_groups a b c d e = true.
Proof.
  unfold Re.uuid.
  destruct (Re.hex 8 s) as [[a r1]|] eqn:Ha; [|done].
  destruct (Re.lit "-" r1) as [r2|] eqn:H1; [|done].
  destruct (Re.hex 4 r2) as [[b r3]|] eqn:Hb; [|done].
  destruct (Re.lit "-" r3) as [r4|] eqn:H2; [|done].
  destruct (Re.hex 4 r4) as [[c r5]|] eqn:Hc; [|done].
  destruct (Re.lit "-" r5) as [r6|] eqn:H3; [|done].
  destruct (Re.hex 4 r6) as [[d r7]|] eqn:Hd; [|done].
  destruct (Re.lit "-" r7) as [r8|] eqn:H4; [|done].
  destruct (Re.hex 12 r8) as [[e r9]|] eqn:He; [|done].
  intros [= <- <-].
  apply hex_inv in Ha as (-> & Ha), Hb as (-> & Hb), Hc as (-> & Hc),
    Hd as (-> & Hd), He as (-> & He).
  apply lit_inv in H1 as ->, H2 as ->, H3 as ->, H4 as ->.
  split.
  - by str_norm.
  - exists a, b, c, d, e. split; [done|].
    unfold uuid_groups. by rewrite Ha, Hb, Hc, Hd, He.
Qed.

Lemma uuid_app (a b c d e r : string) :
  uuid_groups a b c d e = true →
  Re.uuid (uuid_of a b c d e ++ r) = Some (uuid_of a b c d e, r).
Proof.
  unfold uuid_groups, uuid_of.
  intros [[[[Ha Hb]%andb_true_iff Hc]%andb_true_iff Hd]%andb_true_iff
            He]%andb_true_iff.
  unfold Re.uuid. str_norm.
  rewrite (hex_app 8 a _ Ha). cbn [Re.lit]. rewrite Ascii.eqb_refl.
  rewrite (hex_app 4 b _ Hb). cbn [Re.lit]. rewrite Ascii.eqb_refl.
  rewrite (hex_app 4 c _ Hc). cbn [Re.lit]. rewrite Ascii.eqb_refl.
  rewrite (hex_app 4 d _ Hd). cbn [Re.lit]. rewrite Ascii.eqb_refl.
  rewrite (hex_app 12 e _ He). by str_norm.
Qed.

Lemma init_snoc (s : string) (x : ascii) :
  Re.init (s ++ String x "") = s.
Proof.
  induction s as [|c s IH]; simpl; [done|].
  rewrite IH. by destruct s.
Qed.

Lemma last_char_snoc (s : string) (x : ascii) :
  Re.last_char (s ++ String x "") = Some x.
Proof.
  induction s as [|c s IH]; simpl; [done|].
  rewrite IH. by destruct s.
Qed.

Lemma init_last_char (s : string) :
  s ≠ "" →
  ∃ x, Re.last_char s = Some x ∧ s = (Re.init s ++ String x "")%string.
Proof.
  induction s as [|c s IH]; [done|]. intros _.
  destruct s as [|c' s]; [by exists c|].
  destruct IH as (x & Hlast & Hs); [done|].
  exists x. split; [done|].
  change (String c (String c' s) =
          String c (Re.init (String c' s) ++ String x "")).
  by rewrite <-Hs.
Qed.

Lemma all_digits_app (a b : string) :
  all_digits (a ++ b) = all_digits a && all_digits b.
Proof.
  induction a as [|c a IH]; simpl; [done|]. by rewrite IH, andb_assoc.
Qed.

Lemma checkpoint_tail_match_inv (r cp tl : string) :
  checkpoint_tail_match r = Some (cp, tl) →
  ∃ dot rest,
    tl = String dot "parquet"
    ∧ r = (cp ++ String dot "parquet" ++ rest)%string
    ∧ digits cp = true ∧ dot ≠ "010"%char.
Proof.
  unfold checkpoint_tail_match, Re.checkpoint_tail,
    Re.checkpoint_tail_backtrack.
  destruct (Re.span_digits r) as [d r'] eqn:Hspan.
  apply span_digits_inv in Hspan as (-> & Hd & _).
  destruct d as [|c0 d0]; [done|]. set (d := String c0 d0) in *.
  assert (Hback :
    match Re.init d, Re.last_char d, Re.lit "parquet" r' with
    | String c d', Some x, Some _ => Some (String c d', String x "parquet")
    | _, _, _ => None
    end = Some (cp, tl) →
    ∃ dot rest,
      tl = String dot "parquet"
      ∧ (d ++ r')%string = (cp ++ String dot "parquet" ++ rest)%string
      ∧ digits cp = true ∧ dot ≠ "010"%char).
  { destruct (init_last_char d) as (x & Hlast & Hinit); [done|].
    rewrite Hlast.
    destruct (Re.init d) as [|c d'] eqn:Hi; [done|].
    destruct (Re.lit "parquet" r') as [rest|] eqn:Hlit; [|done].
    apply lit_inv in Hlit as ->. intros [= <- <-].
    exists x, rest. split; [done|].
    rewrite Hinit in Hd |- *. rewrite all_digits_app in Hd.
    apply andb_true_iff in Hd as [Hcp Hx]. split; [by str_norm|].
    split; [by apply digits_intro|].
    simpl in Hx. intros ->. discriminate Hx. }
  destruct (Re.any_char r') as [[c r'']|] eqn:Hany; [|exact Hback].
  destruct (Re.lit "parquet" r'') as [rest|] eqn:Hlit; [|exact Hback].
  clear Hback. intros [= <- <-].
  unfold Re.any_char in Hany. destruct r' as [|c' r']; [done|].
  destruct (Ascii.eqb_spec c' "010") as [|Hnl]; [done|].
  injection Hany as -> ->. apply lit_inv in Hlit as ->.
  exists c, rest. split; [done|]. split; [done|].
  split; [by apply digits_intro|done].
Qed.

Lemma checkpoint_tail_match_app (cp rest : string) (dot : ascii) :
  digits cp = true → dot ≠ "010"%char →
  checkpoint_tail_match (cp ++ String dot "parquet" ++ rest)
  = Some (cp, String dot "parquet").
Proof.
  intros Hcp Hdot.
  pose proof (digits_not_empty _ Hcp) as Hne.
  pose proof (digits_all _ Hcp) as Hall.
  unfold checkpoint_tail_match, Re.checkpoint_tail,
    Re.checkpoint_tail_backtrack.
  destruct (Re.is_digit dot) eqn:Hdigit.
  - replace (cp ++ String dot "parquet" ++ rest)%string
      with ((cp ++ String dot "") ++ "parquet" ++ rest)%string
      by by str_norm.
    rewrite span_digits_app;
      [|by rewrite all_digits_app, Hall; simpl; rewrite Hdigit|done].
    rewrite init_snoc, last_char_snoc.
    destruct cp as [|c cp]; [done|]. by simpl.
  - change (cp ++ String dot "parquet" ++ rest)%string
      with (cp ++ String dot ("parquet" ++ rest))%string.
    rewrite span_digits_app; [|done|done].
    destruct cp as [|c cp]; [done|].
    unfold Re.any_char. destruct (Ascii.eqb_spec dot "010"); [done|].
    by rewrite lit_app.
Qed.

(** ** What the pattern matches, exactly *)

Lemma match_inv (prefix name : string) (m : re_Match) :
  Re.match_ prefix name = Some m →
  ∃ ts a b c d e worker cp dot rest,
    digits ts = true ∧ uuid_groups a b c d e = true
    ∧ digits worker = true ∧ digits cp = true ∧ dot ≠ "010"%char
    ∧ name =
        (goldsky_blob_name prefix ts (uuid_of a b c d e) worker cp dot
         ++ rest)%string
    ∧ m = mkMatch
            (goldsky_blob_name prefix ts (uuid_of a b c d e) worker cp dot)
            ts (uuid_of a b c d e) worker cp.
Proof.
  unfold Re.match_.
  destruct (Re.lit prefix name) as [r1|] eqn:H1; [|done].
  destruct (Re.lit "/" r1) as [r2|] eqn:H2; [|done].
  destruct (Re.digits_then "-" r2) as [[ts r3]|] eqn:Hts; [|done].
  destruct (Re.uuid r3) as [[job r4]|] eqn:Hjob; [|done].
  destruct (Re.lit "-" r4) as [r5|] eqn:H5; [|done].
  destruct (Re.digits_then "-" r5) as [[w r6]|] eqn:Hw; [|done].
  fold (checkpoint_tail_match r6).
  destruct (checkpoint_tail_match r6) as [[cp tl]|] eqn:Hcp; [|done].
  intros [= <-].
  apply lit_inv in H1 as ->, H2 as ->, H5 as ->.
  apply digits_then_inv in Hts as (-> & Hts), Hw as (-> & Hw).
  apply uuid_inv in Hjob as (-> & a & b & c & d & e & -> & Hjob).
  apply checkpoint_tail_match_inv in Hcp
    as (dot & rest & -> & -> & Hcp & Hdot).
  exists ts, a, b, c, d, e, w, cp, dot, rest.
  repeat (split; [done|]). split; [|done].
  unfold goldsky_blob_name. by str_norm.
Qed.

Lemma match_app (prefix ts a b c d e worker cp rest : string)
  (dot : ascii) :
  digits ts = true → uuid_groups a b c d e = true →
  digits worker = true → digits cp = true → dot ≠ "010"%char →
  Re.match_ prefix
    (goldsky_blob_name prefix ts (uuid_of a b c d e) worker cp dot ++ rest)
  = Some (mkMatch
            (goldsky_blob_name prefix ts (uuid_of a b c d e) worker cp dot)
            ts (uuid_of a b c d e) worker cp).
Proof.
  intros Hts Hjob Hw Hcp Hdot.
  unfold Re.match_, goldsky_blob_name.
  rewrite ?string_app_assoc.
  rewrite lit_app. cbv beta iota.
  rewrite (lit_app "/"). cbv beta iota.
  rewrite (digits_then_app ts _ Hts). cbv beta iota.
  rewrite (uuid_app a b c d e _ Hjob). cbv beta iota.
  rewrite (lit_app "-"). cbv beta iota.
  rewrite (digits_then_app worker _ Hw). cbv beta iota.
  fold (checkpoint_tail_match
          (cp ++ String dot "parquet" ++ rest)%string).
  by rewrite (checkpoint_tail_match_app cp rest dot Hcp Hdot).
Qed.

(** X1: the blob-name pattern matches exactly the names that start
    with the directory and source name, [/], a timestamp of digits, a
    job id of five groups of hexadecimal digits, a worker and a
    checkpoint of digits, any character but a newline, and [parquet];
    the groups are these pieces, and what follows [parquet] in the
    name is not part of the match. *)
Theorem goldsky_re_matches_exactly (self : GoldskyAsset) (name : string)
  (m : re_Match) :
  Asset.goldsky_re_match self name = Some m ↔
  ∃ ts a b c d e worker cp dot rest,
    digits ts = true ∧ uuid_groups a b c d e = true
    ∧ digits worker = true ∧ digits cp = true ∧ dot ≠ "010"%char
    ∧ name =
        (goldsky_blob_name (Asset.goldsky_re_prefix self) ts
           (uuid_of a b c d e) worker cp dot ++ rest)%string
    ∧ m = mkMatch
            (goldsky_blob_name (Asset.goldsky_re_prefix self) ts
               (uuid_of a b c d e) worker cp dot)
            ts (uuid_of a b c d e) worker cp.
Proof.
  unfold Asset.goldsky_re_match. split.
  - apply match_inv.
  - intros (ts & a & b & c & d & e & worker & cp & dot & rest
            & Hts & Hjob & Hw & Hcp & Hdot & -> & ->).
    by apply match_app.
Qed.

(** ** Checkpoint ranges *)

Lemma hex_not_below_zero (x : ascii) :
  Re.is_hex x = true → Ascii.compare x "0" ≠ Lt.
Proof.
  unfold Re.is_hex, Re.is_digit, Ascii.compare.
  intros H. apply N.compare_ge_iff.
  change (N_of_ascii "0") with 48%N.
  apply orb_true_iff in H as [H|H]; apply andb_true_iff in H as [H1 H2];
    apply N.leb_le in H1, H2; lia.
Qed.

Lemma uuid_not_below_zero (a b c d e : string) :
  uuid_groups a b c d e = true → PyStr.lt (uuid_of a b c d e) "0" = false.
Proof.
  unfold uuid_groups, hex_group.
  intros [[[[[Hlen Ha]%andb_true_iff _]%andb_true_iff _]%andb_true_iff
            _]%andb_true_iff _]%andb_true_iff.
  destruct a as [|x a]; [done|]. simpl in Ha.
  apply andb_true_iff in Ha as [Hx _].
  unfold PyStr.lt, String.ltb, uuid_of. simpl.
  pose proof (hex_not_below_zero x Hx) as Hcmp.
  destruct (Ascii.compare x "0"); [|done|done].
  by destruct (a ++ _)%string.
Qed.

(** Every checkpoint parsed from a blob name is at or above the start
    that a range takes when none is given. *)
Lemma match_above_default_start (prefix name : string) (m : re_Match) :
  Re.match_ prefix name = Some m →
  Checkpoint.__ge__ (Asset.checkpoint_of_match m)
    (mkGoldskyCheckpoint "0" 0 0) = true.
Proof.
  intros Hm. destruct (match_groups _ _ _ Hm) as [Hts _].
  apply match_inv in Hm
    as (ts & a & b & c & d & e & worker & cp & dot & rest
        & _ & Hjob & _ & _ & _ & _ & ->).
  rewrite cp_ge_not_lt. apply negb_true_iff.
  unfold Checkpoint.__lt__, Asset.checkpoint_of_match, int.
  cbn [timestamp job_id worker_checkpoint group_timestamp group_job_id
       group_checkpoint] in *.
  pose proof (int_acc_nonneg ts 0 ltac:(done) Hts) as Hnn.
  destruct (Z.ltb_spec (int_acc 0 ts) 0); [lia|].
  destruct (Z.eqb_spec (int_acc 0 ts) 0); [|done].
  cbn [negb]. rewrite (uuid_not_below_zero _ _ _ _ _ Hjob).
  assert (PyStr.ne (uuid_of a b c d e) "0" = true) as ->; [|done].
  apply str_ne_spec. unfold uuid_groups, hex_group in Hjob.
  intros Heq. unfold uuid_of in Heq.
  destruct a as [|x [|y a]]; [done|done|]. discriminate Heq.
Qed.

(** X2: a range built without a start does not exclude any blob the
    pattern matches by its lower bound: such a blob is in the range
    exactly when its checkpoint is below the end, or when there is no
    end. *)
Theorem default_start_admits_every_match (self : GoldskyAsset)
  (name : string) (m : re_Match) (end_ : option GoldskyCheckpoint)
  (Hm : Asset.goldsky_re_match self name = Some m) :
  CheckpointRange.in_range (CheckpointRange.__init__ None end_)
    (Asset.checkpoint_of_match m)
  = match end_ with
    | None => true
    | Some e => Checkpoint.__lt__ (Asset.checkpoint_of_match m) e
    end.
Proof.
  cbv [CheckpointRange.in_range CheckpointRange.__init__ _start _end
       default from_option id].
  by rewrite (match_above_default_start _ _ _ Hm).
Qed.

(** For the third blob of worker 0 in the example bucket and a range
    with neither start nor end. *)
Lemma default_start_admits_every_match_witness :
  CheckpointRange.in_range (CheckpointRange.__init__ None None)
    (Asset.checkpoint_of_match
       (mkMatch (example_blob "0" "3") "100" example_job "0" "3"))
  = true.
Proof.
  apply (default_start_admits_every_match example_asset
           (example_blob "0" "3")
           (mkMatch (example_blob "0" "3") "100" example_job "0" "3") None).
  reflexivity.
Defined.

(** X3: two ranges that meet at a checkpoint [m] split the range from
    the start of the first to the end of the second: a checkpoint is in
    the whole range exactly when it is in one of the two, and it is
    never in both. *)
Theorem in_range_split (start m c : GoldskyCheckpoint)
  (end_ : option GoldskyCheckpoint)
  (Hsm : Checkpoint.__le__ start m = true)
  (Hme : ∀ e, end_ = Some e → Checkpoint.__le__ m e = true) :
  let whole := CheckpointRange.__init__ (Some start) end_ in
  let low := CheckpointRange.__init__ (Some start) (Some m) in
  let high := CheckpointRange.__init__ (Some m) end_ in
  CheckpointRange.in_range whole c
    = CheckpointRange.in_range low c || CheckpointRange.in_range high c
  ∧ CheckpointRange.in_range low c && CheckpointRange.in_range high c
    = false.
Proof.
  cbv [CheckpointRange.in_range CheckpointRange.__init__ _start _end
       default from_option id].
  rewrite !cp_ge_not_lt.
  destruct (Checkpoint.__lt__ c m) eqn:Hcm; cbn [negb].
  - rewrite andb_false_r, orb_false_r. split; [|done].
    destruct (Checkpoint.__lt__ c start) eqn:Hcs; cbn [negb]; [done|].
    destruct end_ as [e|]; [|done].
    specialize (Hme e eq_refl). apply cp_le_spec in Hme as [Hme| <-].
    + by eapply cp_lt_trans.
    + done.
  - assert (Checkpoint.__lt__ c start = false) as ->.
    { destruct (Checkpoint.__lt__ c start) eqn:Hcs; [|done].
      apply cp_le_spec in Hsm as [Hsm| ->]; [|congruence].
      by rewrite (cp_lt_trans _ _ _ Hcs Hsm) in Hcm. }
    cbn [negb]. split; [done|].
    by destruct end_ as [e|]; [destruct (Checkpoint.__lt__ c e)|].
Qed.

(** For the ranges from checkpoint 0 to 5 and from 5 on, at
    checkpoint 3. *)
Lemma in_range_split_witness :
  let start := mkGoldskyCheckpoint example_job 100 0 in
  let m := mkGoldskyCheckpoint example_job 100 5 in
  let c := mkGoldskyCheckpoint example_job 100 3 in
  CheckpointRange.in_range (CheckpointRange.__init__ (Some start) None) c
    = CheckpointRange.in_range
        (CheckpointRange.__init__ (Some start) (Some m)) c
      || CheckpointRange.in_range (CheckpointRange.__init__ (Some m) None) c
  ∧ CheckpointRange.in_range
      (CheckpointRange.__init__ (Some start) (Some m)) c
    && CheckpointRange.in_range (CheckpointRange.__init__ (Some m) None) c
    = false.
Proof.
  apply (in_range_split (mkGoldskyCheckpoint example_job 100 0)
           (mkGoldskyCheckpoint example_job 100 5)
           (mkGoldskyCheckpoint example_job 100 3) None).
  - reflexivity.
  - intros e He. discriminate He.
Defined.

(** ** Pointer tables *)

(** X4: two backfills of one configuration use the same pointer table
    only when their labels are equal, and a backfill uses the pointer
    table of the primary run only when its label is empty. *)
Theorem pointer_table_isolation (cfg : GoldskyConfig)
  (job1 job2 label1 label2 : string) :
  (Asset.pointer_table (goldsky_backfill_asset cfg job1 label1)
   = Asset.pointer_table (goldsky_backfill_asset cfg job2 label2)
   ↔ label1 = label2)
  ∧ (Asset.pointer_table (goldsky_backfill_asset cfg job1 label1)
     = Asset.pointer_table (goldsky_primary_asset cfg job2)
     ↔ label1 = "").
Proof.
  assert (H : ∀ l1 l2,
    Asset.pointer_table (goldsky_backfill_asset cfg job1 l1)
    = Asset.pointer_table (goldsky_backfill_asset cfg job2 l2)
    ↔ l1 = l2).
  { intros l1 l2. split; [|by intros ->].
    unfold Asset.pointer_table, Asset.pointer_table_name,
      goldsky_backfill_asset, Asset.__init__.
    cbn [asset_config pointer_table_suffix].
    intros H. by repeat apply string_app_inv_head in H. }
  split; [apply H|]. apply (H label1 "").
Qed.

Lemma rows_of_delete_worker (worker : string) (rows : list PointerRow) :
  rows_of worker (BQ.delete_worker worker rows) = [].
Proof.
  unfold rows_of, BQ.delete_worker.
  induction rows as [|r rows IH]; [done|].
  rewrite filter_cons. destruct (decide (row_worker r ≠ worker)); [|done].
  by rewrite filter_cons_False.
Qed.

Lemma rows_of_delete_other (worker k : string) (rows : list PointerRow) :
  k ≠ worker → rows_of k (BQ.delete_worker worker rows) = rows_of k rows.
Proof.
  intros Hk. unfold rows_of, BQ.delete_worker.
  induction rows as [|r rows IH]; [done|].
  rewrite !filter_cons.
  destruct (decide (row_worker r ≠ worker)) as [Hr|Hr].
  - rewrite filter_cons. by rewrite IH.
  - apply dec_stable in Hr. rewrite decide_False by congruence. done.
Qed.

Lemma rows_of_committed (worker k : string) (c : GoldskyCheckpoint)
  (rows : list PointerRow) :
  rows_of k (committed worker c rows) =
  if decide (k = worker) then [BQ.pointer_row worker c] else rows_of k rows.
Proof.
  unfold committed. unfold rows_of at 1. rewrite filter_app.
  fold (rows_of k (BQ.delete_worker worker rows)).
  destruct (decide (k = worker)) as [->|Hk].
  - rewrite rows_of_delete_worker. by rewrite filter_cons_True.
  - rewrite rows_of_delete_other by done.
    rewrite filter_cons_False, filter_nil by (simpl; congruence).
    by rewrite app_nil_r.
Qed.

(** X5: [update_pointer_table] tries its transaction three times. When
    one of the tries is answered, the worker has one row, the new
    checkpoint, and the rows of the other workers are as before. When
    all three tries fail, whatever the exceptions, the method returns
    [None] without raising and the pointer table is as it was. *)
Theorem update_pointer_table_attempts (self : GoldskyWorker)
  (c : GoldskyCheckpoint) (rows : list PointerRow)
  (tbls : PyDict.t (list string)) (bl : list string)
  (sch : string → list (string * polars.DataType))
  (errs : list exn) (rest : list (option exn)) :
  let w := mkWorld rows tbls ((Some <$> errs) ++ rest)%list bl sch in
  ((length errs < 3)%nat ∧ answers rest →
   Worker.update_pointer_table self c w
   = Ret (Some ())
       (mkWorld (committed (name self) c rows) tbls (tail rest) bl sch)
   ∧ rows_of (name self) (committed (name self) c rows)
     = [BQ.pointer_row (name self) c]
   ∧ ∀ k, k ≠ name self →
          rows_of k (committed (name self) c rows) = rows_of k rows)
  ∧ ((3 ≤ length errs)%nat →
     Worker.update_pointer_table self c w
     = Ret None
         (mkWorld rows tbls (drop 3 (Some <$> errs) ++ rest)%list bl sch)).
Proof.
  split.
  - intros [Hlen Hrest]. split; [|split].
    + destruct rest as [|[e|] rest]; [|done|];
        destruct errs as [|e1 [|e2 [|e3 errs]]]; simpl in Hlen; try lia;
        reflexivity.
    + rewrite rows_of_committed. by rewrite decide_True.
    + intros k Hk. rewrite rows_of_committed. by rewrite decide_False.
  - intros Hlen.
    destruct errs as [|e1 [|e2 [|e3 errs]]]; simpl in Hlen; try lia.
    reflexivity.
Qed.

(** ** Commits under a failing service *)

Lemma update_pointer_table_loop_returns (tx : M World unit) (n : nat) :
  ∀ w, ∃ r w', Worker.update_pointer_table_loop tx n w = Ret r w'.
Proof.
  induction n as [|n IH]; intros w; [by eexists _, _|].
  cbn [Worker.update_pointer_table_loop]. unfold try_except.
  cbv [mbind M_bind mret M_ret].
  destruct (tx w) as [[] w1|e w1]; [by eexists _, _|].
  cbn [is_Exception]. apply IH.
Qed.

Lemma request_raise {A} (run : M World A) (w w' : World) (e : exn) :
  (∀ w0 e0 w1, run w0 ≠ Raise e0 w1) →
  BQ.request run w = Raise e w' →
  same_data w w' ∧ ∃ rest, responses w = Some e :: rest.
Proof.
  intros Hrun. unfold BQ.request.
  destruct (responses w) as [|[e0|] rest] eqn:Hresp.
  - intros H. by apply Hrun in H.
  - intros [= <- <-]. split; [done|]. by exists rest.
  - intros H. by apply Hrun in H.
Qed.

Lemma bq_retry_load_raise (files : list string) (table : string)
  (n : nat) :
  ∀ w e w',
    bq_retry (BQ.load_table_from_uri files table) n w = Raise e w' →
    is_InternalServerError e = false ∧ same_data w w'.
Proof.
  induction n as [|n IH]; intros w e w'; [done|].
  cbn [bq_retry].
  destruct (BQ.load_table_from_uri files table w) as [[] w1|e1 w1] eqn:Hf;
    [done|].
  apply request_raise in Hf as [Hsame _]; [|done].
  destruct (is_InternalServerError e1) eqn:He1.
  - intros H. apply IH in H as [He Hsame']. split; [done|].
    by eapply same_data_trans.
  - by intros [= <- <-].
Qed.

(** X6: [commit_pointer] raises only what the load job raised, and
    never a server error, which [bq_retry] swallows; when it raises,
    neither a table nor the pointer nor the bucket has changed. *)
Theorem commit_pointer_raises_before_writing (self : GoldskyWorker)
  (files_to_load : list string) (c : GoldskyCheckpoint) (w w' : World)
  (e : exn)
  (Hraise : Worker.commit_pointer self files_to_load c w = Raise e w') :
  is_InternalServerError e = false ∧ same_data w w'.
Proof.
  unfold Worker.commit_pointer in Hraise.
  cbv [mbind M_bind mret M_ret] in Hraise.
  destruct (bq_retry _ 5 w) as [r w1|e1 w1] eqn:Hload.
  - unfold Worker.update_pointer_table in Hraise.
    destruct (update_pointer_table_loop_returns
                (Worker.tx_query (name self) c) 3 w1) as (r' & w2 & Htx).
    by rewrite Htx in Hraise.
  - injection Hraise as <- <-. by eapply bq_retry_load_raise.
Qed.

(** On the example world with a service that answers the load job
    with a client error. *)
Lemma commit_pointer_raises_before_writing_witness :
  is_InternalServerError ClientError = false
  ∧ same_data (BQ.set_responses [Some ClientError] example_world)
      example_world.
Proof.
  apply (commit_pointer_raises_before_writing
           (mkGoldskyWorker "0" "202401010000" "proj.work.dest_pointer_state"
              None example_config [])
           ["gs://bucket/" ++ example_blob "0" "3"]
           (mkGoldskyCheckpoint example_job 100 3)).
  reflexivity.
Defined.

(** X7: fewer than five server errors from the load job in a row are
    retried: when the service then answers the load job and the
    transaction, the batch is in the raw table of the worker and the
    pointer is at the checkpoint, as if no error had occurred. *)
Theorem commit_pointer_absorbs_server_errors (self : GoldskyWorker)
  (files_to_load : list string) (c : GoldskyCheckpoint)
  (rows : list PointerRow) (tbls : PyDict.t (list string))
  (bl : list string) (sch : string → list (string * polars.DataType))
  (k : nat) (rest : list (option exn))
  (Hk : (k < 5)%nat) (Hload : answers rest) (Htx : answers (tail rest)) :
  Worker.commit_pointer self files_to_load c
    (mkWorld rows tbls
       (replicate k (Some InternalServerError) ++ rest)%list bl sch)
  = Ret ()
      (mkWorld (committed (name self) c rows)
         (loaded (Worker.raw_table self) files_to_load tbls)
         (tail (tail rest)) bl sch).
Proof.
  destruct rest as [|[e1|] [|[e2|] rest]]; try done;
    do 5 (destruct k as [|k]; [reflexivity|]); lia.
Qed.

(** After two server errors, on the example world. *)
Lemma commit_pointer_absorbs_server_errors_witness :
  Worker.commit_pointer
    (mkGoldskyWorker "0" "202401010000" "proj.work.dest_pointer_state"
       None example_config [])
    ["gs://bucket/" ++ example_blob "0" "3"]
    (mkGoldskyCheckpoint example_job 100 3)
    (mkWorld [mkPointerRow "0" example_job 100 2] []
       (replicate 2 (Some InternalServerError) ++ [])%list
       (blobs example_world) (λ _, []))
  = Ret ()
      (mkWorld
         (committed "0" (mkGoldskyCheckpoint example_job 100 3)
            [mkPointerRow "0" example_job 100 2])
         (loaded "dest_0" ["gs://bucket/" ++ example_blob "0" "3"] [])
         [] (blobs example_world) (λ _, [])).
Proof.
  apply (commit_pointer_absorbs_server_errors
           (mkGoldskyWorker "0" "202401010000" "proj.work.dest_pointer_state"
              None example_config [])
           ["gs://bucket/" ++ example_blob "0" "3"]
           (mkGoldskyCheckpoint example_job 100 3)
           [mkPointerRow "0" example_job 100 2] [] (blobs example_world)
           (λ _, []) 2 []); [lia|exact I|exact I].
Defined.

(** ** Reading the pointer *)

(** The outcomes of the pointer query. *)
Lemma get_worker_status_outcomes (self : GoldskyAsset)
  (rows : list PointerRow) (tbls : PyDict.t (list string))
  (bl : list string) (sch : string → list (string * polars.DataType))
  (script : list (option exn)) :
  let w := mkWorld rows tbls script bl sch in
  let w' := mkWorld rows tbls (tail script) bl sch in
  (answers script →
   ∃ worker_status,
     Asset.get_worker_status self w = Ret worker_status w'
     ∧ ∀ worker,
         PyDict.get worker_status worker
         = checkpoint_of_row <$> last (rows_of worker rows))
  ∧ (∀ rest, script = Some NotFound :: rest →
             Asset.get_worker_status self w = Ret [] w')
  ∧ (∀ e rest, script = Some e :: rest → e ≠ NotFound →
               Asset.get_worker_status self w = Raise e w').
Proof.
  split; [|split].
  - intros Hscript.
    destruct script as [|[e|] rest]; [|done|];
      (eexists; split; [reflexivity|]; intros worker;
       rewrite worker_status_acc; by destruct (last _)).
  - by intros rest ->.
  - intros e rest -> He. by destruct e.
Qed.

(** X8: [get_worker_status] maps each worker to the checkpoint of its
    row, the last one when the table holds several, and has no entry
    for a worker without a row; when the query raises [NotFound] the
    status is empty, and any other exception of the query is raised to
    the caller. *)
Theorem get_worker_status_cases (self : GoldskyAsset)
  (rows : list PointerRow) (tbls : PyDict.t (list string))
  (bl : list string) (sch : string → list (string * polars.DataType))
  (script : list (option exn)) :
  let w := mkWorld rows tbls script bl sch in
  let w' := mkWorld rows tbls (tail script) bl sch in
  (answers script →
   ∃ worker_status,
     Asset.get_worker_status self w = Ret worker_status w'
     ∧ ∀ worker,
         PyDict.get worker_status worker
         = checkpoint_of_row <$> last (rows_of worker rows))
  ∧ (∀ rest, script = Some NotFound :: rest →
             Asset.get_worker_status self w = Ret [] w')
  ∧ (∀ e rest, script = Some e :: rest → e ≠ NotFound →
               Asset.get_worker_status self w = Raise e w').
Proof.
  destruct (get_worker_status_outcomes self rows tbls bl sch script)
    as (Hanswered & Hnotfound & Hraise).
  split; [exact Hanswered|]. split; [exact Hnotfound|exact Hraise].
Qed.

Lemma checkpoint_of_pointer_row (worker : string) (c : GoldskyCheckpoint) :
  checkpoint_of_row (BQ.pointer_row worker c) = c.
Proof. by destruct c. Qed.

(** X9: a pointer written by [update_pointer_table] is the pointer
    that [get_worker_status] reads back for this worker, whatever rows
    the worker had before; the other workers read as before. *)
Theorem pointer_round_trip (asset : GoldskyAsset) (self : GoldskyWorker)
  (c : GoldskyCheckpoint) (rows : list PointerRow)
  (tbls : PyDict.t (list string)) (bl : list string)
  (sch : string → list (string * polars.DataType)) :
  ∃ w' worker_status,
    Worker.update_pointer_table self c (mkWorld rows tbls [] bl sch)
      = Ret (Some ()) w'
    ∧ Asset.get_worker_status asset w' = Ret worker_status w'
    ∧ PyDict.get worker_status (name self) = Some c
    ∧ ∀ k, k ≠ name self →
           PyDict.get worker_status k
           = checkpoint_of_row <$> last (rows_of k rows).
Proof.
  destruct (get_worker_status_spec asset (committed (name self) c rows)
              tbls bl sch) as (ws & Hget & Hws).
  eexists _, ws. split; [reflexivity|]. split; [exact Hget|]. split.
  - rewrite Hws. fold (rows_of (name self) (committed (name self) c rows)).
    rewrite rows_of_committed, decide_True by done.
    cbn [last fmap option_fmap option_map].
    by rewrite checkpoint_of_pointer_row.
  - intros k Hk. rewrite Hws.
    fold (rows_of k (committed (name self) c rows)).
    by rewrite rows_of_committed, decide_False.
Qed.

(** ** The pointer update of the parallel loader, on an existing table *)

Lemma dict_get_filter_ne {V} (d : list (string * V)) (t k : string) :
  PyDict.get (filter (λ kv, kv.1 ≠ t) d) k =
  if String.eqb k t then None else PyDict.get d k.
Proof.
  induction d as [|[k' v'] d IH]; simpl.
  - by destruct (String.eqb k t).
  - rewrite filter_cons. cbn [fst].
    destruct (decide (k' ≠ t)) as [Hk'|Hk'].
    + simpl. rewrite IH.
      destruct (String.eqb_spec k' k) as [->|Hne]; [|done].
      by destruct (String.eqb_spec k t).
    + apply dec_stable in Hk' as ->. rewrite IH.
      destruct (String.eqb_spec k t) as [Heq|Hne]; [done|].
      by destruct (String.eqb_spec t k) as [Heq|_].
Qed.

Lemma job_table_ne (raw job : string) : (raw ++ "_" ++ job)%string ≠ raw.
Proof. by intros H%string_app_inv_tail_nil. Qed.

(** X10: when the raw table of the worker exists,
    [blocking_update_pointer_table] appends what it loaded to it,
    leaves the worker with one pointer row, the new checkpoint, drops
    the table of the job, and leaves the other tables, the rows of the
    other workers and the bucket as they were. *)
Theorem blocking_update_existing_table (cfg : GoldskyConfig)
  (job worker : string) (c : GoldskyCheckpoint) (wildcard_path : string)
  (rows : list PointerRow) (tbls : PyDict.t (list string))
  (bl : list string) (sch : string → list (string * polars.DataType))
  (old : list string)
  (Hraw : PyDict.get tbls (destination_table_name cfg ++ "_" ++ worker)
          = Some old) :
  let raw := destination_table_name cfg ++ "_" ++ worker in
  let job_table := raw ++ "_" ++ job in
  ∃ w',
    blocking_update_pointer_table cfg job worker c wildcard_path
      (mkWorld rows tbls [] bl sch) = Ret () w'
    ∧ pointer_rows w' = committed worker c rows
    ∧ rows_of worker (pointer_rows w') = [BQ.pointer_row worker c]
    ∧ (∀ k, k ≠ worker → rows_of k (pointer_rows w') = rows_of k rows)
    ∧ PyDict.get (tables w') raw = Some (old ++ [wildcard_path])%list
    ∧ PyDict.get (tables w') job_table = None
    ∧ (∀ t, t ≠ raw → t ≠ job_table →
            PyDict.get (tables w') t = PyDict.get tbls t)
    ∧ blobs w' = bl.
Proof.
  intros raw job_table.
  change (PyDict.get tbls raw = Some old) in Hraw.
  set (tbls1 := PyDict.set tbls job_table [wildcard_path]).
  pose proof (job_table_ne raw job) as Hne. fold job_table in Hne.
  assert (PyDict.get tbls1 raw = Some old) as Hd.
  { unfold tbls1. by rewrite dict_get_set_ne. }
  assert (PyDict.get tbls1 job_table = Some [wildcard_path]) as Hj
    by apply dict_get_set_eq.
  eexists. split.
  { unfold blocking_update_pointer_table, try_except, BQ.get_table,
      BQ.request, BQ.sql_load_data_overwrite, BQ.sql_insert_select,
      BQ.sql_delete_pointer, BQ.sql_insert_pointer, BQ.sql_drop_table,
      modify, put.
    cbv [mbind M_bind mret M_ret get raise]. cbn [tables responses].
    fold raw. rewrite Hraw. cbn [negb responses tables BQ.set_tables].
    fold job_table. fold tbls1. rewrite Hd, Hj. reflexivity. }
  cbn [pointer_rows tables blobs BQ.set_pointer_rows BQ.set_tables].
  fold (committed worker c rows).
  split; [done|]. split; [|split; [|split; [|split; [|split]]]].
  - by rewrite rows_of_committed, decide_True.
  - intros k Hk. by rewrite rows_of_committed, decide_False.
  - etrans; [apply dict_get_filter_ne|].
    destruct (String.eqb_spec raw job_table) as [Heq|_]; [by symmetry in Heq|].
    apply dict_get_set_eq.
  - etrans; [apply dict_get_filter_ne|]. by rewrite String.eqb_refl.
  - intros t Ht1 Ht2. etrans; [apply dict_get_filter_ne|].
    destruct (String.eqb_spec t job_table) as [|_]; [done|].
    rewrite dict_get_set_ne by done. unfold tbls1.
    by rewrite dict_get_set_ne.
  - done.
Qed.

(** On the example world after a first load into the raw table of
    worker 0. *)
Lemma blocking_update_existing_table_witness :
  ∃ w',
    blocking_update_pointer_table example_config "202401010000" "0"
      (mkGoldskyCheckpoint example_job 100 3) "gs://bucket/table_*.parquet"
      (mkWorld [mkPointerRow "0" example_job 100 2]
         [("dest_0", ["gs://bucket/first"])] [] [] (λ _, [])) = Ret () w'
    ∧ pointer_rows w'
      = committed "0" (mkGoldskyCheckpoint example_job 100 3)
          [mkPointerRow "0" example_job 100 2]
    ∧ rows_of "0" (pointer_rows w')
      = [BQ.pointer_row "0" (mkGoldskyCheckpoint example_job 100 3)]
    ∧ (∀ k, k ≠ "0" →
            rows_of k (pointer_rows w')
            = rows_of k [mkPointerRow "0" example_job 100 2])
    ∧ PyDict.get (tables w') "dest_0"
      = Some ["gs://bucket/first"; "gs://bucket/table_*.parquet"]
    ∧ PyDict.get (tables w') "dest_0_202401010000" = None
    ∧ (∀ t, t ≠ "dest_0" → t ≠ "dest_0_202401010000" →
            PyDict.get (tables w') t
            = PyDict.get [("dest_0", ["gs://bucket/first"])] t)
    ∧ blobs w' = [].
Proof.
  apply (blocking_update_existing_table example_config "202401010000" "0"
           (mkGoldskyCheckpoint example_job 100 3)
           "gs://bucket/table_*.parquet"
           [mkPointerRow "0" example_job 100 2]
           [("dest_0", ["gs://bucket/first"])] [] (λ _, [])
           ["gs://bucket/first"]).
  reflexivity.
Defined.

(** ** The clean-up job never returns *)

Lemma queues_fresh_init (max_size : Z) :
  queues_fresh (Queues.__init__ max_size).
Proof. by intros k q Hget. Qed.

Lemma load_queues_without_status (self : GoldskyAsset)
  (max_objects : option Z)
  (checkpoint_range : option GoldskyCheckpointRange) (w : World) :
  Asset.load_queues self None max_objects checkpoint_range w
  = Raise AttributeError w.
Proof.
  unfold Asset.load_queues, Asset._uncached_blobs_loader.
  cbv [mbind M_bind mret M_ret get].
  match goal with
  | |- context [for_each ?ms ?body ?qs] =>
      destruct (load_queues_loop None checkpoint_range ms qs
                  (queues_fresh_init _)) as (qs' & -> & _)
  end.
  done.
Qed.

Lemma end_checkpoint_loop_error
  (items : list (string * GoldskyCheckpoint)) :
  ∀ e0 e, Asset.end_checkpoint_loop items e0 = inl e → e = AttributeError.
Proof.
  induction items as [|[k c] items IH]; intros e0 e; [done|].
  cbn [Asset.end_checkpoint_loop].
  destruct e0 as [e0|]; [apply IH|]. by intros [= <-].
Qed.

(** X11: the clean-up job never returns. Whenever it has read the
    pointer, it raises [AttributeError]: in its loop over the pointer
    rows when worker "0" has no row and another worker has one, and in
    [load_queues], which it calls without a [worker_status], in every
    other case. *)
Theorem clean_up_never_returns (self : GoldskyAsset) (w : World) :
  (∃ e w', Asset.clean_up self w = Raise e w')
  ∧ ∀ worker_status w1,
      Asset.get_worker_status self w = Ret worker_status w1 →
      Asset.clean_up self w = Raise AttributeError w1.
Proof.
  assert (H : ∀ worker_status w1,
    Asset.get_worker_status self w = Ret worker_status w1 →
    Asset.clean_up self w = Raise AttributeError w1).
  { intros ws w1 Hget. unfold Asset.clean_up.
    cbv [mbind M_bind]. rewrite Hget.
    destruct (Asset.clean_up_end_checkpoint ws) as [e|end_checkpoint] eqn:He.
    - apply end_checkpoint_loop_error in He as ->. done.
    - cbn [lift mret M_ret]. by rewrite load_queues_without_status. }
  split; [|exact H].
  destruct (Asset.get_worker_status self w) as [ws w1|e w1] eqn:Hget.
  - exists AttributeError, w1. by apply (H ws).
  - exists e, w1. unfold Asset.clean_up. cbv [mbind M_bind].
    by rewrite Hget.
Qed.

(** ** Queues give back what they were given *)

Lemma items_of_cons_Some (x : GoldskyQueueItem) (l : list item_ref) :
  items_of (Some x :: l) = x :: items_of l.
Proof. done. Qed.

Lemma items_of_cons_None (l : list item_ref) :
  items_of (None :: l) = items_of l.
Proof. done. Qed.

Lemma run_ops_conserves (ops : list queue_op) :
  ∀ q, queue_wf q →
    ∃ results q',
      run_ops ops q = Ret results q'
      ∧ queue_wf q'
      ∧ max_size q' = max_size q
      ∧ items_of (queue q) ++ enqueued ops
        ≡ₚ items_of results ++ items_of (queue q')
      ∧ _dequeues q' = _dequeues q + Z.of_nat (length (items_of results))
      ∧ (_dequeues q ≤ Z.max 0 (max_size q) →
         _dequeues q' ≤ Z.max 0 (max_size q)).
Proof.
  induction ops as [|[i|] ops IH]; intros q Hwf.
  - exists [], q. simpl. rewrite app_nil_r.
    split; [done|]. split; [done|]. split; [done|].
    split; [reflexivity|]. split; [lia|done].
  - destruct (enqueue_wf q i Hwf) as (q1 & Hrun & Hwf1 & Hp & Hd & Hs).
    destruct (IH q1 Hwf1) as (rs & q2 & Hrun2 & Hwf2 & Hs2 & Hp2 & Hd2 & Hc).
    exists rs, q2. cbn [run_ops enqueued]. cbv [mbind M_bind].
    rewrite Hrun. split; [done|]. split; [done|].
    split; [congruence|]. split; [|split; [lia|]].
    + rewrite <-Hp2. apply items_of_perm in Hp.
      rewrite Hp, items_of_cons_Some.
      by rewrite <-Permutation_middle.
    + rewrite Hs, Hd in Hc. exact Hc.
  - cbn [run_ops enqueued]. cbv [mbind M_bind mret M_ret].
    destruct (dequeue_cases q Hwf)
      as [[Hrun _]|(x & q1 & Hrun & Hwf1 & Hp & _ & Hd & Hs & Hlt)].
    + destruct (IH q Hwf) as (rs & q2 & Hrun2 & Hwf2 & Hs2 & Hp2 & Hd2 & Hc).
      exists (None :: rs), q2. rewrite Hrun, Hrun2.
      rewrite items_of_cons_None. done.
    + destruct (IH q1 Hwf1)
        as (rs & q2 & Hrun2 & Hwf2 & Hs2 & Hp2 & Hd2 & Hc).
      exists (Some x :: rs), q2. rewrite Hrun, Hrun2.
      rewrite items_of_cons_Some. cbn [length].
      split; [done|]. split; [done|]. split; [congruence|].
      split; [|split; [lia|]].
      * apply items_of_perm in Hp. rewrite Hp, items_of_cons_Some.
        cbn [app]. by rewrite Hp2.
      * intros _. rewrite Hs in Hc. apply Hc. lia.
Qed.

Lemma queue_wf_init (m : Z) : queue_wf (Queue.__init__ m).
Proof. split; [apply item_heap_nil|done]. Qed.

(** X12: no sequence of enqueues and dequeues on a fresh queue raises,
    loses an item or gives one out twice: the items enqueued are the
    items the dequeues returned together with the items still in the
    heap, and the dequeues returned at most [max_size] items. *)
Theorem queue_conserves_items (m : Z) (ops : list queue_op) :
  ∃ results q,
    run_ops ops (Queue.__init__ m) = Ret results q
    ∧ enqueued ops ≡ₚ items_of results ++ items_of (queue q)
    ∧ Z.of_nat (length (items_of results)) ≤ Z.max 0 m.
Proof.
  destruct (run_ops_conserves ops (Queue.__init__ m) (queue_wf_init m))
    as (rs & q & Hrun & _ & _ & Hp & Hd & Hc).
  exists rs, q. split; [done|]. split; [done|].
  cbn [Queue.__init__ _dequeues max_size] in Hd, Hc. lia.
Qed.

(** X13: [empty] clears the heap and keeps the count of dequeues, so a
    queue that has given out [max_size] items stays closed: whatever is
    enqueued after [empty], no dequeue returns an item. *)
Theorem empty_keeps_queue_closed (q : GoldskyQueue) (ops : list queue_op)
  (Hwf : queue_wf q) (Hcap : max_size q ≤ _dequeues q) :
  ∃ q0 results q',
    Queue.empty q = Ret () q0
    ∧ queue q0 = [] ∧ _dequeues q0 = _dequeues q
    ∧ max_size q0 = max_size q
    ∧ run_ops ops q0 = Ret results q'
    ∧ items_of results = []
    ∧ items_of (queue q') ≡ₚ enqueued ops.
Proof.
  assert (Hwf0 : queue_wf (Queue.set_queue [] q)).
  { split; [apply item_heap_nil|apply Hwf]. }
  destruct (run_ops_conserves ops _ Hwf0)
    as (rs & q' & Hrun & _ & _ & Hp & Hd & _).
  exists (Queue.set_queue [] q), rs, q'.
  repeat (split; [done|]).
  assert (Hnone : items_of rs = []).
  { clear Hp Hd. revert Hrun.
    generalize (Queue.set_queue [] q), (eq_refl : max_size
      (Queue.set_queue [] q) = max_size q),
      (eq_refl : _dequeues (Queue.set_queue [] q) = _dequeues q), Hwf0.
    clear Hwf0. revert rs q'.
    induction ops as [|[i|] ops IH]; intros rs q' q0 Hs Hd Hwf0;
      cbn [run_ops]; cbv [mbind M_bind mret M_ret].
    - by intros [= <- _].
    - destruct (enqueue_wf q0 i Hwf0) as (q1 & -> & Hwf1 & _ & Hd1 & Hs1).
      apply IH; [congruence|congruence|done].
    - rewrite (dequeue_cap q0) by lia.
      destruct (run_ops ops q0) as [rs0 q2|] eqn:Hrun; [|done].
      intros [= <- _]. rewrite items_of_cons_None. by eapply IH. }
  split; [done|]. rewrite Hnone in Hp. cbn [app] in Hp.
  cbn [Queue.set_queue queue items_of omap list_omap] in Hp.
  by symmetry.
Qed.

(** On the example queue after two dequeues have used its cap up. *)
Lemma empty_keeps_queue_closed_witness :
  ∃ q0 results q',
    Queue.empty capped_queue = Ret () q0
    ∧ queue q0 = [] ∧ _dequeues q0 = _dequeues capped_queue
    ∧ max_size q0 = max_size capped_queue
    ∧ run_ops [Enqueue (example_item 9); Dequeue] q0 = Ret results q'
    ∧ items_of results = []
    ∧ items_of (queue q') ≡ₚ enqueued [Enqueue (example_item 9); Dequeue].
Proof.
  apply (empty_keeps_queue_closed capped_queue
           [Enqueue (example_item 9); Dequeue]).
  - apply reachable_wf.
    by exists 2, (example_ops ++ [Dequeue; Dequeue])%list,
      [Some (example_item 3); Some (example_item 5)].
  - vm_compute. discriminate.
Defined.

(** ** Queue sets *)

Lemma dict_set_same {V} (d : PyDict.t V) (k : string) (v : V) :
  PyDict.get d k = Some v → PyDict.set d k v = d.
Proof.
  induction d as [|[k' v'] d IH]; simpl; [done|].
  destruct (String.eqb_spec k' k) as [->|Hne].
  - by intros [= ->].
  - intros H. by rewrite IH.
Qed.

Lemma dict_keys_set {V} (d : PyDict.t V) (k : string) (v : V) :
  is_Some (PyDict.get d k) → PyDict.keys (PyDict.set d k v) = PyDict.keys d.
Proof.
  unfold PyDict.keys.
  induction d as [|[k' v'] d IH]; simpl; [by intros [? ?]|].
  destruct (String.eqb_spec k' k) as [->|Hne]; [done|].
  intros H. simpl. by rewrite IH.
Qed.

Lemma set_worker_same (qs : GoldskyQueues) (worker : string)
  (q : GoldskyQueue) :
  PyDict.get (queues qs) worker = Some q → Queues.set_worker worker q qs = qs.
Proof.
  intros H. unfold Queues.set_worker. rewrite dict_set_same by done.
  by destruct qs.
Qed.

(** X14: [GoldskyQueues.dequeue] for a worker without a queue returns
    [None] and creates no queue. For a worker with a queue it returns
    what the queue gives out, a least item of the queue or [None] when
    the queue is empty or at its cap; the workers and the queues of the
    other workers are as before. *)
Theorem queues_dequeue_worker (qs : GoldskyQueues) (worker : string) :
  (PyDict.get (queues qs) worker = None →
   Queues.dequeue worker qs = Ret None qs)
  ∧ (∀ q, PyDict.get (queues qs) worker = Some q → queue_wf q →
       ∃ x qs',
         Queues.dequeue worker qs = Ret x qs'
         ∧ Queues.workers qs' = Queues.workers qs
         ∧ (∀ k, k ≠ worker →
                 PyDict.get (queues qs') k = PyDict.get (queues qs) k)
         ∧ match x with
           | None => qs' = qs ∧ (queue q = [] ∨ max_size q ≤ _dequeues q)
           | Some i =>
               Forall (item_le i) (items_of (queue q))
               ∧ queue q ≡ₚ Some i :: queue_of qs' worker
               ∧ _dequeues q < max_size q
           end).
Proof.
  unfold Queues.dequeue. cbv [mbind M_bind get]. split.
  - intros ->. unfold Queues.on_fresh. cbv [mbind M_bind mret M_ret].
    destruct (Z.le_gt_cases (queues_max_size qs) 0) as [Hle|Hgt].
    + by rewrite dequeue_cap by (simpl; lia).
    + by rewrite dequeue_empty.
  - intros q Hget Hwf. rewrite Hget.
    unfold Queues.on_stored, on_field.
    destruct (dequeue_cases q Hwf)
      as [[Hrun Hwhy]|(x & q' & Hrun & Hwf' & Hp & Hmin & _ & _ & Hlt)];
      rewrite Hrun.
    + exists None, qs. rewrite set_worker_same by done. done.
    + exists (Some x), (Queues.set_worker worker q' qs).
      split; [done|]. split; [|split].
      * unfold Queues.workers, Queues.set_worker. cbn [queues].
        apply dict_keys_set. by rewrite Hget.
      * intros k Hk. unfold Queues.set_worker. cbn [queues].
        by rewrite dict_get_set_ne.
      * split; [|split; [|done]].
        -- apply items_of_perm in Hp. rewrite Hp, items_of_cons_Some.
           constructor; [apply cp_le_refl|done].
        -- unfold queue_of, Queues.set_worker. cbn [queues].
           by rewrite dict_get_set_eq.
Qed.

(** ** The direct loader on a service that answers *)

Lemma delete_worker_idemp (worker : string) (rows : list PointerRow) :
  BQ.delete_worker worker (BQ.delete_worker worker rows)
  = BQ.delete_worker worker rows.
Proof.
  unfold BQ.delete_worker.
  induction rows as [|r rows IH]; [done|].
  rewrite filter_cons. destruct (decide (row_worker r ≠ worker)); [|done].
  by rewrite filter_cons_True, IH.
Qed.

Lemma committed_committed (worker : string) (c c' : GoldskyCheckpoint)
  (rows : list PointerRow) :
  committed worker c' (committed worker c rows) = committed worker c' rows.
Proof.
  unfold committed. f_equal. unfold BQ.delete_worker at 1.
  rewrite filter_app.
  change (filter (λ r, row_worker r ≠ worker) (BQ.delete_worker worker rows))
    with (BQ.delete_worker worker (BQ.delete_worker worker rows)).
  rewrite delete_worker_idemp.
  rewrite filter_cons_False, filter_nil by (simpl; tauto).
  by rewrite app_nil_r.
Qed.

Lemma dict_set_set {V} (d : PyDict.t V) (k : string) (v v' : V) :
  PyDict.set (PyDict.set d k v) k v' = PyDict.set d k v'.
Proof.
  induction d as [|[k0 v0] d IH]; simpl.
  - by rewrite String.eqb_refl.
  - destruct (String.eqb_spec k0 k) as [->|Hne]; simpl.
    + by rewrite String.eqb_refl.
    + destruct (String.eqb_spec k0 k); [done|]. by rewrite IH.
Qed.

Lemma loaded_loaded (table : string) (a b : list string)
  (tbls : PyDict.t (list string)) :
  loaded table b (loaded table a tbls) = loaded table (a ++ b) tbls.
Proof.
  unfold loaded. rewrite dict_get_set_eq, dict_set_set.
  cbn [default from_option id]. by rewrite app_assoc.
Qed.

Lemma commit_pointer_answered (self : GoldskyWorker)
  (files_to_load : list string) (c : GoldskyCheckpoint)
  (rows : list PointerRow) (tbls : PyDict.t (list string))
  (bl : list string) (sch : string → list (string * polars.DataType)) :
  Worker.commit_pointer self files_to_load c (mkWorld rows tbls [] bl sch)
  = Ret ()
      (mkWorld (committed (name self) c rows)
         (loaded (Worker.raw_table self) files_to_load tbls) [] bl sch).
Proof. reflexivity. Qed.

Lemma dequeues_cons_inv (n : nat) (q q' : GoldskyQueue) (x : item_ref)
  (xs : list item_ref) :
  dequeues (S n) q = Ret (x :: xs) q' →
  ∃ q1, Queue.dequeue q = Ret x q1 ∧ dequeues n q1 = Ret xs q'.
Proof.
  cbn [dequeues]. cbv [mbind M_bind mret M_ret].
  destruct (Queue.dequeue q) as [x' q1|] eqn:Hdq; [|done].
  destruct (dequeues n q1) as [xs' q2|] eqn:Hrest; [|done].
  intros [= -> -> ->]. by exists q1.
Qed.

Lemma dequeues_items_length (items : list GoldskyQueueItem) :
  ∀ q q',
    dequeues (length items) q = Ret (Some <$> items) q' →
    length (queue q) = (length items + length (queue q'))%nat.
Proof.
  induction items as [|i items IH]; intros q q'.
  - by intros [= ->].
  - intros (q1 & Hdq & Hrest)%dequeues_cons_inv.
    apply dequeue_length in Hdq. apply IH in Hrest. simpl. lia.
Qed.

Lemma last_cons_default {A} (l : list A) :
  ∀ x d, List.last (x :: l) d = List.last l x.
Proof.
  induction l as [|y l IH]; intros x d; [done|].
  change (List.last (x :: y :: l) d) with (List.last (y :: l) d).
  by rewrite !IH.
Qed.

Lemma last_default_Some {A} (l : list A) (x : A) :
  last (x :: l) = Some (List.last l x).
Proof.
  revert x. induction l as [|y l IH]; intros x; [done|].
  rewrite last_cons, IH. by rewrite last_cons_default.
Qed.

Lemma run_load_loop_None (fuel : nat) (self : GoldskyWorker)
  (to_load : list string) (latest : GoldskyCheckpoint) (s : WorkerState) :
  Worker.run_load_loop fuel self to_load latest None s
  = Ret (to_load, latest) s.
Proof. by destruct fuel. Qed.

(** The loop and the commit after it, on a service that answers: the
    batches in hand and to come end up in the raw table, in the order
    the queue gives them out, and the pointer at the last of them. *)
Lemma run_load_loop_answered (self : GoldskyWorker)
  (bl : list string) (sch : string → list (string * polars.DataType))
  (items : list GoldskyQueueItem) :
  ∀ (i : GoldskyQueueItem) (q q' : GoldskyQueue) (fuel : nat)
    (to_load : list string) (latest : GoldskyCheckpoint)
    (rows : list PointerRow) (tbls : PyDict.t (list string)),
    dequeues (length items) q = Ret (Some <$> items) q' →
    Queue.dequeue q' = Ret None q' →
    (length items < fuel)%nat →
    ∃ r w1,
      Worker.run_load_loop fuel self to_load latest (Some i)
        (q, mkWorld rows tbls [] bl sch) = Ret r (q', w1)
      ∧ (if 0 <? Z.of_nat (length r.1)
         then Worker.commit_pointer self r.1 r.2
         else mret ()) w1
        = Ret ()
            (mkWorld
               (committed (name self)
                  (checkpoint (List.last items i)) rows)
               (loaded (Worker.raw_table self)
                  (to_load ++ (source_uri self <$> i :: items))%list tbls)
               [] bl sch).
Proof.
  induction items as [|j items IH];
    intros i q q' fuel to_load latest rows tbls Hdq Hnone Hfuel;
    (destruct fuel as [|fuel]; [simpl in Hfuel; lia|]);
    cbn [Worker.run_load_loop]; cbv [mbind M_bind mret M_ret];
    fold (source_uri self i);
    set (batch := (to_load ++ [source_uri self i])%list);
    assert (Hbatch : (0 <? Z.of_nat (length batch)) = true)
      by (apply Z.ltb_lt; unfold batch; rewrite length_app; simpl; lia).
  - injection Hdq as <-.
    destruct (Z.of_nat (length batch) >=? pointer_size (config self)).
    + unfold in_world, on_field. cbn [fst snd].
      rewrite commit_pointer_answered.
      unfold in_queue, on_field. cbn [fst snd]. rewrite Hnone.
      rewrite run_load_loop_None.
      eexists _, _. split; [reflexivity|]. done.
    + unfold in_queue, on_field. cbn [fst snd]. rewrite Hnone.
      rewrite run_load_loop_None.
      eexists _, _. split; [reflexivity|]. cbn [fst snd].
      rewrite Hbatch. by rewrite commit_pointer_answered.
  - change (length (j :: items)) with (S (length items)) in Hdq.
    change (Some <$> j :: items) with (Some j :: (Some <$> items)) in Hdq.
    apply dequeues_cons_inv in Hdq as (q1 & Hdq & Hrest).
    rewrite last_cons_default.
    assert (Hfuel' : (length items < fuel)%nat) by (simpl in Hfuel; lia).
    destruct (Z.of_nat (length batch) >=? pointer_size (config self)).
    + unfold in_world, on_field. cbn [fst snd].
      rewrite commit_pointer_answered.
      unfold in_queue, on_field. cbn [fst snd]. rewrite Hdq.
      destruct (IH j q1 q' fuel [] (checkpoint i)
                  (committed (name self) (checkpoint i) rows)
                  (loaded (Worker.raw_table self) batch tbls)
                  Hrest Hnone Hfuel') as (r & w1 & Hrun & Hfin).
      exists r, w1. split; [exact Hrun|]. etrans; [exact Hfin|].
      rewrite committed_committed, loaded_loaded. unfold batch.
      by rewrite <-app_assoc.
    + unfold in_queue, on_field. cbn [fst snd]. rewrite Hdq.
      destruct (IH j q1 q' fuel batch (checkpoint i) rows tbls
                  Hrest Hnone Hfuel') as (r & w1 & Hrun & Hfin).
      exists r, w1. split; [exact Hrun|]. etrans; [exact Hfin|].
      unfold batch. by rewrite <-app_assoc.
Qed.

Lemma items_of_app (l k : list item_ref) :
  items_of (l ++ k) = (items_of l ++ items_of k)%list.
Proof. unfold items_of. apply omap_app. Qed.

Lemma items_of_fmap_Some (l : list GoldskyQueueItem) :
  items_of (Some <$> l) = l.
Proof.
  induction l as [|x l IH]; [done|].
  change (items_of (Some <$> x :: l)) with (x :: items_of (Some <$> l)).
  by rewrite IH.
Qed.

(** A queue gives out its items in order until it is empty or at its
    cap. *)
Lemma queue_drains (n : nat) :
  ∀ q, queue_wf q → (length (queue q) ≤ n)%nat →
    ∃ items q',
      dequeues (length items) q = Ret (Some <$> items) q'
      ∧ Queue.dequeue q' = Ret None q'
      ∧ queue_wf q'
      ∧ (Some <$> items) ++ queue q' ≡ₚ queue q
      ∧ StronglySorted item_le items
      ∧ Forall (λ i, Forall (item_le i) (items_of (queue q'))) items
      ∧ _dequeues q' = _dequeues q + Z.of_nat (length items)
      ∧ max_size q' = max_size q
      ∧ (queue q' = [] ∨ max_size q ≤ _dequeues q')
      ∧ (items = [] → queue q = [] ∨ max_size q ≤ _dequeues q)
      ∧ (_dequeues q ≤ max_size q → _dequeues q' ≤ max_size q).
Proof.
  induction n as [|n IH]; intros q Hwf Hlen;
    destruct (dequeue_cases q Hwf)
      as [[Hrun Hwhy]|(x & q1 & Hrun & Hwf1 & Hp & Hmin & Hd & Hs & Hlt)].
  1, 3: exists [], q; cbn [length dequeues fmap list_fmap app];
    repeat (split; [done || constructor || lia|]); (done || lia).
  { apply Permutation_length in Hp. simpl in Hp. lia. }
  destruct (IH q1 Hwf1)
    as (items & q' & Hrun1 & Hnone & Hwf' & Hp1 & Hsorted & Hleft & Hd1
        & Hs1 & Hend & _ & Hbound).
  { apply Permutation_length in Hp. simpl in Hp. lia. }
  assert (Hitems : items ++ items_of (queue q') ≡ₚ items_of (queue q1)).
  { apply items_of_perm in Hp1.
    by rewrite items_of_app, items_of_fmap_Some in Hp1. }
  rewrite <-Hitems in Hmin. apply Forall_app in Hmin as [Hmin1 Hmin2].
  exists (x :: items), q'.
  split.
  { cbn [length dequeues]. cbv [mbind M_bind mret M_ret].
    by rewrite Hrun, Hrun1. }
  split; [done|]. split; [done|]. split.
  { rewrite Hp. cbn [fmap list_fmap app]. by rewrite <-Hp1. }
  split; [by constructor|]. split; [by constructor|].
  split; [cbn [length]; lia|]. split; [congruence|].
  split; [destruct Hend as [?|?]; [by left|right; lia]|].
  split; [done|]. intros _. rewrite <-Hs. apply Hbound. lia.
Qed.

(** A worker on a service that answers. *)
Lemma run_load_answered (self : GoldskyWorker) (q : GoldskyQueue)
  (rows : list PointerRow) (tbls : PyDict.t (list string))
  (bl : list string) (sch : string → list (string * polars.DataType)) :
  queue_wf q → queue q ≠ [] → _dequeues q < max_size q →
  ∃ items last_item q',
    Worker.run_load_bigquery_load self (q, mkWorld rows tbls [] bl sch)
    = Ret ()
        (q', mkWorld (committed (name self) (checkpoint last_item) rows)
               (loaded (Worker.raw_table self) (source_uri self <$> items)
                  tbls)
               [] bl sch)
    ∧ last items = Some last_item
    ∧ StronglySorted item_le items
    ∧ (Some <$> items) ++ queue q' ≡ₚ queue q
    ∧ Forall (item_le last_item) (items_of (queue q'))
    ∧ _dequeues q' = _dequeues q + Z.of_nat (length items)
    ∧ (queue q' = [] ∨ _dequeues q' = max_size q).
Proof.
  intros Hwf Hne Hcap.
  destruct (queue_drains (length (queue q)) q Hwf (le_n _))
    as (items & q' & Hrun & Hnone & Hwf' & Hp & Hsorted & Hleft & Hd & Hs
        & Hend & Hnil & Hbound).
  destruct items as [|i items]; [destruct (Hnil eq_refl); [done|lia]|].
  clear Hnil.
  exists (i :: items), (List.last items i), q'.
  split; [|split; [apply last_default_Some|]].
  - change (length (i :: items)) with (S (length items)) in Hrun.
    change (Some <$> i :: items) with (Some i :: (Some <$> items)) in Hrun.
    apply dequeues_cons_inv in Hrun as (q1 & Hdq & Hrest).
    unfold Worker.run_load_bigquery_load.
    cbv [mbind M_bind mret M_ret get]. unfold in_queue at 1, on_field.
    cbn [fst snd]. rewrite Hdq. cbn [attr mret M_ret fst snd].
    destruct (run_load_loop_answered self bl sch items i q1 q'
                (S (length (queue q1))) [] (checkpoint i) rows tbls
                Hrest Hnone) as (r & w1 & Hloop & Hfin).
    { apply dequeues_items_length in Hrest. lia. }
    rewrite Hloop. cbn [app] in Hfin.
    destruct (0 <? Z.of_nat (length r.1)).
    + unfold in_world, on_field. cbn [fst snd]. by rewrite Hfin.
    + by injection Hfin as ->.
  - repeat (split; [done|]). split; [|split; [done|]].
    + apply (proj1 (Forall_forall _ _) Hleft).
      apply last_Some_elem_of, last_default_Some.
    + destruct Hend as [?|?]; [by left|right]. lia.
Qed.

(** X15: on a service that answers, a worker whose queue has an item
    to give loads the items that the queue gives out, in the order of
    their checkpoints and until the queue is empty or at its cap, into
    its raw table, behind what the table held; it leaves the pointer
    of the worker at the checkpoint of the last item loaded, which no
    item left in the queue is below; and it returns. The size of the
    batches does not show in the result. *)
Theorem run_load_loads_in_order (self : GoldskyWorker) (q : GoldskyQueue)
  (rows : list PointerRow) (tbls : PyDict.t (list string))
  (bl : list string) (sch : string → list (string * polars.DataType))
  (Hwf : queue_wf q) (Hne : queue q ≠ [])
  (Hcap : _dequeues q < max_size q) :
  ∃ items last_item q',
    Worker.run_load_bigquery_load self (q, mkWorld rows tbls [] bl sch)
    = Ret ()
        (q', mkWorld (committed (name self) (checkpoint last_item) rows)
               (loaded (Worker.raw_table self) (source_uri self <$> items)
                  tbls)
               [] bl sch)
    ∧ last items = Some last_item
    ∧ StronglySorted item_le items
    ∧ (Some <$> items) ++ queue q' ≡ₚ queue q
    ∧ Forall (item_le last_item) (items_of (queue q'))
    ∧ _dequeues q' = _dequeues q + Z.of_nat (length items)
    ∧ (queue q' = [] ∨ max_size q ≤ _dequeues q').
Proof.
  destruct (run_load_answered self q rows tbls bl sch Hwf Hne Hcap)
    as (items & last_item & q' & Hrun & Hlast & Hsorted & Hp & Hleft & Hd
        & Hend).
  exists items, last_item, q'. repeat (split; [done|]).
  destruct Hend as [?|?]; [by left|right; lia].
Qed.

(** On the example queue of cap 2 that holds 3, 5 and 8: items 3 and
    5 are loaded and 8 is left. *)
Lemma run_load_loads_in_order_witness :
  ∃ items last_item q',
    Worker.run_load_bigquery_load
      (mkGoldskyWorker "0" "202401010000" "proj.work.dest_pointer_state"
         None example_config [])
      (example_queue, example_world)
    = Ret ()
        (q', mkWorld
               (committed "0" (checkpoint last_item)
                  (pointer_rows example_world))
               (loaded "dest_0"
                  (source_uri
                     (mkGoldskyWorker "0" "202401010000"
                        "proj.work.dest_pointer_state" None example_config
                        [])
                   <$> items)
                  [])
               [] (blobs example_world) (blob_schema example_world))
    ∧ last items = Some last_item
    ∧ StronglySorted item_le items
    ∧ (Some <$> items) ++ queue q' ≡ₚ queue example_queue
    ∧ Forall (item_le last_item) (items_of (queue q'))
    ∧ _dequeues q' = _dequeues example_queue + Z.of_nat (length items)
    ∧ (queue q' = [] ∨ max_size example_queue ≤ _dequeues q').
Proof.
  apply (run_load_loads_in_order
           (mkGoldskyWorker "0" "202401010000" "proj.work.dest_pointer_state"
              None example_config [])
           example_queue (pointer_rows example_world) []
           (blobs example_world) (blob_schema example_world)).
  - apply reachable_wf, example_queue_reachable.
  - vm_compute. discriminate.
  - vm_compute. reflexivity.
Defined.

(** ** What a worker leaves alone, whatever the service does *)

Section preserves.
Context (R : World → World → Prop).
Hypothesis R_refl : ∀ w, R w w.
Hypothesis R_trans : ∀ w1 w2 w3, R w1 w2 → R w2 w3 → R w1 w3.

Lemma preserves_ret {A} (a : A) : preserves R (mret a).
Proof. intros w. apply R_refl. Qed.

Lemma preserves_bind {A B} (m : M World A) (f : A → M World B) :
  preserves R m → (∀ a, preserves R (f a)) → preserves R (m ≫= f).
Proof.
  intros Hm Hf w. specialize (Hm w). cbv [mbind M_bind].
  destruct (m w) as [a w1|e w1]; [|done].
  specialize (Hf a w1). by eapply R_trans.
Qed.

Lemma preserves_try {A} (m h : M World A) (handles : exn → bool) :
  preserves R m → preserves R h → preserves R (try_except m handles h).
Proof.
  intros Hm Hh w. specialize (Hm w). unfold try_except.
  destruct (m w) as [a w1|e w1]; [done|].
  destruct (handles e); [|done].
  specialize (Hh w1). by eapply R_trans.
Qed.

Lemma preserves_request {A} (run : M World A) :
  (∀ w r, R w (BQ.set_responses r w)) →
  preserves R run → preserves R (BQ.request run).
Proof.
  intros Hresp Hrun w. unfold BQ.request.
  destruct (responses w) as [|[e|] rest]; [apply Hrun|apply Hresp|].
  eapply R_trans; [apply (Hresp w rest)|apply Hrun].
Qed.

Lemma preserves_bq_retry {A} (f : M World A) (n : nat) :
  preserves R f → preserves R (bq_retry f n).
Proof.
  intros Hf. induction n as [|n IH]; intros w; [apply R_refl|].
  cbn [bq_retry]. specialize (Hf w).
  destruct (f w) as [a w1|e w1]; [done|].
  destruct (is_InternalServerError e); [|done].
  specialize (IH w1). by eapply R_trans.
Qed.

Lemma preserves_update_loop (tx : M World unit) (n : nat) :
  preserves R tx → preserves R (Worker.update_pointer_table_loop tx n).
Proof.
  intros Htx. induction n as [|n IH]; [apply preserves_ret|].
  cbn [Worker.update_pointer_table_loop].
  apply preserves_try; [|done].
  apply preserves_bind; [done|]. intros []. apply preserves_ret.
Qed.

End preserves.

Lemma worker_frame_refl (worker raw : string) (w : World) :
  worker_frame worker raw w w.
Proof.
  repeat split; try done. exists []. by rewrite app_nil_r.
Qed.

Lemma worker_frame_trans (worker raw : string) (w1 w2 w3 : World) :
  worker_frame worker raw w1 w2 → worker_frame worker raw w2 w3 →
  worker_frame worker raw w1 w3.
Proof.
  intros (Hb1 & Hr1 & Ht1 & m1 & Hm1) (Hb2 & Hr2 & Ht2 & m2 & Hm2).
  split; [congruence|]. split; [|split].
  - intros k Hk. by rewrite Hr2, Hr1.
  - intros t Ht. by rewrite Ht2, Ht1.
  - exists (m1 ++ m2)%list. by rewrite Hm2, Hm1, app_assoc.
Qed.

Lemma worker_frame_responses (worker raw : string) (w : World)
  (r : list (option exn)) :
  worker_frame worker raw w (BQ.set_responses r w).
Proof.
  repeat split; try done. exists []. by rewrite app_nil_r.
Qed.

Lemma commit_pointer_frame (self : GoldskyWorker)
  (files_to_load : list string) (c : GoldskyCheckpoint) :
  preserves (worker_frame (name self) (Worker.raw_table self))
    (Worker.commit_pointer self files_to_load c).
Proof.
  pose proof (worker_frame_refl (name self) (Worker.raw_table self)) as Hr.
  pose proof (worker_frame_trans (name self) (Worker.raw_table self)) as Ht.
  pose proof (worker_frame_responses (name self) (Worker.raw_table self))
    as Hresp.
  unfold Worker.commit_pointer.
  apply preserves_bind; [done|..].
  - apply preserves_bq_retry; [done..|].
    apply preserves_request; [done..|].
    intros w. cbn [modify state_of].
    split; [done|]. split; [done|]. split.
    + intros t Hne. cbn [tables BQ.set_tables].
      by rewrite dict_get_set_ne.
    + eexists. cbn [tables BQ.set_tables]. by rewrite dict_get_set_eq.
  - intros _. apply preserves_bind; [done|..|intros; by apply preserves_ret].
    apply preserves_update_loop; [done..|].
    apply preserves_request; [done..|].
    intros w. unfold BQ.sql_delete_pointer, BQ.sql_insert_pointer, modify.
    cbv [mbind M_bind]. cbn [state_of].
    split; [done|]. split; [|split; [done|]].
    + intros k Hk. cbn [pointer_rows BQ.set_pointer_rows].
      fold (committed (name self) c (pointer_rows w)).
      by rewrite rows_of_committed, decide_False.
    + exists []. by rewrite app_nil_r.
Qed.

Lemma in_world_preserves {A} (R : World → World → Prop) (m : M World A)
  (s : WorkerState) :
  preserves R m → R s.2 (state_of (in_world m s)).2.
Proof.
  intros Hm. specialize (Hm s.2). unfold in_world, on_field.
  by destruct (m s.2).
Qed.

Lemma in_queue_world {A} (m : M GoldskyQueue A) (s : WorkerState) :
  (state_of (in_queue m s)).2 = s.2.
Proof. unfold in_queue, on_field. by destruct (m s.1). Qed.

Lemma run_load_loop_frame (self : GoldskyWorker) (fuel : nat) :
  ∀ to_load latest item s,
    worker_frame (name self) (Worker.raw_table self) s.2
      (state_of (Worker.run_load_loop fuel self to_load latest item s)).2.
Proof.
  induction fuel as [|fuel IH]; intros to_load latest [i|] s;
    try apply worker_frame_refl.
  cbn [Worker.run_load_loop]. cbv [mbind M_bind mret M_ret].
  set (batch := (to_load ++ [_])%list).
  assert (Hstep : ∀ tl s1,
    worker_frame (name self) (Worker.raw_table self) s.2 s1.2 →
    worker_frame (name self) (Worker.raw_table self) s.2
      (state_of
         match in_queue Queue.dequeue s1 with
         | Ret a s' => Worker.run_load_loop fuel self tl (checkpoint i) a s'
         | Raise e s' => Raise e s'
         end).2).
  { intros tl s1 Hs1.
    pose proof (in_queue_world Queue.dequeue s1) as Hq.
    destruct (in_queue Queue.dequeue s1) as [a s2|e s2]; simpl in Hq.
    - eapply worker_frame_trans; [exact Hs1|]. rewrite <-Hq. apply IH.
    - simpl. by rewrite Hq. }
  destruct (Z.of_nat (length batch) >=? pointer_size (config self)).
  - pose proof (in_world_preserves _ _ s
                  (commit_pointer_frame self batch (checkpoint i))) as Hc.
    destruct (in_world (Worker.commit_pointer self batch (checkpoint i)) s)
      as [[] s1|e s1]; [|exact Hc].
    by apply Hstep.
  - apply Hstep, worker_frame_refl.
Qed.

Lemma run_load_keeps_frame (self : GoldskyWorker) (s : WorkerState) :
  worker_frame (name self) (Worker.raw_table self) s.2
    (state_of (Worker.run_load_bigquery_load self s)).2.
Proof.
  unfold Worker.run_load_bigquery_load. cbv [mbind M_bind mret M_ret get].
  pose proof (in_queue_world Queue.dequeue s) as Hq.
  destruct (in_queue Queue.dequeue s) as [item s1|e s1]; simpl in Hq;
    [|cbn [state_of]; rewrite Hq; apply worker_frame_refl].
  rewrite <-Hq.
  destruct item as [i|]; [|apply worker_frame_refl].
  cbn [attr mret M_ret].
  pose proof (run_load_loop_frame self (S (length (queue s1.1))) []
                (checkpoint i) (Some i) s1) as Hloop.
  destruct (Worker.run_load_loop _ self [] (checkpoint i) (Some i) s1)
    as [r s2|e s2]; [|exact Hloop].
  simpl in Hloop.
  destruct (0 <? Z.of_nat (length r.1)); [|exact Hloop].
  eapply worker_frame_trans; [exact Hloop|].
  apply in_world_preserves, commit_pointer_frame.
Qed.

(** X16: whatever the service answers, and whether the worker returns
    or raises, [run_load_bigquery_load] leaves the bucket, the pointer
    rows of the other workers and every table but its raw table as
    they were, and what it does to its raw table is to append. *)
Theorem run_load_frame (self : GoldskyWorker) (q : GoldskyQueue)
  (w : World) :
  let w' := (state_of (Worker.run_load_bigquery_load self (q, w))).2 in
  blobs w' = blobs w
  ∧ (∀ k, k ≠ name self →
          rows_of k (pointer_rows w') = rows_of k (pointer_rows w))
  ∧ (∀ t, t ≠ Worker.raw_table self →
          PyDict.get (tables w') t = PyDict.get (tables w) t)
  ∧ ∃ more,
      default [] (PyDict.get (tables w') (Worker.raw_table self))
      = (default [] (PyDict.get (tables w) (Worker.raw_table self))
         ++ more)%list.
Proof.
  destruct (run_load_keeps_frame self (q, w)) as (Hb & Hrows & Ht & Hmore).
  split; [exact Hb|]. split; [exact Hrows|]. split; [exact Ht|].
  exact Hmore.
Qed.

(** ** What a run leaves alone *)









(** ** A run of the direct loader on a service that answers *)

Lemma dict_get_None_keys {V} (d : PyDict.t V) (k : string) :
  PyDict.get d k = None ↔ k ∉ PyDict.keys d.
Proof.
  unfold PyDict.keys. induction d as [|[k' v'] d IH]; simpl.
  - split; [intros _; apply not_elem_of_nil|done].
  - rewrite not_elem_of_cons, <-IH.
    destruct (String.eqb_spec k' k) as [->|Hne]; [by split; [|intros []]|].
    split; [by split|by intros []].
Qed.

Lemma dict_elem_get {V} (d : PyDict.t V) (k : string) (v : V) :
  NoDup (PyDict.keys d) → (k, v) ∈ d → PyDict.get d k = Some v.
Proof.
  unfold PyDict.keys. induction d as [|[k' v'] d IH]; simpl.
  - intros _ Hin. by apply elem_of_nil in Hin.
  - intros [Hk' Hnd]%NoDup_cons [[= -> ->]|Hin]%elem_of_cons.
    + by rewrite String.eqb_refl.
    + destruct (String.eqb_spec k' k) as [->|Hne]; [|by apply IH].
      exfalso. apply Hk'. apply list_elem_of_fmap. by exists (k, v).
Qed.

Lemma dict_keys_set_new {V} (d : PyDict.t V) (k : string) (v : V) :
  PyDict.get d k = None →
  PyDict.keys (PyDict.set d k v) = (PyDict.keys d ++ [k])%list.
Proof.
  unfold PyDict.keys. induction d as [|[k' v'] d IH]; simpl; [done|].
  destruct (String.eqb_spec k' k) as [->|Hne]; [done|].
  intros H. simpl. by rewrite IH.
Qed.

Lemma dict_set_keys_nodup {V} (d : PyDict.t V) (k : string) (v : V) :
  NoDup (PyDict.keys d) → NoDup (PyDict.keys (PyDict.set d k v)).
Proof.
  intros Hnd. destruct (PyDict.get d k) as [v0|] eqn:Hget.
  - by rewrite dict_keys_set by (by rewrite Hget).
  - rewrite dict_keys_set_new by done.
    apply NoDup_app. split; [done|]. split; [|apply NoDup_singleton].
    intros x Hx ->%list_elem_of_singleton.
    by apply dict_get_None_keys in Hget.
Qed.

Lemma enqueue_keys_nodup (worker : string) (item : item_ref)
  (qs : GoldskyQueues) :
  NoDup (PyDict.keys (queues qs)) →
  NoDup (PyDict.keys (queues (state_of (Queues.enqueue worker item qs)))).
Proof.
  intros Hnd. unfold Queues.enqueue. cbv [mbind M_bind get].
  destruct (PyDict.get (queues qs) worker) as [q|].
  - unfold Queues.on_stored, on_field.
    destruct (Queue.enqueue item q); by apply dict_set_keys_nodup.
  - unfold Queues.on_fresh, modify.
    destruct (Queue.enqueue item _); [|done].
    by apply dict_set_keys_nodup.
Qed.

Lemma load_queues_loop_nodup
  (worker_status : option (PyDict.t GoldskyCheckpoint))
  (checkpoint_range : option GoldskyCheckpointRange) (ms : list re_Match) :
  ∀ qs, NoDup (PyDict.keys (queues qs)) →
    NoDup (PyDict.keys (queues (state_of
      (for_each ms (Asset.load_queues_body worker_status checkpoint_range)
         qs)))).
Proof.
  induction ms as [|m ms IH]; intros qs Hnd; [done|].
  cbn [for_each]. cbv [mbind M_bind].
  assert (Hstep : NoDup (PyDict.keys (queues (state_of
    (Asset.load_queues_body worker_status checkpoint_range m qs))))).
  { unfold Asset.load_queues_body.
    destruct (Asset.queued _ _ m); [by apply enqueue_keys_nodup|done]. }
  destruct (Asset.load_queues_body worker_status checkpoint_range m qs)
    as [[] qs1|e qs1]; [by apply IH|done].
Qed.

Lemma load_queues_to_process_nodup (self : GoldskyAsset)
  (checkpoint_range : option GoldskyCheckpointRange) (w w' : World)
  (worker_status : PyDict.t GoldskyCheckpoint) (qs : GoldskyQueues) :
  Asset.load_queues_to_process self checkpoint_range w
    = Ret (worker_status, qs) w' →
  NoDup (PyDict.keys (queues qs)).
Proof.
  unfold Asset.load_queues_to_process, Asset.load_queues,
    Asset._uncached_blobs_loader.
  cbv [mbind M_bind mret M_ret get].
  destruct (Asset.get_worker_status self w) as [ws w1|]; [|done].
  match goal with
  | |- context [for_each ?ms ?body ?qs0] =>
      pose proof (load_queues_loop_nodup (Some ws) checkpoint_range ms qs0
                    (NoDup_nil_2)) as Hnd;
      destruct (for_each ms body qs0) as [[] qs1|e qs1]; [|done]
  end.
  by intros [= _ <- _].
Qed.

Lemma raw_table_of_inj (self : GoldskyAsset) (k1 k2 : string) :
  raw_table_of self k1 = raw_table_of self k2 → k1 = k2.
Proof.
  unfold raw_table_of. intros H. by do 2 apply string_app_inv_head in H.
Qed.

Lemma dict_get_loaded (table t : string) (uris : list string)
  (tbls : PyDict.t (list string)) :
  PyDict.get (loaded table uris tbls) t =
  if String.eqb table t
  then Some (default [] (PyDict.get tbls table) ++ uris)%list
  else PyDict.get tbls t.
Proof. unfold loaded. apply dict_get_set. Qed.

Lemma sorted_last_max (items : list GoldskyQueueItem)
  (last_item : GoldskyQueueItem) :
  StronglySorted item_le items → last items = Some last_item →
  Forall (λ i, item_le i last_item) items.
Proof.
  induction 1 as [|i items Hsorted IH Hle]; [constructor|].
  destruct items as [|j items].
  - intros [= <-]. repeat constructor. apply cp_le_refl.
  - rewrite last_cons_cons. intros Hlast. constructor; [|by apply IH].
    apply (proj1 (Forall_forall _ _) Hle).
    by apply last_Some_elem_of.
Qed.

(** The workers of a run, one after the other, on queues that DISCOVER
    has filled. *)
Lemma process_workers_answered (self : GoldskyAsset)
  (worker_status : PyDict.t GoldskyCheckpoint) (schema : list SchemaField)
  (bl : list string) (sch : string → list (string * polars.DataType))
  (l : list (string * GoldskyQueue)) :
  NoDup l.*1 →
  Forall (λ kq, queue_wf kq.2 ∧ queue kq.2 ≠ [] ∧ _dequeues kq.2 = 0
                ∧ 0 < max_size kq.2) l →
  ∀ rows tbls, ∃ rows' tbls',
    Asset.process_workers self worker_status schema l
      (mkWorld rows tbls [] bl sch)
    = Ret (worker_of self worker_status schema <$> l.*1)
        (mkWorld rows' tbls' [] bl sch)
    ∧ (∀ k, k ∉ l.*1 → rows_of k rows' = rows_of k rows)
    ∧ (∀ t, (∀ k, k ∈ l.*1 → t ≠ raw_table_of self k) →
            PyDict.get tbls' t = PyDict.get tbls t)
    ∧ ∀ k q, (k, q) ∈ l →
        ∃ items left last_item,
          share (max_size q) (items_of (queue q)) items left last_item
          ∧ rows_of k rows' = [BQ.pointer_row k (checkpoint last_item)]
          ∧ PyDict.get tbls' (raw_table_of self k)
            = Some (default [] (PyDict.get tbls (raw_table_of self k))
                    ++ (blob_uri self <$> items))%list.
Proof.
  induction l as [|[k0 q0] l IH]; intros Hnd Hfresh rows tbls.
  { exists rows, tbls. split; [done|]. split; [done|]. split; [done|].
    intros k q Hin. by apply elem_of_nil in Hin. }
  cbn [fmap list_fmap fst] in Hnd. apply NoDup_cons in Hnd as [Hk0 Hnd].
  apply Forall_cons in Hfresh as [(Hwf & Hne & Hd0 & Hcap) Hfresh].
  cbn [snd] in Hwf, Hne, Hd0, Hcap.
  destruct (run_load_answered (worker_of self worker_status schema k0) q0
              rows tbls bl sch Hwf Hne ltac:(lia))
    as (items & last_item & q' & Hrun & Hlast & Hsorted & Hp & Hleft & Hd
        & Hend).
  change (name (worker_of self worker_status schema k0)) with k0 in Hrun.
  change (Worker.raw_table (worker_of self worker_status schema k0))
    with (raw_table_of self k0) in Hrun.
  change (source_uri (worker_of self worker_status schema k0))
    with (blob_uri self) in Hrun.
  set (rows1 := committed k0 (checkpoint last_item) rows) in *.
  set (tbls1 := loaded (raw_table_of self k0) (blob_uri self <$> items) tbls)
    in *.
  destruct (IH Hnd Hfresh rows1 tbls1)
    as (rows' & tbls' & Hrest & Hrows & Htbls & Hworkers).
  exists rows', tbls'. split; [|split; [|split]].
  - cbn [Asset.process_workers]. cbv [mbind M_bind mret M_ret].
    unfold on_field at 1.
    change (mkGoldskyWorker k0 (asset_job_id self) (Asset.pointer_table self)
              (PyDict.get worker_status k0) (asset_config self) schema)
      with (worker_of self worker_status schema k0).
    rewrite Hrun. cbn [snd]. by rewrite Hrest.
  - intros k [Hne0 Hk]%not_elem_of_cons. rewrite Hrows by done.
    unfold rows1. by rewrite rows_of_committed, decide_False.
  - intros t Ht. rewrite Htbls.
    + unfold tbls1. rewrite dict_get_loaded.
      destruct (String.eqb_spec (raw_table_of self k0) t) as [<-|]; [|done].
      exfalso. by apply (Ht k0); [apply list_elem_of_here|].
    + intros k Hk. apply Ht. by apply list_elem_of_further.
  - intros k q [[= -> ->]|Hin]%elem_of_cons.
    + exists items, (items_of (queue q')), last_item. split; [|split].
      * split; [|split; [done|split; [done|split; [done|]]]].
        -- apply items_of_perm in Hp.
           by rewrite items_of_app, items_of_fmap_Some in Hp.
        -- destruct Hend as [->|Hend]; [by left|right]. lia.
      * rewrite Hrows by done. unfold rows1.
        by rewrite rows_of_committed, decide_True.
      * rewrite Htbls.
        -- unfold tbls1. rewrite dict_get_loaded.
           by rewrite String.eqb_refl.
        -- intros k Hk Heq. apply raw_table_of_inj in Heq as ->. done.
    + assert (k ≠ k0) as Hne0.
      { intros ->. apply Hk0. apply list_elem_of_fmap. by exists (k0, q). }
      destruct (Hworkers k q Hin)
        as (items' & left' & last' & Hshare & Hrow & Htbl).
      exists items', left', last'. split; [done|]. split; [done|].
      rewrite Htbl. unfold tbls1. rewrite dict_get_loaded.
      destruct (String.eqb_spec (raw_table_of self k0) (raw_table_of self k))
        as [Heq|]; [|done].
      by apply raw_table_of_inj in Heq.
Qed.

Lemma share_perm (cap : Z) (owed owed' items left : list GoldskyQueueItem)
  (last_item : GoldskyQueueItem) :
  owed ≡ₚ owed' → share cap owed items left last_item →
  share cap owed' items left last_item.
Proof. intros Hp (H1 & H2). split; [by rewrite H1|done]. Qed.

Lemma direct_load_without_schema (self : GoldskyAsset)
  (checkpoint_range : option GoldskyCheckpointRange) (w w' : World)
  (worker_status : PyDict.t GoldskyCheckpoint) (qs : GoldskyQueues) :
  schema_overrides (asset_config self) = [] →
  Asset.load_queues_to_process self checkpoint_range w
    = Ret (worker_status, qs) w' →
  Asset.direct_load_worker_tables self checkpoint_range w
  = Asset.process_workers self worker_status [] (Queues.worker_queues qs) w'.
Proof.
  intros Hschema Hrun. unfold Asset.direct_load_worker_tables.
  cbv [mbind M_bind]. by rewrite Hrun, Hschema.
Qed.

(** The queue of a worker after DISCOVER: none when nothing is owed to
    the worker, and one that holds what is owed otherwise. *)
Lemma discovered_queue (self : GoldskyAsset)
  (worker_status : PyDict.t GoldskyCheckpoint)
  (checkpoint_range : option GoldskyCheckpointRange) (bl : list string)
  (qs : GoldskyQueues) (k : string) :
  queues_fresh qs →
  items_of (queue_of qs k)
    ≡ₚ found self worker_status checkpoint_range k bl →
  match PyDict.get (queues qs) k with
  | None => found self worker_status checkpoint_range k bl = []
  | Some q =>
      items_of (queue q) ≡ₚ found self worker_status checkpoint_range k bl
      ∧ found self worker_status checkpoint_range k bl ≠ []
  end.
Proof.
  intros Hfresh. unfold queue_of.
  destruct (PyDict.get (queues qs) k) as [q|] eqn:Hget.
  - intros Hp. split; [done|]. intros Hnil. rewrite Hnil in Hp.
    symmetry in Hp. apply Permutation_nil in Hp.
    destruct (Hfresh k q Hget) as ((Hsome & _) & Hne & _).
    by apply (items_of_not_nil (queue q)).
  - intros Hp. by apply Permutation_nil in Hp.
Qed.

(** A run on a service that answers, worker by worker. *)
Lemma direct_load_run (self : GoldskyAsset)
  (checkpoint_range : option GoldskyCheckpointRange)
  (rows : list PointerRow) (tbls : PyDict.t (list string))
  (bl : list string) (sch : string → list (string * polars.DataType)) :
  schema_overrides (asset_config self) = [] →
  0 < max_objects_to_load (asset_config self) →
  ∃ worker_status workers rows' tbls',
    Asset.get_worker_status self (mkWorld rows tbls [] bl sch)
      = Ret worker_status (mkWorld rows tbls [] bl sch)
    ∧ (∀ k, PyDict.get worker_status k
            = checkpoint_of_row <$> last (rows_of k rows))
    ∧ Asset.direct_load_worker_tables self checkpoint_range
        (mkWorld rows tbls [] bl sch)
      = Ret workers (mkWorld rows' tbls' [] bl sch)
    ∧ (∀ t, (∀ k, t ≠ raw_table_of self k) →
            PyDict.get tbls' t = PyDict.get tbls t)
    ∧ ∀ k,
        (k ∈ name <$> workers
         ↔ found self worker_status checkpoint_range k bl ≠ [])
        ∧ (found self worker_status checkpoint_range k bl = [] →
           rows_of k rows' = rows_of k rows
           ∧ PyDict.get tbls' (raw_table_of self k)
             = PyDict.get tbls (raw_table_of self k))
        ∧ (found self worker_status checkpoint_range k bl ≠ [] →
           ∃ items left last_item,
             share (max_objects_to_load (asset_config self))
               (found self worker_status checkpoint_range k bl)
               items left last_item
             ∧ rows_of k rows' = [BQ.pointer_row k (checkpoint last_item)]
             ∧ PyDict.get tbls' (raw_table_of self k)
               = Some (default [] (PyDict.get tbls (raw_table_of self k))
                       ++ (blob_uri self <$> items))%list).
Proof.
  intros Hschema Hcap.
  destruct (get_worker_status_spec self rows tbls bl sch)
    as (ws & Hget & Hws).
  destruct (load_queues_to_process_spec self checkpoint_range _ _ ws Hget)
    as (qs & Hrun & Hfresh & Hmax & Hitems).
  pose proof (load_queues_to_process_nodup _ _ _ _ _ _ Hrun) as Hnd.
  cbn [blobs] in Hitems.
  destruct (process_workers_answered self ws [] bl sch
              (Queues.worker_queues qs)) with (rows := rows) (tbls := tbls)
    as (rows' & tbls' & Hproc & Hrows & Htbls & Hworkers).
  { exact Hnd. }
  { apply Forall_forall. intros [k q] Hin. cbn [snd].
    apply (dict_elem_get _ _ _ Hnd) in Hin.
    destruct (Hfresh k q Hin) as (Hheap & Hne & Hm & Hd).
    split; [split; [done|lia]|]. split; [done|]. split; [done|]. lia. }
  exists ws, (worker_of self ws [] <$> (Queues.worker_queues qs).*1),
    rows', tbls'.
  split; [done|]. split; [done|]. split.
  { by rewrite (direct_load_without_schema _ _ _ _ _ _ Hschema Hrun). }
  split.
  { intros t Ht. apply Htbls. intros k _. apply Ht. }
  intros k.
  pose proof (discovered_queue self ws checkpoint_range bl qs k Hfresh
                (Hitems k)) as Hk.
  assert (Hkeys : k ∈ (Queues.worker_queues qs).*1
                  ↔ found self ws checkpoint_range k bl ≠ []).
  { destruct (PyDict.get (queues qs) k) as [q|] eqn:Hq.
    - split; [intros _; apply Hk|]. intros _.
      apply dict_get_elem in Hq. apply list_elem_of_fmap. by exists (k, q).
    - split; [|by rewrite Hk].
      intros Hin. by apply dict_get_None_keys in Hq. }
  split; [|split].
  - rewrite <-Hkeys, <-list_fmap_compose.
    assert ((name ∘ worker_of self ws []) <$> (Queues.worker_queues qs).*1
            = (Queues.worker_queues qs).*1) as ->; [|done].
    clear. induction (Queues.worker_queues qs).*1 as [|x l IH]; [done|].
    by rewrite fmap_cons, IH.
  - intros Hnil. assert (k ∉ (Queues.worker_queues qs).*1) as Hnot
      by (by intros Hin%Hkeys).
    split; [by apply Hrows|]. apply Htbls.
    intros k' Hk' Heq. apply raw_table_of_inj in Heq as ->. done.
  - intros Hne.
    destruct (PyDict.get (queues qs) k) as [q|] eqn:Hq; [|done].
    destruct Hk as [Hp _].
    destruct (Hworkers k q (dict_get_elem _ _ _ Hq))
      as (items & left & last_item & Hshare & Hrow & Htbl).
    exists items, left, last_item. split; [|done].
    destruct (Hfresh k q Hq) as (_ & _ & -> & _) in Hshare.
    rewrite Hmax in Hshare. by eapply share_perm.
Qed.

Lemma get_worker_status_answered (self : GoldskyAsset)
  (rows : list PointerRow) (tbls : PyDict.t (list string))
  (bl : list string) (sch : string → list (string * polars.DataType)) :
  Asset.get_worker_status self (mkWorld rows tbls [] bl sch)
  = Ret (status_of rows) (mkWorld rows tbls [] bl sch).
Proof. reflexivity. Qed.



(** ** The run after a run *)

Lemma omap_nil_iff {A B} (f : A → option B) (l : list A) :
  omap f l = [] ↔ ∀ x, x ∈ l → f x = None.
Proof.
  induction l as [|x l IH].
  - split; [|done]. intros _ y Hy. by apply elem_of_nil in Hy.
  - change (omap f (x :: l))
      with (match f x with Some y => y :: omap f l | None => omap f l end).
    split.
    + intros H y [->|Hy]%elem_of_cons.
      * by destruct (f x).
      * destruct (f x); [done|]. by apply IH.
    + intros H. rewrite (H x) by apply list_elem_of_here.
      apply IH. intros y Hy. apply H. by apply list_elem_of_further.
Qed.

Lemma discovered_Some_inv (self : GoldskyAsset)
  (worker_status : PyDict.t GoldskyCheckpoint)
  (checkpoint_range : option GoldskyCheckpointRange) (worker blob : string)
  (item : GoldskyQueueItem) :
  discovered self worker_status checkpoint_range worker blob = Some item →
  ∃ m, Asset.goldsky_re_match self blob = Some m
       ∧ group_worker m = worker
       ∧ pointer_allows worker_status m = true
       ∧ range_allows checkpoint_range m = true
       ∧ item = Asset.item_of_match m.
Proof.
  unfold discovered.
  destruct (Asset.goldsky_re_match self blob) as [m|]; [|done].
  destruct (bool_decide _) eqn:Hw; [|done].
  destruct (pointer_allows _ _) eqn:Hp; [|done].
  destruct (range_allows _ _) eqn:Hr; [|done].
  intros [= <-]. exists m. by apply bool_decide_eq_true in Hw.
Qed.

(** When the pointer of a worker has moved to the greatest checkpoint
    owed to it, nothing is owed to it any more; and nothing is owed to
    a worker that was owed nothing, while its pointer stays. *)
Lemma nothing_owed_again (self : GoldskyAsset)
  (ws ws' : PyDict.t GoldskyCheckpoint)
  (checkpoint_range : option GoldskyCheckpointRange) (k : string)
  (bl : list string) :
  (found self ws checkpoint_range k bl = [] →
   PyDict.get ws' k = PyDict.get ws k) →
  (found self ws checkpoint_range k bl ≠ [] →
   ∃ last_item,
     PyDict.get ws' k = Some (checkpoint last_item)
     ∧ last_item ∈ found self ws checkpoint_range k bl
     ∧ Forall (λ i, item_le i last_item)
         (found self ws checkpoint_range k bl)) →
  found self ws' checkpoint_range k bl = [].
Proof.
  intros Hsame Hnew. apply omap_nil_iff. intros blob Hblob.
  destruct (discovered self ws' checkpoint_range k blob) as [item|] eqn:Hd';
    [exfalso|done].
  apply discovered_Some_inv in Hd'
    as (m & Hm & Hw & Hp' & Hr & ->).
  unfold pointer_allows in Hp'. rewrite Hw in Hp'.
  assert (Hd : discovered self ws checkpoint_range k blob =
               if pointer_allows ws m then Some (Asset.item_of_match m)
               else None).
  { unfold discovered. rewrite Hm, Hr, bool_decide_true by done.
    by rewrite andb_true_r. }
  destruct (decide (found self ws checkpoint_range k bl = [])) as [Hnil|Hne].
  - rewrite (Hsame Hnil) in Hp'.
    apply (proj1 (omap_nil_iff _ _) Hnil blob) in Hblob.
    rewrite Hd in Hblob. unfold pointer_allows in Hblob.
    rewrite Hw in Hblob. by rewrite Hp' in Hblob.
  - destruct (Hnew Hne) as (last_item & Hget & Hin & Hmax).
    rewrite Hget, cp_gt_spec in Hp'.
    destruct (pointer_allows ws m) eqn:Hp.
    + assert (Asset.item_of_match m ∈ found self ws checkpoint_range k bl)
        as Hitem by (apply list_elem_of_omap; by exists blob).
      apply (proj1 (Forall_forall _ _) Hmax) in Hitem.
      unfold item_le in Hitem. rewrite cp_le_not_lt in Hitem.
      cbn [Asset.item_of_match checkpoint] in Hitem.
      by rewrite Hp' in Hitem.
    + apply list_elem_of_omap in Hin as (blobL & HblobL & HdL).
      apply discovered_Some_inv in HdL as (mL & _ & HwL & HpL & _ & ->).
      unfold pointer_allows in Hp, HpL. rewrite Hw in Hp. rewrite HwL in HpL.
      destruct (PyDict.get ws k) as [p|]; [|done].
      rewrite cp_gt_spec in Hp, HpL.
      cbn [Asset.item_of_match checkpoint] in Hp'.
      by rewrite (cp_lt_trans _ _ _ HpL Hp') in Hp.
Qed.

Lemma no_queue_discovered (qs : GoldskyQueues) :
  queues_fresh qs → (∀ k, items_of (queue_of qs k) ≡ₚ []) →
  queues qs = [].
Proof.
  intros Hfresh Hnone. destruct (queues qs) as [|[k q] rest] eqn:Hqs; [done|].
  exfalso.
  assert (PyDict.get (queues qs) k = Some q) as Hget.
  { rewrite Hqs. simpl. by rewrite String.eqb_refl. }
  destruct (Hfresh k q Hget) as ((Hsome & _) & Hne & _).
  apply (items_of_not_nil (queue q) Hsome Hne).
  specialize (Hnone k). unfold queue_of in Hnone. rewrite Hget in Hnone.
  symmetry in Hnone. by apply Permutation_nil in Hnone.
Qed.

(** A run that finds nothing owed returns at once. *)
Lemma direct_load_nothing_owed (self : GoldskyAsset)
  (checkpoint_range : option GoldskyCheckpointRange)
  (rows : list PointerRow) (tbls : PyDict.t (list string))
  (bl : list string) (sch : string → list (string * polars.DataType)) :
  schema_overrides (asset_config self) = [] →
  (∀ k, found self (status_of rows) checkpoint_range k bl = []) →
  Asset.direct_load_worker_tables self checkpoint_range
    (mkWorld rows tbls [] bl sch)
  = Ret [] (mkWorld rows tbls [] bl sch).
Proof.
  intros Hschema Hnone.
  destruct (load_queues_to_process_spec self checkpoint_range _ _ _
              (get_worker_status_answered self rows tbls bl sch))
    as (qs & Hrun & Hfresh & _ & Hitems).
  rewrite (direct_load_without_schema _ _ _ _ _ _ Hschema Hrun).
  unfold Queues.worker_queues, PyDict.items.
  rewrite (no_queue_discovered qs Hfresh); [done|].
  intros k. rewrite (Hitems k). cbn [blobs].
  fold (found self (status_of rows) checkpoint_range k bl).
  by rewrite Hnone.
Qed.

Lemma found_length (self : GoldskyAsset)
  (worker_status : PyDict.t GoldskyCheckpoint)
  (checkpoint_range : option GoldskyCheckpointRange) (k : string)
  (bl : list string) :
  (length (found self worker_status checkpoint_range k bl) ≤ length bl)%nat.
Proof.
  unfold found. induction bl as [|b bl IH]; [done|].
  change (omap ?f (b :: bl))
    with (match f b with Some y => y :: omap f bl | None => omap f bl end).
  destruct (discovered _ _ _ _ b); simpl; lia.
Qed.

(** X19: a run that has loaded everything owed is followed by a run
    that does nothing. When the service answers, there are no schema
    overrides and what is owed to each worker fits under the cap, the
    run returns, and a second run over the same bucket finds nothing
    owed, starts no worker and leaves the world as the first run left
    it. *)
Theorem second_run_does_nothing (self : GoldskyAsset)
  (checkpoint_range : option GoldskyCheckpointRange)
  (rows : list PointerRow) (tbls : PyDict.t (list string))
  (bl : list string) (sch : string → list (string * polars.DataType))
  (Hschema : schema_overrides (asset_config self) = [])
  (Hcap : 0 < max_objects_to_load (asset_config self))
  (Hfits : ∀ k,
     Z.of_nat (length (found self (status_of rows) checkpoint_range k bl))
     ≤ max_objects_to_load (asset_config self)) :
  ∃ workers w1,
    Asset.direct_load_worker_tables self checkpoint_range
      (mkWorld rows tbls [] bl sch) = Ret workers w1
    ∧ (∀ k, found self (status_of (pointer_rows w1)) checkpoint_range k
              (blobs w1) = [])
    ∧ Asset.direct_load_worker_tables self checkpoint_range w1 = Ret [] w1.
Proof.
  destruct (direct_load_run self checkpoint_range rows tbls bl sch
              Hschema Hcap)
    as (ws & workers & rows' & tbls' & Hget & Hws & Hrun & Htbls & Hk).
  rewrite get_worker_status_answered in Hget. injection Hget as <-.
  exists workers, (mkWorld rows' tbls' [] bl sch). split; [done|].
  cbn [pointer_rows blobs].
  assert (Hnone : ∀ k,
    found self (status_of rows') checkpoint_range k bl = []).
  { intros k. destruct (Hk k) as (_ & Hsame & Hnew).
    destruct (get_worker_status_spec self rows' tbls' bl sch)
      as (ws' & Hget' & Hws').
    rewrite get_worker_status_answered in Hget'. injection Hget' as <-.
    apply (nothing_owed_again self (status_of rows)).
    - intros Hnil. destruct (Hsame Hnil) as [Hrows _].
      rewrite Hws', Hws. fold (rows_of k rows') (rows_of k rows).
      by rewrite Hrows.
    - intros Hne.
      destruct (Hnew Hne)
        as (items & left & last_item & (Hp & Hsorted & Hlast & _ & Hend)
            & Hrow & _).
      assert (left = []) as ->.
      { destruct Hend as [->|Hlen]; [done|].
        specialize (Hfits k). apply Permutation_length in Hp.
        rewrite length_app in Hp. destruct left; [done|].
        simpl in Hp. lia. }
      rewrite app_nil_r in Hp.
      exists last_item. split; [|split].
      + rewrite Hws'. fold (rows_of k rows'). rewrite Hrow.
        cbn [last fmap option_fmap option_map].
        by rewrite checkpoint_of_pointer_row.
      + rewrite <-Hp. by apply last_Some_elem_of.
      + rewrite <-Hp. by apply sorted_last_max. }
  split; [done|]. by apply direct_load_nothing_owed.
Qed.

(** On the example bucket, whose three owed blobs fit under the cap of
    10. *)
Lemma second_run_does_nothing_witness :
  ∃ workers w1,
    Asset.direct_load_worker_tables example_asset None
      (mkWorld (pointer_rows example_world) [] [] (blobs example_world)
         (λ _, [])) = Ret workers w1
    ∧ (∀ k, found example_asset (status_of (pointer_rows w1)) None k
              (blobs w1) = [])
    ∧ Asset.direct_load_worker_tables example_asset None w1 = Ret [] w1.
Proof.
  apply (second_run_does_nothing example_asset None
           (pointer_rows example_world) [] (blobs example_world) (λ _, [])).
  - reflexivity.
  - vm_compute. reflexivity.
  - intros k.
    pose proof (found_length example_asset
                  (status_of (pointer_rows example_world)) None k
                  (blobs example_world)) as Hlen.
    change (length (blobs example_world)) with 5%nat in Hlen.
    change (max_objects_to_load (asset_config example_asset)) with 10.
    lia.
Defined.

(** ** Schema overrides at the edges *)






(** ** Where a pointer can go, whatever the service does *)

Lemma commit_pointer_rows (self : GoldskyWorker)
  (files_to_load : list string) (c : GoldskyCheckpoint) (w : World) :
  let w' := state_of (Worker.commit_pointer self files_to_load c w) in
  pointer_rows w' = pointer_rows w
  ∨ pointer_rows w' = committed (name self) c (pointer_rows w).
Proof.
  unfold Worker.commit_pointer. cbv [mbind M_bind mret M_ret].
  assert (Hload : preserves (λ w w', pointer_rows w' = pointer_rows w)
            (bq_retry (BQ.load_table_from_uri files_to_load
                         (Worker.raw_table self)) 5)).
  { apply preserves_bq_retry; [done|congruence|].
    apply preserves_request; [congruence|done|done]. }
  specialize (Hload w).
  destruct (bq_retry _ 5 w) as [r w1|e w1]; simpl in Hload; [|by left].
  rewrite <-Hload. clear Hload.
  unfold Worker.update_pointer_table.
  generalize 3%nat. intros n. revert w1.
  induction n as [|n IH]; intros w1; [by left|].
  cbn [Worker.update_pointer_table_loop]. unfold try_except.
  cbv [mbind M_bind mret M_ret]. unfold Worker.tx_query, BQ.request.
  destruct (responses w1) as [|[e|] rest] eqn:Hresp;
    [by right| |by right].
  cbn [is_Exception].
  specialize (IH (BQ.set_responses rest w1)).
  destruct (Worker.update_pointer_table_loop _ n _) as [r' w2|e' w2];
    exact IH.
Qed.

Lemma pointer_at_item_refl (worker : string) (q : list item_ref)
  (rows : list PointerRow) :
  pointer_at_item worker q rows rows.
Proof. by left. Qed.

Lemma pointer_at_item_trans (worker : string) (q : list item_ref)
  (rows1 rows2 rows3 : list PointerRow) :
  pointer_at_item worker q rows1 rows2 →
  pointer_at_item worker q rows2 rows3 →
  pointer_at_item worker q rows1 rows3.
Proof.
  intros [H12|H12] [H23|H23].
  - left. congruence.
  - by right.
  - right. destruct H12 as (i & Hi & H12). exists i. split; [done|].
    congruence.
  - by right.
Qed.

Lemma commit_pointer_at_item (self : GoldskyWorker)
  (files_to_load : list string) (i : GoldskyQueueItem)
  (q : list item_ref) (s : WorkerState) :
  Some i ∈ q →
  pointer_at_item (name self) q (pointer_rows s.2)
    (pointer_rows
       (state_of (in_world
          (Worker.commit_pointer self files_to_load (checkpoint i)) s)).2).
Proof.
  intros Hi.
  pose proof (commit_pointer_rows self files_to_load (checkpoint i) s.2)
    as Hrows.
  unfold in_world, on_field.
  destruct (Worker.commit_pointer self files_to_load (checkpoint i) s.2)
    as [[] w1|e w1]; cbn [state_of snd] in *;
    (destruct Hrows as [->| ->]; [by left|right; exists i; split; [done|];
       by rewrite rows_of_committed, decide_True]).
Qed.

Lemma dequeue_elem_of (q q' : GoldskyQueue) (x : item_ref) :
  queue_wf q → Queue.dequeue q = Ret x q' →
  queue_wf q'
  ∧ (∀ i, x = Some i → Some i ∈ queue q)
  ∧ (∀ y, y ∈ queue q' → y ∈ queue q).
Proof.
  intros Hwf Hrun.
  destruct (dequeue_cases q Hwf)
    as [[Hnone _]|(i & q1 & Hsome & Hwf1 & Hp & _)].
  - rewrite Hnone in Hrun. injection Hrun as <- <-.
    split; [done|]. split; [by intros i [=]|done].
  - rewrite Hsome in Hrun. injection Hrun as <- <-.
    split; [done|]. split.
    + intros j [= <-]. rewrite Hp. apply list_elem_of_here.
    + intros y Hy. rewrite Hp. by apply list_elem_of_further.
Qed.

Lemma dequeue_returns (q : GoldskyQueue) :
  queue_wf q → ∃ x q', Queue.dequeue q = Ret x q'.
Proof.
  intros Hwf.
  destruct (dequeue_cases q Hwf) as [[Hnone _]|(i & q1 & Hsome & _)];
    by eexists _, _.
Qed.

Lemma run_load_loop_pointer (self : GoldskyWorker) (q0 : list item_ref)
  (fuel : nat) :
  ∀ to_load latest item s,
    queue_wf s.1 →
    (∀ y, y ∈ queue s.1 → y ∈ q0) →
    (∀ i, item = Some i → Some i ∈ q0) →
    (∃ i, Some i ∈ q0 ∧ latest = checkpoint i) →
    pointer_at_item (name self) q0 (pointer_rows s.2)
      (pointer_rows
         (state_of (Worker.run_load_loop fuel self to_load latest item s)).2)
    ∧ ∀ r s', Worker.run_load_loop fuel self to_load latest item s
              = Ret r s' →
              ∃ i, Some i ∈ q0 ∧ r.2 = checkpoint i.
Proof.
  induction fuel as [|fuel IH]; intros to_load latest [i|] s Hwf Hsub Hitem
    Hlatest;
    try (split; [apply pointer_at_item_refl|by intros r s' [= <- <-]]).
  specialize (Hitem i eq_refl).
  cbn [Worker.run_load_loop]. cbv [mbind M_bind mret M_ret].
  set (batch := (to_load ++ [_])%list).
  assert (Hstep : ∀ tl s1,
    s1.1 = s.1 →
    pointer_at_item (name self) q0 (pointer_rows s.2) (pointer_rows s1.2) →
    let o := match in_queue Queue.dequeue s1 with
             | Ret a s' =>
                 Worker.run_load_loop fuel self tl (checkpoint i) a s'
             | Raise e s' => Raise e s'
             end in
    pointer_at_item (name self) q0 (pointer_rows s.2)
      (pointer_rows (state_of o).2)
    ∧ ∀ r s', o = Ret r s' → ∃ j, Some j ∈ q0 ∧ r.2 = checkpoint j).
  { intros tl s1 Hq Hs1. unfold in_queue, on_field. rewrite Hq.
    destruct (dequeue_returns s.1 Hwf) as (x & q' & Hdq). rewrite Hdq.
    destruct (dequeue_elem_of _ _ _ Hwf Hdq) as (Hwf' & Hx & Hsub').
    destruct (IH tl (checkpoint i) x (q', s1.2)) as [Hinv Hret].
    - done.
    - intros y Hy. apply Hsub, Hsub', Hy.
    - intros j ->. apply Hsub, Hx. done.
    - by exists i.
    - split; [|exact Hret].
      eapply pointer_at_item_trans; [exact Hs1|exact Hinv]. }
  destruct (Z.of_nat (length batch) >=? pointer_size (config self)).
  - pose proof (commit_pointer_at_item self batch i q0 s Hitem) as Hc.
    pose proof (in_world_queue
                  (Worker.commit_pointer self batch (checkpoint i)) s) as Hq.
    destruct (in_world (Worker.commit_pointer self batch (checkpoint i)) s)
      as [[] s1|e s1]; cbn [state_of] in Hc, Hq.
    + by apply Hstep.
    + split; [exact Hc|done].
  - apply Hstep; [done|apply pointer_at_item_refl].
Qed.

Lemma run_load_pointer (self : GoldskyWorker) (q : GoldskyQueue)
  (w : World) :
  queue_wf q →
  pointer_at_item (name self) (queue q) (pointer_rows w)
    (pointer_rows (state_of (Worker.run_load_bigquery_load self (q, w))).2).
Proof.
  intros Hwf. unfold Worker.run_load_bigquery_load.
  cbv [mbind M_bind mret M_ret get]. unfold in_queue at 1, on_field.
  cbn [fst snd].
  destruct (dequeue_returns q Hwf) as (x & q' & Hdq). rewrite Hdq.
  destruct (dequeue_elem_of _ _ _ Hwf Hdq) as (Hwf' & Hx & Hsub).
  destruct x as [i|]; [|apply pointer_at_item_refl].
  cbn [attr mret M_ret].
  destruct (run_load_loop_pointer self (queue q) (S (length (queue q')))
              [] (checkpoint i) (Some i) (q', w)) as [Hinv Hret];
    [done|done|by intros j [= <-]; apply Hx|exists i; by split; [apply Hx|]|].
  destruct (Worker.run_load_loop _ self [] (checkpoint i) (Some i) (q', w))
    as [r s2|e s2]; [|exact Hinv].
  cbn [state_of] in Hinv.
  destruct (0 <? Z.of_nat (length r.1)); [|exact Hinv].
  destruct (Hret r s2 eq_refl) as (j & Hj & ->).
  eapply pointer_at_item_trans; [exact Hinv|].
  by apply commit_pointer_at_item.
Qed.

(** X21: whatever the service answers, and whether the worker returns
    or raises, the pointer rows of the worker after
    [run_load_bigquery_load] are the rows it had, or one row at the
    checkpoint of an item its queue held: a worker commits no other
    checkpoint. *)
Theorem run_load_pointer_at_item (self : GoldskyWorker) (q : GoldskyQueue)
  (w : World) (Hwf : queue_wf q) :
  let w' := (state_of (Worker.run_load_bigquery_load self (q, w))).2 in
  rows_of (name self) (pointer_rows w')
  = rows_of (name self) (pointer_rows w)
  ∨ ∃ i, Some i ∈ queue q
         ∧ rows_of (name self) (pointer_rows w')
           = [BQ.pointer_row (name self) (checkpoint i)].
Proof.
  destruct (run_load_pointer self q w Hwf) as [Hsame|(i & Hi & Hrow)].
  - by left.
  - right. by exists i.
Qed.

(** On the example queue, with a service that fails the first load job
    with a client error. *)
Lemma run_load_pointer_at_item_witness :
  let self := mkGoldskyWorker "0" "202401010000"
                "proj.work.dest_pointer_state" None example_config [] in
  let w := BQ.set_responses [Some ClientError] example_world in
  let w' := (state_of (Worker.run_load_bigquery_load self
                         (example_queue, w))).2 in
  rows_of "0" (pointer_rows w') = rows_of "0" (pointer_rows w)
  ∨ ∃ i, Some i ∈ queue example_queue
         ∧ rows_of "0" (pointer_rows w')
           = [BQ.pointer_row "0" (checkpoint i)].
Proof.
  apply (run_load_pointer_at_item
           (mkGoldskyWorker "0" "202401010000"
              "proj.work.dest_pointer_state" None example_config [])
           example_queue
           (BQ.set_responses [Some ClientError] example_world)).
  apply reachable_wf, example_queue_reachable.
Defined.









(** ** What a worker can load, whatever the service does *)

Lemma commit_pointer_tables (self : GoldskyWorker)
  (files_to_load : list string) (c : GoldskyCheckpoint) (w : World) :
  let w' := state_of (Worker.commit_pointer self files_to_load c w) in
  tables w' = tables w
  ∨ tables w' = loaded (Worker.raw_table self) files_to_load (tables w).
Proof.
  unfold Worker.commit_pointer. cbv [mbind M_bind mret M_ret].
  assert (Hload : ∀ n w,
    let o := bq_retry (BQ.load_table_from_uri files_to_load
                         (Worker.raw_table self)) n w in
    tables (state_of o) = tables w
    ∨ tables (state_of o)
      = loaded (Worker.raw_table self) files_to_load (tables w)).
  { clear w. induction n as [|n IH]; intros w; [by left|].
    cbn [bq_retry]. unfold BQ.load_table_from_uri, BQ.request, modify.
    destruct (responses w) as [|[e|] rest]; [by right| |by right].
    destruct (is_InternalServerError e); [|by left].
    apply (IH (BQ.set_responses rest w)). }
  assert (Hupdate : preserves (λ w w', tables w' = tables w)
            (Worker.update_pointer_table self c)).
  { apply preserves_update_loop; [done|congruence|].
    apply preserves_request; [congruence|done|done]. }
  specialize (Hload 5%nat w).
  destruct (bq_retry _ 5 w) as [r w1|e w1]; cbn [state_of] in Hload;
    [|exact Hload].
  specialize (Hupdate w1).
  destruct (Worker.update_pointer_table self c w1) as [r' w2|e' w2];
    cbn [state_of] in Hupdate |- *; by rewrite Hupdate.
Qed.

Lemma table_contents_loaded (w w' : World) (table : string)
  (files : list string) :
  tables w' = tables w ∨ tables w' = loaded table files (tables w) →
  ∃ more, table_contents w' table = (table_contents w table ++ more)%list
          ∧ more `sublist_of` files.
Proof.
  unfold table_contents. intros [->| ->].
  - exists []. split; [by rewrite app_nil_r|apply sublist_nil_l].
  - exists files. split; [|done].
    by rewrite dict_get_loaded, String.eqb_refl.
Qed.

Lemma in_world_commit_contents (self : GoldskyWorker)
  (files_to_load : list string) (c : GoldskyCheckpoint) (s : WorkerState) :
  ∃ more,
    table_contents
      (state_of (in_world (Worker.commit_pointer self files_to_load c) s)).2
      (Worker.raw_table self)
    = (table_contents s.2 (Worker.raw_table self) ++ more)%list
    ∧ more `sublist_of` files_to_load.
Proof.
  apply table_contents_loaded.
  pose proof (commit_pointer_tables self files_to_load c s.2) as H.
  unfold in_world, on_field.
  by destruct (Worker.commit_pointer self files_to_load c s.2).
Qed.

(** The loop under any service: what gets into the raw table, with
    what is still in hand, is drawn in order from the batch in hand
    and the items to come. *)
Lemma run_load_loop_sublist (self : GoldskyWorker)
  (items : list GoldskyQueueItem) :
  ∀ (i : GoldskyQueueItem) (q q' : GoldskyQueue) (fuel : nat)
    (to_load : list string) (latest : GoldskyCheckpoint) (w : World),
    dequeues (length items) q = Ret (Some <$> items) q' →
    Queue.dequeue q' = Ret None q' →
    (length items < fuel)%nat →
    let o := Worker.run_load_loop fuel self to_load latest (Some i) (q, w) in
    ∃ more,
      table_contents (state_of o).2 (Worker.raw_table self)
      = (table_contents w (Worker.raw_table self) ++ more)%list
      ∧ (more ++ pending o)%list
        `sublist_of` (to_load ++ (source_uri self <$> i :: items))%list.
Proof.
  induction items as [|j items IH];
    intros i q q' fuel to_load latest w Hdq Hnone Hfuel;
    (destruct fuel as [|fuel]; [simpl in Hfuel; lia|]);
    cbn [Worker.run_load_loop]; cbv [mbind M_bind mret M_ret];
    fold (source_uri self i);
    set (batch := (to_load ++ [source_uri self i])%list);
    destruct (in_world_commit_contents self batch (checkpoint i) (q, w))
      as (more_c & Hmore_c & Hsub_c);
    pose proof (in_world_queue
                  (Worker.commit_pointer self batch (checkpoint i)) (q, w))
      as Hq; cbn [fst snd] in Hmore_c, Hq.
  - injection Hdq as <-.
    destruct (Z.of_nat (length batch) >=? pointer_size (config self)).
    + destruct (in_world (Worker.commit_pointer self batch (checkpoint i))
                  (q, w)) as [[] [q1 w1]|e [q1 w1]]; cbn [state_of fst snd] in *.
      * subst q1. unfold in_queue, on_field. cbn [fst snd]. rewrite Hnone.
        rewrite run_load_loop_None. exists more_c. split; [done|].
        cbn [pending state_of fst snd]. by rewrite app_nil_r.
      * exists more_c. split; [done|]. cbn [pending]. by rewrite app_nil_r.
    + unfold in_queue, on_field. cbn [fst snd]. rewrite Hnone.
      rewrite run_load_loop_None. exists [].
      split; [by rewrite app_nil_r|done].
  - change (length (j :: items)) with (S (length items)) in Hdq.
    change (Some <$> j :: items) with (Some j :: (Some <$> items)) in Hdq.
    apply dequeues_cons_inv in Hdq as (q1' & Hdq & Hrest).
    assert (Hfuel' : (length items < fuel)%nat) by (simpl in Hfuel; lia).
    assert (Hshape : (to_load ++ (source_uri self <$> i :: j :: items))%list
                     = (batch ++ (source_uri self <$> j :: items))%list).
    { unfold batch. by rewrite <-app_assoc. }
    rewrite Hshape.
    destruct (Z.of_nat (length batch) >=? pointer_size (config self)).
    + destruct (in_world (Worker.commit_pointer self batch (checkpoint i))
                  (q, w)) as [[] [q1 w1]|e [q1 w1]]; cbn [state_of fst snd] in *.
      * subst q1. unfold in_queue, on_field. cbn [fst snd]. rewrite Hdq.
        destruct (IH j q1' q' fuel [] (checkpoint i) w1 Hrest Hnone Hfuel')
          as (more & Hmore & Hsub).
        exists (more_c ++ more)%list. split.
        -- rewrite Hmore, Hmore_c. by rewrite app_assoc.
        -- rewrite <-app_assoc. by apply sublist_app.
      * exists more_c. split; [done|]. cbn [pending]. rewrite app_nil_r.
        by apply sublist_inserts_r.
    + unfold in_queue, on_field. cbn [fst snd]. rewrite Hdq.
      apply (IH j q1' q' fuel batch (checkpoint i) w Hrest Hnone Hfuel').
Qed.

(** What a worker appends to its raw table, under any service. *)
Lemma run_load_contents (self : GoldskyWorker) (q : GoldskyQueue)
  (w : World) :
  queue_wf q →
  let w' := (state_of (Worker.run_load_bigquery_load self (q, w))).2 in
  ∃ items left more,
    (Some <$> items) ++ left ≡ₚ queue q
    ∧ StronglySorted item_le items
    ∧ table_contents w' (Worker.raw_table self)
      = (table_contents w (Worker.raw_table self) ++ more)%list
    ∧ more `sublist_of` (source_uri self <$> items).
Proof.
  intros Hwf.
  destruct (queue_drains (length (queue q)) q Hwf (le_n _))
    as (items & q' & Hrun & Hnone & _ & Hp & Hsorted & _).
  exists items, (queue q').
  unfold Worker.run_load_bigquery_load.
  cbv [mbind M_bind mret M_ret get]. unfold in_queue at 1, on_field.
  cbn [fst snd].
  destruct items as [|i items].
  { injection Hrun as <-. rewrite Hnone. exists [].
    split; [done|]. split; [done|]. split; [by rewrite app_nil_r|done]. }
  change (length (i :: items)) with (S (length items)) in Hrun.
  change (Some <$> i :: items) with (Some i :: (Some <$> items)) in Hrun.
  apply dequeues_cons_inv in Hrun as (q1 & Hdq & Hrest).
  rewrite Hdq. cbn [attr mret M_ret fst snd].
  destruct (run_load_loop_sublist self items i q1 q'
              (S (length (queue q1))) [] (checkpoint i) w Hrest Hnone)
    as (more & Hmore & Hsub).
  { apply dequeues_items_length in Hrest. lia. }
  cbn [app] in Hsub.
  destruct (Worker.run_load_loop _ self [] (checkpoint i) (Some i) (q1, w))
    as [r s2|e s2]; cbn [state_of pending] in Hmore, Hsub.
  - destruct (0 <? Z.of_nat (length r.1)).
    + destruct (in_world_commit_contents self r.1 r.2 s2)
        as (more_c & Hmore_c & Hsub_c).
      exists (more ++ more_c)%list. split; [done|]. split; [done|]. split.
      * rewrite Hmore_c, Hmore. by rewrite app_assoc.
      * etrans; [|exact Hsub]. by apply sublist_app.
    + exists more. split; [done|]. split; [done|]. split; [done|].
      etrans; [|exact Hsub]. by apply sublist_inserts_r.
  - exists more. split; [done|]. split; [done|]. split; [done|].
    by rewrite app_nil_r in Hsub.
Qed.


(** X23: whatever the service answers, and whether the worker returns
    or raises, what [run_load_bigquery_load] appends to the raw table
    of the worker is drawn from the URIs of the items that its queue
    gives out, in their order: the worker loads no other blob, loads
    each item of its queue at most once, and loads none before one of
    a lower checkpoint that it loads. *)
Theorem run_load_loads_only_its_queue (self : GoldskyWorker)
  (q : GoldskyQueue) (w : World) (Hwf : queue_wf q) :
  let w' := (state_of (Worker.run_load_bigquery_load self (q, w))).2 in
  ∃ items left more,
    (Some <$> items) ++ left ≡ₚ queue q
    ∧ StronglySorted item_le items
    ∧ table_contents w' (Worker.raw_table self)
      = (table_contents w (Worker.raw_table self) ++ more)%list
    ∧ more `sublist_of` (source_uri self <$> items).
Proof.
  destruct (run_load_contents self q w Hwf)
    as (items & left & more & Hp & Hsorted & Hmore & Hsub).
  exists items, left, more. split; [exact Hp|]. split; [exact Hsorted|].
  split; [exact Hmore|exact Hsub].
Qed.

(** On the example queue, with a service that fails the first load job
    with a client error. *)
Lemma run_load_loads_only_its_queue_witness :
  let self := mkGoldskyWorker "0" "202401010000"
                "proj.work.dest_pointer_state" None example_config [] in
  let w := BQ.set_responses [Some ClientError] example_world in
  let w' := (state_of (Worker.run_load_bigquery_load self
                         (example_queue, w))).2 in
  ∃ items left more,
    (Some <$> items) ++ left ≡ₚ queue example_queue
    ∧ StronglySorted item_le items
    ∧ table_contents w' (Worker.raw_table self)
      = (table_contents w (Worker.raw_table self) ++ more)%list
    ∧ more `sublist_of` (source_uri self <$> items).
Proof.
  apply (run_load_loads_only_its_queue
           (mkGoldskyWorker "0" "202401010000"
              "proj.work.dest_pointer_state" None example_config [])
           example_queue
           (BQ.set_responses [Some ClientError] example_world)).
  apply reachable_wf, example_queue_reachable.
Defined.

(** ** What a run can load, whatever the service does *)






(** ** The pointer update of the parallel loader, whatever the service
    does *)

Lemma blocking_update_existing_outcomes (cfg : GoldskyConfig)
  (job worker : string) (c : GoldskyCheckpoint) (wildcard_path : string)
  (rows : list PointerRow) (tbls : PyDict.t (list string))
  (script : list (option exn)) (bl : list string)
  (sch : string → list (string * polars.DataType)) (old : list string) :
  let raw := destination_table_name cfg ++ "_" ++ worker in
  let job_table := raw ++ "_" ++ job in
  let w' := state_of
              (blocking_update_pointer_table cfg job worker c wildcard_path
                 (mkWorld rows tbls script bl sch)) in
  PyDict.get tbls raw = Some old →
  ((PyDict.get (tables w') raw = Some old ∧ pointer_rows w' = rows)
   ∨ (PyDict.get (tables w') raw = Some (old ++ [wildcard_path])%list
      ∧ pointer_rows w' = committed worker c rows))
  ∧ (∀ t, t ≠ raw → t ≠ job_table →
          PyDict.get (tables w') t = PyDict.get tbls t)
  ∧ blobs w' = bl.
Proof.
  intros raw job_table w' Hraw.
  set (tbls1 := PyDict.set tbls job_table [wildcard_path]).
  pose proof (job_table_ne raw job) as Hne. fold job_table in Hne.
  assert (PyDict.get tbls1 raw = Some old) as Hd.
  { unfold tbls1. by rewrite dict_get_set_ne. }
  assert (PyDict.get tbls1 job_table = Some [wildcard_path]) as Hj
    by apply dict_get_set_eq.
  assert (Hother1 : ∀ t, t ≠ raw → t ≠ job_table →
            PyDict.get tbls1 t = PyDict.get tbls t).
  { intros t _ Ht. unfold tbls1. by rewrite dict_get_set_ne. }
  assert (Hother2 : ∀ t, t ≠ raw → t ≠ job_table →
            PyDict.get (PyDict.set tbls1 raw (old ++ [wildcard_path])%list) t
            = PyDict.get tbls t).
  { intros t Ht1 Ht2. rewrite dict_get_set_ne by done. by apply Hother1. }
  assert (Hdrop : ∀ t, t ≠ job_table →
            PyDict.get
              (filter (λ kv : string * list string, kv.1 ≠ job_table)
                 (PyDict.set tbls1 raw (old ++ [wildcard_path])%list)) t
            = PyDict.get
                (PyDict.set tbls1 raw (old ++ [wildcard_path])%list) t).
  { intros t Ht. etrans; [apply dict_get_filter_ne|].
    by destruct (String.eqb_spec t job_table). }
  assert (Hstep : ∀ script',
    blocking_update_pointer_table cfg job worker c wildcard_path
      (mkWorld rows tbls script' bl sch)
    = (BQ.request (BQ.sql_load_data_overwrite job_table wildcard_path);;
       BQ.request
         (BQ.sql_insert_select raw job_table;;
          BQ.sql_delete_pointer worker;;
          BQ.sql_insert_pointer worker c);;
       BQ.request (BQ.sql_drop_table job_table))
        (mkWorld rows tbls script' bl sch)).
  { intros script'.
    unfold blocking_update_pointer_table, try_except, BQ.get_table.
    cbv [mbind M_bind mret M_ret get raise]. cbn [tables].
    fold raw. by rewrite Hraw. }
  subst w'. rewrite Hstep. clear Hstep.
  unfold BQ.request, BQ.sql_load_data_overwrite, BQ.sql_insert_select,
    BQ.sql_delete_pointer, BQ.sql_insert_pointer, BQ.sql_drop_table,
    modify, put.
  cbv [mbind M_bind mret M_ret get raise].
  destruct script as [|[e1|] script];
    cbn [responses tables BQ.set_tables BQ.set_responses state_of
         pointer_rows blobs].
  - fold tbls1. rewrite Hd, Hj.
    cbn [responses tables BQ.set_tables BQ.set_responses state_of
         pointer_rows blobs BQ.set_pointer_rows].
    split; [right|split; [|done]].
    + split; [|done]. rewrite Hdrop by done. apply dict_get_set_eq.
    + intros t Ht1 Ht2. rewrite Hdrop by done. by apply Hother2.
  - split; [by left|done].
  - fold tbls1.
    destruct script as [|[e2|] script];
      cbn [responses tables BQ.set_tables BQ.set_responses state_of
           pointer_rows blobs].
    + rewrite Hd, Hj.
      cbn [responses tables BQ.set_tables BQ.set_responses state_of
           pointer_rows blobs BQ.set_pointer_rows].
      split; [right|split; [|done]].
      * split; [|done]. rewrite Hdrop by done. apply dict_get_set_eq.
      * intros t Ht1 Ht2. rewrite Hdrop by done. by apply Hother2.
    + split; [by left|]. split; [|done]. intros t. apply Hother1.
    + rewrite Hd, Hj.
      cbn [responses tables BQ.set_tables BQ.set_responses state_of
           pointer_rows blobs BQ.set_pointer_rows].
      destruct script as [|[e3|] script];
        cbn [responses tables BQ.set_tables BQ.set_responses state_of
             pointer_rows blobs BQ.set_pointer_rows].
      * split; [right|split; [|done]].
        -- split; [|done]. rewrite Hdrop by done. apply dict_get_set_eq.
        -- intros t Ht1 Ht2. rewrite Hdrop by done. by apply Hother2.
      * split; [right|split; [|done]].
        -- split; [|done]. apply dict_get_set_eq.
        -- apply Hother2.
      * split; [right|split; [|done]].
        -- split; [|done]. rewrite Hdrop by done. apply dict_get_set_eq.
        -- intros t Ht1 Ht2. rewrite Hdrop by done. by apply Hother2.
Qed.

(** X25: when the raw table of the worker exists, then whatever the
    service answers, and whether [blocking_update_pointer_table]
    returns or raises, the rows it loaded are in the raw table exactly
    when the pointer of the worker was moved: either both are as they
    were, or the raw table has the load appended and the worker has
    the new checkpoint as its pointer rows. The tables other than the
    raw table and the table of the job, and the bucket, are as they
    were. *)
Theorem blocking_update_moves_together (cfg : GoldskyConfig)
  (job worker : string) (c : GoldskyCheckpoint) (wildcard_path : string)
  (rows : list PointerRow) (tbls : PyDict.t (list string))
  (script : list (option exn)) (bl : list string)
  (sch : string → list (string * polars.DataType)) (old : list string)
  (Hraw : PyDict.get tbls (destination_table_name cfg ++ "_" ++ worker)
          = Some old) :
  let raw := destination_table_name cfg ++ "_" ++ worker in
  let job_table := raw ++ "_" ++ job in
  let w' := state_of
              (blocking_update_pointer_table cfg job worker c wildcard_path
                 (mkWorld rows tbls script bl sch)) in
  ((PyDict.get (tables w') raw = Some old ∧ pointer_rows w' = rows)
   ∨ (PyDict.get (tables w') raw = Some (old ++ [wildcard_path])%list
      ∧ pointer_rows w' = committed worker c rows))
  ∧ (∀ t, t ≠ raw → t ≠ job_table →
          PyDict.get (tables w') t = PyDict.get tbls t)
  ∧ blobs w' = bl.
Proof.
  intros raw job_table w'.
  destruct (blocking_update_existing_outcomes cfg job worker c
              wildcard_path rows tbls script bl sch old Hraw)
    as (Hboth & Hothers & Hblobs).
  split; [exact Hboth|]. split; [exact Hothers|exact Hblobs].
Qed.

(** On the example world after a first load into the raw table of
    worker 0, with a service that fails the transaction. *)
Lemma blocking_update_moves_together_witness :
  let rows := [mkPointerRow "0" example_job 100 2] in
  let tbls := [("dest_0", ["gs://bucket/first"])] in
  let c := mkGoldskyCheckpoint example_job 100 3 in
  let w' := state_of
              (blocking_update_pointer_table example_config "202401010000"
                 "0" c "gs://bucket/table_*.parquet"
                 (mkWorld rows tbls [None; Some InternalServerError] []
                    (λ _, []))) in
  ((PyDict.get (tables w') "dest_0" = Some ["gs://bucket/first"]
    ∧ pointer_rows w' = rows)
   ∨ (PyDict.get (tables w') "dest_0"
      = Some ["gs://bucket/first"; "gs://bucket/table_*.parquet"]
      ∧ pointer_rows w' = committed "0" c rows))
  ∧ (∀ t, t ≠ "dest_0" → t ≠ "dest_0_202401010000" →
          PyDict.get (tables w') t = PyDict.get tbls t)
  ∧ blobs w' = [].
Proof.
  apply (blocking_update_moves_together example_config "202401010000" "0"
           (mkGoldskyCheckpoint example_job 100 3)
           "gs://bucket/table_*.parquet"
           [mkPointerRow "0" example_job 100 2]
           [("dest_0", ["gs://bucket/first"])]
           [None; Some InternalServerError] [] (λ _, [])
           ["gs://bucket/first"]).
  reflexivity.
Defined.

(** X26: on the new-table path the load and the pointer row are two
    requests. When the raw table of the worker does not exist and the
    service fails the second request, [blocking_update_pointer_table]
    raises with the raw table loaded and the pointer table as it was;
    the same call again, now that the table exists, takes the other
    path and appends the same load a second time before it moves the
    pointer. *)
Theorem blocking_update_new_table_retry (cfg : GoldskyConfig)
  (job worker : string) (c : GoldskyCheckpoint) (wildcard_path : string)
  (rows : list PointerRow) (tbls : PyDict.t (list string))
  (bl : list string) (sch : string → list (string * polars.DataType))
  (e : exn)
  (Hnew : PyDict.get tbls (destination_table_name cfg ++ "_" ++ worker)
          = None) :
  let raw := destination_table_name cfg ++ "_" ++ worker in
  ∃ w1 w2,
    blocking_update_pointer_table cfg job worker c wildcard_path
      (mkWorld rows tbls [None; Some e] bl sch) = Raise e w1
    ∧ PyDict.get (tables w1) raw = Some [wildcard_path]
    ∧ pointer_rows w1 = rows
    ∧ blocking_update_pointer_table cfg job worker c wildcard_path w1
      = Ret () w2
    ∧ PyDict.get (tables w2) raw = Some [wildcard_path; wildcard_path]
    ∧ pointer_rows w2 = committed worker c rows.
Proof.
  intros raw. change (PyDict.get tbls raw = None) in Hnew.
  set (job_table := raw ++ "_" ++ job).
  set (tbls1 := PyDict.set tbls raw [wildcard_path]).
  set (tbls2 := PyDict.set tbls1 job_table [wildcard_path]).
  pose proof (job_table_ne raw job) as Hne. fold job_table in Hne.
  assert (PyDict.get tbls1 raw = Some [wildcard_path]) as Hraw
    by apply dict_get_set_eq.
  assert (PyDict.get tbls2 raw = Some [wildcard_path]) as Hd.
  { unfold tbls2. by rewrite dict_get_set_ne. }
  assert (PyDict.get tbls2 job_table = Some [wildcard_path]) as Hj
    by apply dict_get_set_eq.
  exists (mkWorld rows tbls1 [] bl sch). eexists. split.
  { unfold blocking_update_pointer_table, try_except, BQ.get_table,
      BQ.request, BQ.sql_load_data_overwrite, BQ.sql_insert_pointer,
      modify, put.
    cbv [mbind M_bind mret M_ret get raise]. cbn [tables responses].
    fold raw. rewrite Hnew.
    cbn [is_NotFound negb responses tables BQ.set_tables BQ.set_responses].
    fold tbls1. reflexivity. }
  cbn [tables pointer_rows]. split; [exact Hraw|]. split; [done|]. split.
  { unfold blocking_update_pointer_table, try_except, BQ.get_table,
      BQ.request, BQ.sql_load_data_overwrite, BQ.sql_insert_select,
      BQ.sql_delete_pointer, BQ.sql_insert_pointer, BQ.sql_drop_table,
      modify, put.
    cbv [mbind M_bind mret M_ret get raise]. cbn [tables responses].
    fold raw. rewrite Hraw. cbn [negb responses tables BQ.set_tables].
    fold job_table. fold tbls2. rewrite Hd, Hj. reflexivity. }
  cbn [pointer_rows tables BQ.set_pointer_rows BQ.set_tables].
  split; [|done].
  etrans; [apply dict_get_filter_ne|].
  destruct (String.eqb_spec raw job_table) as [Heq|_]; [by symmetry in Heq|].
  apply dict_get_set_eq.
Qed.

(** On the example world, where no raw table exists. *)
Lemma blocking_update_new_table_retry_witness :
  let c := mkGoldskyCheckpoint example_job 100 3 in
  ∃ w1 w2,
    blocking_update_pointer_table example_config "202401010000" "0" c
      "gs://bucket/table_*.parquet"
      (mkWorld (pointer_rows example_world) [] [None; Some ClientError]
         (blobs example_world) (λ _, [])) = Raise ClientError w1
    ∧ PyDict.get (tables w1) "dest_0" = Some ["gs://bucket/table_*.parquet"]
    ∧ pointer_rows w1 = pointer_rows example_world
    ∧ blocking_update_pointer_table example_config "202401010000" "0" c
        "gs://bucket/table_*.parquet" w1 = Ret () w2
    ∧ PyDict.get (tables w2) "dest_0"
      = Some ["gs://bucket/table_*.parquet"; "gs://bucket/table_*.parquet"]
    ∧ pointer_rows w2 = committed "0" c (pointer_rows example_world).
Proof.
  apply (blocking_update_new_table_retry example_config "202401010000" "0"
           (mkGoldskyCheckpoint example_job 100 3)
           "gs://bucket/table_*.parquet" (pointer_rows example_world) []
           (blobs example_world) (λ _, []) ClientError).
  reflexivity.
Defined.

(** ** What the queues report after DISCOVER *)

Lemma dict_get_map {V W} (f : V → W) (d : PyDict.t V) (k : string) :
  PyDict.get (map (λ kv : string * V, (kv.1, f kv.2)) d) k
  = f <$> PyDict.get d k.
Proof.
  induction d as [|[k' v] d IH]; [done|]. simpl.
  by destruct (String.eqb k' k).
Qed.

Lemma items_of_length (l : list item_ref) :
  Forall is_Some l → length (items_of l) = length l.
Proof.
  induction 1 as [|x l [i ->] _ IH]; [done|].
  rewrite items_of_cons_Some. simpl. by rewrite IH.
Qed.

Lemma dict_get_Some_keys {V} (d : PyDict.t V) (k : string) :
  k ∈ PyDict.keys d ↔ is_Some (PyDict.get d k).
Proof.
  split.
  - destruct (PyDict.get d k) eqn:Hget; [by eexists|].
    intros Hin. by apply dict_get_None_keys in Hget.
  - intros [v Hget]. apply dict_get_elem in Hget.
    apply list_elem_of_fmap. by exists (k, v).
Qed.

(** X27: after DISCOVER, [workers] lists each worker that is owed a
    blob once and no other worker, and [status] gives each of them the
    number of blobs it is owed. *)
Theorem discover_reports_owed (self : GoldskyAsset)
  (checkpoint_range : option GoldskyCheckpointRange) (w w1 : World)
  (worker_status : PyDict.t GoldskyCheckpoint)
  (Hstatus : Asset.get_worker_status self w = Ret worker_status w1) :
  ∃ qs,
    Asset.load_queues_to_process self checkpoint_range w
    = Ret (worker_status, qs) w1
    ∧ NoDup (Queues.workers qs)
    ∧ (∀ k, k ∈ Queues.workers qs
            ↔ found self worker_status checkpoint_range k (blobs w1) ≠ [])
    ∧ ∀ k, k ∈ Queues.workers qs →
           PyDict.get (Queues.status qs) k
           = Some (Z.of_nat
                     (length (found self worker_status checkpoint_range k
                                (blobs w1)))).
Proof.
  destruct (load_queues_to_process_spec self checkpoint_range w w1 _ Hstatus)
    as (qs & Hrun & Hfresh & _ & Hitems).
  exists qs. split; [exact Hrun|]. split.
  { exact (load_queues_to_process_nodup _ _ _ _ _ _ Hrun). }
  assert (Hlen : ∀ k q, PyDict.get (queues qs) k = Some q →
    length (queue q)
    = length (found self worker_status checkpoint_range k (blobs w1))
    ∧ queue q ≠ []).
  { intros k q Hget. destruct (Hfresh k q Hget) as ((Hsome & _) & Hne & _).
    split; [|done]. rewrite <-(items_of_length _ Hsome). unfold found.
    rewrite <-(Hitems k). unfold queue_of. by rewrite Hget. }
  split.
  - intros k. unfold Queues.workers. rewrite dict_get_Some_keys. split.
    + intros [q Hget] Hnil. destruct (Hlen k q Hget) as [Hl Hne].
      rewrite Hnil in Hl. by destruct (queue q).
    + intros Hne. destruct (PyDict.get (queues qs) k) eqn:Hget; [done|].
      exfalso. apply Hne. specialize (Hitems k). unfold queue_of in Hitems.
      rewrite Hget in Hitems. by apply Permutation_nil in Hitems.
  - intros k [q Hget]%dict_get_Some_keys. unfold Queues.status.
    etrans; [apply (dict_get_map (λ q, Z.of_nat (length (queue q))))|].
    rewrite Hget. cbn [fmap option_fmap option_map].
    by destruct (Hlen k q Hget) as [-> _].
Qed.

(** On the example bucket: worker 0 is owed one blob above its
    pointer, worker 1 its only blob. *)
Lemma discover_reports_owed_witness :
  ∃ qs,
    Asset.load_queues_to_process example_asset None example_world
    = Ret (example_status, qs) example_world
    ∧ NoDup (Queues.workers qs)
    ∧ (∀ k, k ∈ Queues.workers qs
            ↔ found example_asset example_status None k
                (blobs example_world) ≠ [])
    ∧ ∀ k, k ∈ Queues.workers qs →
           PyDict.get (Queues.status qs) k
           = Some (Z.of_nat
                     (length (found example_asset example_status None k
                                (blobs example_world)))).
Proof.
  apply (discover_reports_owed example_asset None example_world
           example_world example_status).
  reflexivity.
Defined.

(** ** Emptying every queue *)

Lemma dict_set_middle {V} (pre l : PyDict.t V) (k : string) (v v' : V) :
  k ∉ PyDict.keys pre →
  PyDict.set (pre ++ (k, v) :: l)%list k v' = (pre ++ (k, v') :: l)%list.
Proof.
  induction pre as [|[k0 v0] pre IH]; intros Hk.
  - simpl. by rewrite String.eqb_refl.
  - cbn [PyDict.keys map fst] in Hk. apply not_elem_of_cons in Hk as [Hne Hk].
    simpl. destruct (String.eqb_spec k0 k) as [Heq|_]; [by symmetry in Heq|].
    by rewrite IH.
Qed.

Lemma empty_all_loop (max : Z) (l pre : PyDict.t GoldskyQueue) :
  NoDup (PyDict.keys (pre ++ l)%list) →
  for_each l
    (λ kv : string * GoldskyQueue,
       Queues.on_stored kv.1 kv.2 Queue.empty)
    (mkGoldskyQueues (pre ++ l)%list max)
  = Ret ()
      (mkGoldskyQueues
         (pre ++ map (λ kv : string * GoldskyQueue,
                        (kv.1, Queue.set_queue [] kv.2)) l)%list max).
Proof.
  revert pre. induction l as [|[k q] l IH]; intros pre Hnd; [done|].
  cbn [for_each]. cbv [mbind M_bind].
  change (Queues.on_stored (k, q).1 (k, q).2 Queue.empty
            (mkGoldskyQueues (pre ++ (k, q) :: l)%list max))
    with (Ret (S:=GoldskyQueues) ()
            (mkGoldskyQueues
               (PyDict.set (pre ++ (k, q) :: l)%list k
                  (Queue.set_queue [] q)) max)).
  rewrite dict_set_middle.
  2: { unfold PyDict.keys in *. rewrite map_app in Hnd.
       apply NoDup_app in Hnd as (_ & Hnd & _). intros Hin.
       apply (Hnd k Hin). apply list_elem_of_here. }
  specialize (IH (pre ++ [(k, Queue.set_queue [] q)])%list).
  rewrite <-!app_assoc in IH. cbn [app] in IH. rewrite IH; [done|].
  unfold PyDict.keys in *. rewrite !map_app in *. exact Hnd.
Qed.

Lemma dequeue_empty_heap (q : GoldskyQueue) :
  queue q = [] → Queue.dequeue q = Ret None q.
Proof.
  intros Hq. unfold Queue.dequeue. cbv [mbind M_bind mret M_ret get].
  destruct (_dequeues q >? max_size q - 1); [done|].
  unfold try_except, on_field. destruct q as [h d m]. cbn [queue] in *.
  by subst h.
Qed.

Lemma queues_dequeue_empty_heap (qs : GoldskyQueues) (k : string) :
  (∀ q, PyDict.get (queues qs) k = Some q → queue q = []) →
  Queues.dequeue k qs = Ret None qs.
Proof.
  intros Hk. unfold Queues.dequeue. cbv [mbind M_bind mret M_ret get].
  destruct (PyDict.get (queues qs) k) as [q|] eqn:Hget.
  - unfold Queues.on_stored, on_field.
    rewrite (dequeue_empty_heap q) by by apply Hk.
    by rewrite set_worker_same.
  - unfold Queues.on_fresh. by rewrite dequeue_empty_heap.
Qed.

(** X28: [empty_all] on queues with one queue per worker returns, and
    afterwards every worker is still listed in its place, [status]
    reports 0 for each, every queue has kept its count of dequeues and
    its cap, and [dequeue] gives nothing for any worker. *)
Theorem empty_all_empties (qs : GoldskyQueues)
  (Hkeys : NoDup (Queues.workers qs)) :
  ∃ qs',
    empty_all qs = Ret () qs'
    ∧ Queues.workers qs' = Queues.workers qs
    ∧ Queues.status qs' = map (λ k, (k, 0)) (Queues.workers qs)
    ∧ (∀ k q, PyDict.get (queues qs) k = Some q →
              ∃ q', PyDict.get (queues qs') k = Some q'
                    ∧ queue q' = [] ∧ _dequeues q' = _dequeues q
                    ∧ max_size q' = max_size q)
    ∧ ∀ k, Queues.dequeue k qs' = Ret None qs'.
Proof.
  set (emptied := λ kv : string * GoldskyQueue,
                    (kv.1, Queue.set_queue [] kv.2)).
  exists (mkGoldskyQueues (map emptied (queues qs)) (queues_max_size qs)).
  assert (Hget : ∀ k,
    PyDict.get (map emptied (queues qs)) k
    = Queue.set_queue [] <$> PyDict.get (queues qs) k).
  { intros k. apply (dict_get_map (Queue.set_queue [])). }
  split.
  { unfold empty_all. cbv [mbind M_bind get]. unfold PyDict.items.
    destruct qs as [d max]. cbn [queues queues_max_size].
    apply (empty_all_loop max d []). exact Hkeys. }
  unfold Queues.workers, Queues.status, PyDict.keys. cbn [queues].
  split; [|split; [|split]].
  - rewrite map_map. by apply map_ext.
  - rewrite !map_map. by apply map_ext.
  - intros k q Hk. exists (Queue.set_queue [] q). rewrite Hget, Hk.
    by split.
  - intros k. apply queues_dequeue_empty_heap. cbn [queues]. intros q.
    rewrite Hget. by destruct (PyDict.get (queues qs) k); intros [= <-].
Qed.

(** On the example queues. *)
Lemma empty_all_empties_witness :
  ∃ qs',
    empty_all example_queues = Ret () qs'
    ∧ Queues.workers qs' = Queues.workers example_queues
    ∧ Queues.status qs' = map (λ k, (k, 0)) (Queues.workers example_queues)
    ∧ (∀ k q, PyDict.get (queues example_queues) k = Some q →
              ∃ q', PyDict.get (queues qs') k = Some q'
                    ∧ queue q' = [] ∧ _dequeues q' = _dequeues q
                    ∧ max_size q' = max_size q)
    ∧ ∀ k, Queues.dequeue k qs' = Ret None qs'.
Proof.
  apply (empty_all_empties example_queues).
  apply (bool_decide_unpack _). vm_compute. reflexivity.
Defined.

(** ** The cache of the blob listing *)

Lemma load_queues_with_cached (self : GoldskyAsset)
  (worker_status : option (PyDict.t GoldskyCheckpoint))
  (max_objects : option Z)
  (checkpoint_range : option GoldskyCheckpointRange)
  (cache : option (list re_Match)) (w : World) :
  let listing :=
    default (omap (Asset.goldsky_re_match self) (blobs w)) cache in
  state_of (load_queues_with self worker_status max_objects None
              checkpoint_range (cache, w))
  = (Some listing, w)
  ∧ ∀ w0, omap (Asset.goldsky_re_match self) (blobs w0) = listing →
          value_of (load_queues_with self worker_status max_objects None
                      checkpoint_range (cache, w))
          = value_of (Asset.load_queues self worker_status max_objects
                        checkpoint_range w0).
Proof.
  intros listing.
  assert (Hrun : ∃ o,
    (o = Ret listing (Some listing, w))
    ∧ _cached_blobs_loader self (cache, w) = o).
  { eexists. split; [reflexivity|]. subst listing.
    unfold _cached_blobs_loader, on_field, Asset._uncached_blobs_loader,
      modify.
    cbv [mbind M_bind mret M_ret get]. by destruct cache. }
  destruct Hrun as (o & -> & Hrun).
  unfold load_queues_with. cbv [mbind M_bind]. rewrite Hrun. split.
  - destruct (for_each listing _ _) as [[] qs|e qs]; [|done].
    by destruct worker_status.
  - intros w0 Hw0. unfold Asset.load_queues, Asset._uncached_blobs_loader.
    cbv [mbind M_bind mret M_ret get]. rewrite Hw0.
    destruct (for_each listing _ _) as [[] qs|e qs]; [|done].
    by destruct worker_status.
Qed.

(** X29: with no loader passed, [load_queues] lists the bucket on the
    first call on an asset only. The first call gives the queues of the
    bucket as it is, and every later call on the same asset gives the
    queues of that first listing, whatever the bucket holds by then:
    blobs that arrive after the first call are not discovered. A call
    with [_uncached_blobs_loader], as [clean_up] makes it, lists the
    bucket again and leaves the cache as it is. *)
Theorem load_queues_lists_the_bucket_once (self : GoldskyAsset)
  (worker_status : option (PyDict.t GoldskyCheckpoint))
  (max_objects : option Z)
  (checkpoint_range : option GoldskyCheckpointRange) (w w2 : World) :
  let first := load_queues_with self worker_status max_objects None
                 checkpoint_range (None, w) in
  let cache := (state_of first).1 in
  value_of first
  = value_of (Asset.load_queues self worker_status max_objects
                checkpoint_range w)
  ∧ (state_of first).2 = w
  ∧ value_of (load_queues_with self worker_status max_objects None
                checkpoint_range (cache, w2))
    = value_of (Asset.load_queues self worker_status max_objects
                  checkpoint_range w)
  ∧ value_of (load_queues_with self worker_status max_objects
                (Some (_uncached_blobs_loader_on self)) checkpoint_range
                (cache, w2))
    = value_of (Asset.load_queues self worker_status max_objects
                  checkpoint_range w2)
  ∧ state_of (load_queues_with self worker_status max_objects
                (Some (_uncached_blobs_loader_on self)) checkpoint_range
                (cache, w2))
    = (cache, w2).
Proof.
  intros first cache.
  destruct (load_queues_with_cached self worker_status max_objects
              checkpoint_range None w) as [Hstate Hvalue].
  cbn [default from_option] in Hstate, Hvalue.
  assert (Hcache : cache = Some (omap (Asset.goldsky_re_match self)
                                   (blobs w))).
  { subst cache first. by rewrite Hstate. }
  split; [by apply Hvalue|]. split; [subst first; by rewrite Hstate|].
  rewrite Hcache. split; [|split].
  - destruct (load_queues_with_cached self worker_status max_objects
                checkpoint_range
                (Some (omap (Asset.goldsky_re_match self) (blobs w))) w2)
      as [_ Hlater].
    by apply Hlater.
  - unfold load_queues_with, _uncached_blobs_loader_on, on_field,
      Asset.load_queues, Asset._uncached_blobs_loader.
    cbv [mbind M_bind mret M_ret get]. cbn [snd fst].
    destruct (for_each _ _ _) as [[] qs|e qs]; [|done].
    by destruct worker_status.
  - unfold load_queues_with, _uncached_blobs_loader_on, on_field,
      Asset._uncached_blobs_loader.
    cbv [mbind M_bind mret M_ret get]. cbn [snd fst].
    destruct (for_each _ _ _) as [[] qs|e qs]; [|done].
    by destruct worker_status.
Qed.
